(** * humanseg_lite: the inference module and its video post-processing

    A shallow embedding of
    [modules/image/semantic_segmentation/humanseg_lite/module.py]
    (class [ShufflenetHumanSeg]) together with the properties stated
    about it.

    Conventions of the embedding:
    - a Python call either returns a value or raises: [result];
    - every call that leaves the module (the helper modules [data_feed],
      [optimal], [processor], the inference engine, OpenCV's image
      kernels, the capture device and the file system) is recorded in a
      log of [event]s, in program order: the monad [M];
    - numpy arrays are a dtype, a shape and the row-major list of their
      elements; an element is the rational number it denotes, and the
      arithmetic of arrays rounds every result to the dtype of the
      result, as IEEE 754 arithmetic does;
    - the array primitives the module applies itself ([np.zeros],
      [np.transpose], indexing, arithmetic, [astype]) are defined here;
      the image kernels and the helper modules are the fields of the
      interface [Backend]. *)

From Stdlib Require Import ZArith QArith Qabs Qround Qpower Lqa Lia List String Ascii Bool.
From stdpp Require Import gmap strings list.

(** ** Python results and exceptions *)

Inductive exn : Type :=
  | RuntimeError
  | KeyError
  | IndexError
  | ValueError
  | AttributeError
  | IOError
  | ZeroDivisionError
  | InvalidInputError
  | InvalidConfigurationError
  | ExternalError (msg : string).

Inductive result (A : Type) : Type :=
  | Ok (a : A)
  | Raise (e : exn).

Arguments Ok {A} a.
Arguments Raise {A} e.

(** [try: body / except: raise e] with a bare [except]. *)
Definition try_except_raise {A} (body : result A) (e : exn) : result A :=
  match body with
  | Ok a => Ok a
  | Raise _ => Raise e
  end.

(** ** numpy arrays *)

Inductive dtype : Type := uint8 | float32.

Record ndarray : Type := mk_ndarray {
  arr_dtype : dtype;
  shape : list nat;
  data : list Q
}.

Definition numel (s : list nat) : nat := fold_right Nat.mul 1%nat s.

(** [np.zeros(shape, dtype)] *)
Definition np_zeros (s : list nat) (t : dtype) : ndarray :=
  mk_ndarray t s (repeat 0%Q (numel s)).

(** [np.ones_like(a)] *)
Definition np_ones_like (a : ndarray) : ndarray :=
  mk_ndarray (arr_dtype a) (shape a) (repeat 1%Q (length (data a))).

(** numpy's result type of an operation on two arrays among uint8 and
    float32. *)
Definition promote (t1 t2 : dtype) : dtype :=
  match t1, t2 with
  | uint8, uint8 => uint8
  | _, _ => float32
  end.

(** [2^k] for an integer [k]. *)
Definition pow2 (k : Z) : Q := (2 ^ k)%Q.

(** The binade of [x <> 0]: the [e] with [2^e <= |x| < 2^(e+1)].  The
    difference of the bit lengths of numerator and denominator is [e] or
    [e + 1]. *)
Definition binade (x : Q) : Z :=
  let d := (Z.log2 (Z.abs (Qnum x)) - Z.log2 (Zpos (Qden x)))%Z in
  if Qle_bool (pow2 d) (Qabs x) then d else (d - 1)%Z.

(** The nearest integer, a tie going to the even one. *)
Definition round_half_even (y : Q) : Z :=
  let f := Qfloor y in
  match (y - inject_Z f ?= 1 # 2)%Q with
  | Lt => f
  | Gt => (f + 1)%Z
  | Eq => if Z.even f then f else (f + 1)%Z
  end.

(** The distance between neighbours, around [x <> 0], in the IEEE 754
    binary format with [prec] significant bits whose least subnormal is
    [2^qmin]. *)
Definition spacing (prec qmin : Z) (x : Q) : Q :=
  pow2 (Z.max (binade x - (prec - 1)) qmin).

(** Rounding to nearest, ties to even, in that format: [x] is rounded to
    a multiple of the spacing of its binade.  Numbers beyond
    the largest finite value of the format, which IEEE arithmetic turns
    into an infinity, are outside the model. *)
Definition round_binary (prec qmin : Z) (x : Q) : Q :=
  let x := Qred x in
  if Qeq_bool x 0 then 0%Q
  else let q := spacing prec qmin x in
       Qred (inject_Z (round_half_even (x / q)) * q).

Definition round_float32 : Q -> Q := round_binary 24 (-149).
Definition round_float64 : Q -> Q := round_binary 53 (-1074).

(** What an array of dtype [t] holds for the exact result [x] of an
    arithmetic operation: float32 arithmetic rounds to nearest, uint8
    arithmetic wraps around. *)
Definition store (t : dtype) (x : Q) : Q :=
  match t with
  | float32 => round_float32 x
  | uint8 => inject_Z (Qfloor x mod 256)
  end.

(** [k * a] and [a * k] for a Python scalar [k]: the array keeps its dtype. *)
Definition np_scale (k : Q) (a : ndarray) : ndarray :=
  mk_ndarray (arr_dtype a) (shape a)
    (map (fun x => store (arr_dtype a) (k * x)) (data a)).

(** [k - a] for a Python scalar [k]. *)
Definition np_rsub (k : Q) (a : ndarray) : ndarray :=
  mk_ndarray (arr_dtype a) (shape a)
    (map (fun x => store (arr_dtype a) (k - x)) (data a)).

Fixpoint zip_with_Q (f : Q -> Q -> Q) (l1 l2 : list Q) : list Q :=
  match l1, l2 with
  | x :: l1', y :: l2' => f x y :: zip_with_Q f l1' l2'
  | _, _ => []
  end.

(** Element-wise [a op b] on arrays of one shape.  numpy would also
    stretch axes of length one; the arrays combined by the module have
    equal shapes whenever the operation succeeds on a colour frame, and
    any other pair of shapes is reported as the [ValueError] numpy raises
    for shapes that do not broadcast. *)
Definition np_binop (f : Q -> Q -> Q) (a b : ndarray) : result ndarray :=
  if decide (shape a = shape b)
  then let t := promote (arr_dtype a) (arr_dtype b) in
       Ok (mk_ndarray t (shape a)
             (zip_with_Q (fun x y => store t (f x y)) (data a) (data b)))
  else Raise ValueError.

Definition np_mul : ndarray -> ndarray -> result ndarray := np_binop Qmult.
Definition np_add : ndarray -> ndarray -> result ndarray := np_binop Qplus.

(** Rounding toward zero, the C conversion behind [astype(np.uint8)]. *)
Definition Qtrunc (x : Q) : Z :=
  if Qlt_le_dec x 0 then Qceiling x else Qfloor x.

Definition to_uint8 (x : Q) : Z := (Qtrunc x mod 256)%Z.

(** [a.astype(np.uint8)] *)
Definition astype_uint8 (a : ndarray) : ndarray :=
  mk_ndarray uint8 (shape a) (map (fun x => inject_Z (to_uint8 x)) (data a)).

(** [a[None, ...]] *)
Definition np_newaxis0 (a : ndarray) : ndarray :=
  mk_ndarray (arr_dtype a) (1%nat :: shape a) (data a).

(** [np.squeeze(a, 0)] *)
Definition np_squeeze0 (a : ndarray) : result ndarray :=
  match shape a with
  | 1%nat :: s => Ok (mk_ndarray (arr_dtype a) s (data a))
  | _ => Raise ValueError
  end.

(** [np.transpose(a, axes=[1, 2, 0])]: element (i, j, k) of the result is
    element (k, i, j) of [a]. *)
Definition np_transpose120 (a : ndarray) : result ndarray :=
  match shape a with
  | [c; h; w] =>
      Ok (mk_ndarray (arr_dtype a) [h; w; c]
            (flat_map (fun i =>
               flat_map (fun j =>
                 map (fun k => nth (k * h * w + i * w + j) (data a) 0%Q) (seq 0 c))
                 (seq 0 w))
               (seq 0 h)))
  | _ => Raise ValueError
  end.

(** [a[:, :, 1]] on the three-axis arrays the module applies it to. *)
Definition np_channel1 (a : ndarray) : result ndarray :=
  match shape a with
  | [h; w; c] =>
      if (2 <=? c)%nat
      then Ok (mk_ndarray (arr_dtype a) [h; w]
                 (map (fun i => nth (i * c + 1) (data a) 0%Q) (seq 0 (h * w))))
      else Raise IndexError
  | _ => Raise IndexError
  end.

(** The elements [off, off + len) of a list. *)
Definition slice {A} (off len : nat) (l : list A) : list A :=
  firstn len (skipn off l).

(** [np.expand_dims(a[:, 1, :, :], axis=1)] *)
Definition np_class1_keepdim (a : ndarray) : result ndarray :=
  match shape a with
  | n :: c :: h :: w :: rest =>
      if (2 <=? c)%nat
      then let blk := numel (h :: w :: rest) in
           Ok (mk_ndarray (arr_dtype a) (n :: 1%nat :: h :: w :: rest)
                 (flat_map (fun b => slice (b * c * blk + blk) blk (data a)) (seq 0 n)))
      else Raise IndexError
  | _ => Raise IndexError
  end.

(** [a[i]] for [0 <= i]. *)
Definition np_index0 (a : ndarray) (i : nat) : result ndarray :=
  match shape a with
  | n :: rest =>
      if (i <? n)%nat
      then Ok (mk_ndarray (arr_dtype a) rest (slice (i * numel rest) (numel rest) (data a)))
      else Raise IndexError
  | [] => Raise IndexError
  end.

(** [np.array([a1, ..., an])] of arrays; a ragged list is refused. *)
Definition np_array (l : list ndarray) : result ndarray :=
  match l with
  | [] => Ok (mk_ndarray float32 [0%nat] [])
  | a :: _ =>
      if forallb (fun b => bool_decide (shape b = shape a)) l
      then Ok (mk_ndarray (arr_dtype a) (length l :: shape a) (flat_map data l))
      else Raise ValueError
  end.

(** [np.repeat(a[:, :, np.newaxis], 3, axis=2)] *)
Definition np_repeat3_newaxis2 (a : ndarray) : result ndarray :=
  match shape a with
  | [h; w] =>
      Ok (mk_ndarray (arr_dtype a) [h; w; 3%nat]
            (flat_map (fun x => [x; x; x]) (data a)))
  | h :: w :: rest =>
      let blk := numel rest in
      Ok (mk_ndarray (arr_dtype a) (h :: w :: 3%nat :: rest)
            (flat_map (fun i => let c := slice (i * blk) blk (data a) in c ++ c ++ c)
               (seq 0 (h * w))))
  | _ => Raise IndexError
  end.

(** Python's [l[i]] on a list: a negative index counts from the end. *)
Definition py_getitem {A} (l : list A) (i : Z) : result A :=
  let n := Z.of_nat (length l) in
  let j := if (i <? 0)%Z then (i + n)%Z else i in
  if ((0 <=? j)%Z && (j <? n)%Z)%bool
  then match nth_error l (Z.to_nat j) with
       | Some x => Ok x
       | None => Raise IndexError
       end
  else Raise IndexError.

(** [range(n)] *)
Definition py_range (n : Z) : list Z := map Z.of_nat (seq 0 (Z.to_nat n)).

(** A positive quotient of at most [2^-1075], half the least positive
    binary64 number, is rounded to [0.0]. *)
Definition underflows_float64 (q : Q) : bool :=
  negb (Qle_bool q 0) && Qle_bool q (pow2 (-1075)).

(** [int(np.ceil(a / b))] on Python ints.  Python divides two ints into
    the binary64 number nearest to their quotient, [round_float64 (a / b)].
    For [a] below [2^53], which the length of every list that fits in
    memory is, the ceiling of the rounded quotient is that of the exact
    one, except where the quotient underflows to [0.0] (lemma
    [ceil_div_float64]); the definition is this case analysis.  From
    [2^53] items on, the quotient loses its low bits and the definition
    is not what Python computes. *)
Definition ceil_div (a : nat) (b : Z) : result Z :=
  if (b =? 0)%Z then Raise ZeroDivisionError
  else let q := (inject_Z (Z.of_nat a) / inject_Z b)%Q in
       if underflows_float64 q then Ok 0%Z else Ok (Qceiling q).

(** ** The module's objects and the world around it *)

(** The two inference engines [_set_config] may create. *)
Inductive predictor : Type := CpuPredictor | GpuPredictor.

(** The attributes of a [ShufflenetHumanSeg] object: [gpu_predictor]
    exists only when [_set_config] found a usable device. *)
Record ShufflenetHumanSeg : Type := {
  cpu_predictor : predictor;
  gpu_predictor : option predictor
}.

Inductive DISOpticalFlow : Type := DISOpticalFlow_create (preset : string).

Definition DISOPTICAL_FLOW_PRESET_ULTRAFAST : string := "ULTRAFAST".

(** What [cv2.VideoCapture] delivers: whether it opened, its properties
    and the frames it will hand out, in order. *)
Record VideoCapture : Type := {
  cap_isOpened : bool;
  cap_width : nat;
  cap_height : nat;
  cap_fps : Q;
  cap_frames : list ndarray
}.

(** The process environment, the file system, the capture devices and
    the keyboard ([wait_key n] is the answer of the n-th [cv2.waitKey]). *)
Record world : Type := {
  environ : gmap string string;
  path_exists : string -> bool;
  open_capture : option string -> VideoCapture;
  wait_key : nat -> Z
}.

(** The dictionaries [reader] yields and [postprocess] returns. *)
Record data_item : Type := {
  image : ndarray;
  org_im : ndarray;
  org_im_shape : list nat;
  org_im_path : string
}.

Record res_dict : Type := {
  save_path : option string;
  res_data : ndarray
}.

(** Calls that leave the module, as they appear in its text. *)
Inductive event : Type :=
  | EReader (images : option (list ndarray)) (paths : option (list string))
  | EPreprocessV (frame : ndarray) (w h : nat)
  | EPredictorRun (p : predictor) (input : ndarray)
  | EPostprocess (data_out org : ndarray) (org_shape : list nat)
      (org_path output_dir : string) (visualization : bool)
  | ECvtColorBGR2GRAY (img : ndarray)
  | EResize (img : ndarray) (dsize : nat * nat)
  | EGaussianBlur (img : ndarray) (ksize : nat * nat) (sigma : Q)
  | EThresholdMask (img : ndarray) (thresh_bg thresh_fg : Q)
  | EPostprocessV (cur_gray scoremap prev_gray prev_cfd : ndarray)
      (disflow : DISOpticalFlow) (is_init : bool)
  | EVideoCapture (source : option string)
  | EPrint (msg : string)
  | EMakedirs (dir : string)
  | EVideoWriter (path : string) (fps : Q) (size : nat * nat)
  | EWrite (frame : ndarray)
  | EImshow (title : string) (frame : ndarray)
  | EWaitKey (n : nat)
  | ERelease (what : string).

(** The helper modules and libraries behind the module's calls. *)
Class Backend : Type := {
  (* data_feed.py *)
  reader : option (list ndarray) -> option (list string) -> result (list data_item);
  preprocess_v : ndarray -> nat -> nat -> result ndarray;
  (* processor.py *)
  postprocess : ndarray -> ndarray -> list nat -> string -> string -> bool -> result res_dict;
  (* optimal.py *)
  postprocess_v : ndarray -> ndarray -> ndarray -> ndarray -> DISOpticalFlow -> bool -> result ndarray;
  threshold_mask : ndarray -> Q -> Q -> result ndarray;
  (* paddle.inference: copy_from_cpu, run, copy_to_cpu of the second output *)
  predictor_run : predictor -> ndarray -> result ndarray;
  (* cv2 *)
  cvtColor_BGR2GRAY : ndarray -> result ndarray;
  cv2_resize : ndarray -> nat * nat -> result ndarray;
  GaussianBlur : ndarray -> nat * nat -> Q -> result ndarray
}.

(** Sequencing of calls that may raise. *)
#[export] Instance result_ret : MRet result := fun A a => Ok a.

#[export] Instance result_bind : MBind result := fun A B f r =>
  match r with
  | Ok a => f a
  | Raise e => Raise e
  end.

(** [a.shape[i]] *)
Definition shape_at (a : ndarray) (i : nat) : result nat :=
  match nth_error (shape a) i with
  | Some n => Ok n
  | None => Raise IndexError
  end.

(** [osp.join(a, b)] for a relative [b]. *)
Definition osp_join (a b : string) : string :=
  match a with
  | EmptyString => b
  | _ => if String.eqb (substring (String.length a - 1) 1 a) "/"
         then a ++ b else a ++ "/" ++ b
  end.

(** ** Logged computations *)

Definition M (A : Type) : Type := (list event * result A)%type.

#[export] Instance M_ret : MRet M := fun A a => ([], Ok a).

#[export] Instance M_bind : MBind M := fun A B f m =>
  match m with
  | (l1, Ok a) => let '(l2, r) := f a in (l1 ++ l2, r)
  | (l1, Raise e) => (l1, Raise e)
  end.

(** A computation of the module itself: nothing is logged. *)
Definition lift {A} (r : result A) : M A := ([], r).

(** A call that leaves the module. *)
Definition call {A} (e : event) (r : result A) : M A := ([e], r).

(** [for x in l: s = body(s, x)] *)
Fixpoint for_each {A S} (l : list A) (s : S) (body : S -> A -> M S) : M S :=
  match l with
  | [] => mret s
  | x :: l' => s' ← body s x; for_each l' s' body
  end.

(** ** The device check of [segment] and [video_segment] *)

Definition is_decimal_digit (c : ascii) : bool :=
  let n := nat_of_ascii c in ((48 <=? n)%nat && (n <=? 57)%nat)%bool.

(** [int(c)] for a one-character string, on the characters an [ascii]
    can hold (code points below 256, where the decimal digits are
    exactly '0'..'9'). *)
Definition py_int_char (c : ascii) : result Z :=
  if is_decimal_digit c then Ok (Z.of_nat (nat_of_ascii c - 48)) else Raise ValueError.

(** [_places = os.environ["CUDA_VISIBLE_DEVICES"]; int(_places[0])] *)
Definition cuda_visible_device (w : world) : result Z :=
  match environ w !! "CUDA_VISIBLE_DEVICES" with
  | None => Raise KeyError
  | Some _places =>
      match _places with
      | EmptyString => Raise IndexError
      | String c _ => py_int_char c
      end
  end.

(** [_set_config]: the GPU predictor is created only when the device
    check passes. *)
Definition _set_config (w : world) : ShufflenetHumanSeg :=
  {| cpu_predictor := CpuPredictor;
     gpu_predictor := match cuda_visible_device w with
                      | Ok _ => Some GpuPredictor
                      | Raise _ => None
                      end |}.

(** [self.gpu_predictor if use_gpu else self.cpu_predictor] *)
Definition select_predictor (self : ShufflenetHumanSeg) (use_gpu : bool) : result predictor :=
  if use_gpu
  then match gpu_predictor self with
       | Some p => Ok p
       | None => Raise AttributeError
       end
  else Ok (cpu_predictor self).

(** The guard at the head of [segment] and [video_segment]:
    [if use_gpu: try: ... except: raise RuntimeError(...)]. *)
Definition require_cuda (w : world) (use_gpu : bool) : M unit :=
  if use_gpu
  then _ ← lift (try_except_raise (cuda_visible_device w) RuntimeError); mret tt
  else mret tt.

(** ** [segment] *)

Section Methods.

Context {B : Backend}.

(** The inner loop that fills [batch_data]: an index past the end of
    [all_data] raises inside the [try] and is skipped. *)
Definition gather_batch (all_data : list data_item) (handle_id batch_size : Z)
  : list data_item :=
  flat_map (fun image_id =>
              match py_getitem all_data (handle_id + image_id)%Z with
              | Ok d => [d]
              | Raise _ => []
              end)
           (py_range batch_size).

(** One turn of [for i in range(len(batch_data))]. *)
Definition postprocess_one (output : ndarray) (batch_data : list data_item)
    (output_dir : string) (visualization : bool)
    (res : list res_dict) (i : nat) : M (list res_dict) :=
  data_out ← lift (np_index0 output i);
  d ← lift (py_getitem batch_data (Z.of_nat i));
  out ← call (EPostprocess data_out (org_im d) (org_im_shape d) (org_im_path d)
                output_dir visualization)
             (postprocess data_out (org_im d) (org_im_shape d) (org_im_path d)
                output_dir visualization);
  mret (res ++ [out]).

(** One turn of [for iter_id in range(loop_num)]. *)
Definition segment_batch (self : ShufflenetHumanSeg) (all_data : list data_item)
    (batch_size : Z) (use_gpu visualization : bool) (output_dir : string)
    (res : list res_dict) (iter_id : Z) : M (list res_dict) :=
  let handle_id := (iter_id * batch_size)%Z in
  let batch_data := gather_batch all_data handle_id batch_size in
  batch_image ← lift (np_array (map image batch_data));
  predictor ← lift (select_predictor self use_gpu);
  output ← call (EPredictorRun predictor batch_image) (predictor_run predictor batch_image);
  output ← lift (np_class1_keepdim output);
  for_each (seq 0 (length batch_data)) res
           (postprocess_one output batch_data output_dir visualization).

Definition segment (self : ShufflenetHumanSeg) (w : world)
    (images : option (list ndarray)) (paths : option (list string))
    (batch_size : Z) (use_gpu visualization : bool) (output_dir : string)
  : M (list res_dict) :=
  _ ← require_cuda w use_gpu;
  all_data ← call (EReader images paths) (reader images paths);
  let total_num := length all_data in
  loop_num ← lift (ceil_div total_num batch_size);
  for_each (py_range loop_num) []
           (segment_batch self all_data batch_size use_gpu visualization output_dir).

(** ** The per-frame forward pass

    The text shared by [video_stream_segment] (lines 176-191) and the two
    loops of [video_segment]: preprocessing, inference, the gray image
    and the foreground score scaled to 0..255. *)
Definition frame_forward (self : ShufflenetHumanSeg) (use_gpu : bool)
    (frame_org : ndarray) (resize_w resize_h : nat) : M (ndarray * ndarray) :=
  frame ← call (EPreprocessV frame_org resize_w resize_h)
               (preprocess_v frame_org resize_w resize_h);
  predictor ← lift (select_predictor self use_gpu);
  score_map ← call (EPredictorRun predictor (np_newaxis0 frame))
                   (predictor_run predictor (np_newaxis0 frame));
  frame ← lift (np_transpose120 frame);
  score_map ← lift (sq ← np_squeeze0 score_map; np_transpose120 sq);
  cur_gray ← call (ECvtColorBGR2GRAY frame) (cvtColor_BGR2GRAY frame);
  cur_gray ← call (EResize cur_gray (resize_w, resize_h))
                  (cv2_resize cur_gray (resize_w, resize_h));
  score_map ← lift (c ← np_channel1 score_map; mret (np_scale 255 c));
  mret (cur_gray, score_map).

(** ** [video_stream_segment] *)

Definition video_stream_segment (self : ShufflenetHumanSeg) (w : world)
    (frame_org : ndarray) (frame_id : Z) (prev_gray prev_cfd : ndarray)
    (use_gpu : bool) : M (ndarray * ndarray * ndarray) :=
  let resize_h := 192%nat in
  let resize_w := 192%nat in
  let is_init := true in
  width ← lift (shape_at frame_org 0);
  height ← lift (shape_at frame_org 1);
  let disflow := DISOpticalFlow_create DISOPTICAL_FLOW_PRESET_ULTRAFAST in
  '(cur_gray, score_map) ← frame_forward self use_gpu frame_org resize_w resize_h;
  optflow_map ←
    (if (frame_id =? 1)%Z
     then
       let prev_gray := np_zeros [resize_h; resize_w] uint8 in
       let prev_cfd := np_zeros [resize_h; resize_w] float32 in
       call (EPostprocessV cur_gray score_map prev_gray prev_cfd disflow is_init)
            (postprocess_v cur_gray score_map prev_gray prev_cfd disflow is_init)
     else
       call (EPostprocessV cur_gray score_map prev_gray prev_cfd disflow is_init)
            (postprocess_v cur_gray score_map prev_gray prev_cfd disflow is_init));
  optflow_map ← call (EGaussianBlur optflow_map (3%nat, 3%nat) 0)
                     (GaussianBlur optflow_map (3%nat, 3%nat) 0);
  optflow_map ← call (EThresholdMask optflow_map 0.2 0.8)
                     (threshold_mask optflow_map 0.2 0.8);
  img_matting ← call (EResize optflow_map (height, width))
                     (cv2_resize optflow_map (height, width));
  mret (img_matting, cur_gray, optflow_map).

(** ** [video_segment] *)

(** Lines 277-279 (and 311-313): the matte repeated over three channels
    and blended with a white image, converted to uint8. *)
Definition composite (img_matting frame_org : ndarray) : result ndarray :=
  img_matting ← np_repeat3_newaxis2 img_matting;
  let bg_im := np_scale 255 (np_ones_like img_matting) in
  fg ← np_mul img_matting frame_org;
  bg ← np_mul (np_rsub 1 img_matting) bg_im;
  comb ← np_add fg bg;
  mret (astype_uint8 comb).

(** The text both loops run on a frame they read (lines 254-279 and
    289-313): it yields the new [prev_gray], the new [prev_cfd] and the
    composited frame. *)
Definition frame_step (self : ShufflenetHumanSeg) (use_gpu : bool)
    (resize_w resize_h width height : nat) (disflow : DISOpticalFlow)
    (is_init : bool) (frame_org prev_gray prev_cfd : ndarray)
  : M (ndarray * ndarray * ndarray) :=
  '(cur_gray, score_map) ← frame_forward self use_gpu frame_org resize_w resize_h;
  optflow_map ← call (EPostprocessV cur_gray score_map prev_gray prev_cfd disflow is_init)
                     (postprocess_v cur_gray score_map prev_gray prev_cfd disflow is_init);
  let prev_gray := cur_gray in
  let prev_cfd := optflow_map in
  optflow_map ← call (EGaussianBlur optflow_map (3%nat, 3%nat) 0)
                     (GaussianBlur optflow_map (3%nat, 3%nat) 0);
  optflow_map ← call (EThresholdMask optflow_map 0.2 0.8)
                     (threshold_mask optflow_map 0.2 0.8);
  img_matting ← call (EResize optflow_map (width, height))
                     (cv2_resize optflow_map (width, height));
  comb ← lift (composite img_matting frame_org);
  mret (prev_gray, prev_cfd, comb).

(** [while cap_video.isOpened()] of the branch that writes a file; the
    capture stays open until it is released after the loop, so the loop
    ends when [read] has no frame left. *)
Fixpoint file_loop (self : ShufflenetHumanSeg) (use_gpu : bool)
    (resize_w resize_h width height : nat) (disflow : DISOpticalFlow)
    (is_init : bool) (frames : list ndarray) (prev_gray prev_cfd : ndarray)
  : M unit :=
  match frames with
  | [] => mret tt
  | frame_org :: frames' =>
      '(prev_gray', prev_cfd', comb) ←
        frame_step self use_gpu resize_w resize_h width height disflow is_init
                   frame_org prev_gray prev_cfd;
      _ ← call (EWrite comb) (Ok tt);
      file_loop self use_gpu resize_w resize_h width height disflow is_init
                frames' prev_gray' prev_cfd'
  end.

(** The loop of the camera branch; [n] counts the [cv2.waitKey] calls. *)
Fixpoint camera_loop (self : ShufflenetHumanSeg) (w : world) (use_gpu : bool)
    (resize_w resize_h width height : nat) (disflow : DISOpticalFlow)
    (is_init : bool) (frames : list ndarray) (n : nat) (prev_gray prev_cfd : ndarray)
  : M unit :=
  match frames with
  | [] => mret tt
  | frame_org :: frames' =>
      '(prev_gray', prev_cfd', comb) ←
        frame_step self use_gpu resize_w resize_h width height disflow is_init
                   frame_org prev_gray prev_cfd;
      _ ← call (EImshow "HumanSegmentation" comb) (Ok tt);
      key ← call (EWaitKey n) (Ok (wait_key w n));
      if (Z.land key 255 =? 113)%Z
      then mret tt
      else camera_loop self w use_gpu resize_w resize_h width height disflow is_init
                       frames' (S n) prev_gray' prev_cfd'
  end.

Definition video_segment (self : ShufflenetHumanSeg) (w : world)
    (video_path : option string) (use_gpu : bool) (save_dir : string) : M unit :=
  _ ← require_cuda w use_gpu;
  let resize_h := 192%nat in
  let resize_w := 192%nat in
  let source := match video_path with
                | None | Some EmptyString => None
                | Some p => Some p
                end in
  cap_video ← call (EVideoCapture source) (Ok (open_capture w source));
  _ ← (if negb (cap_isOpened cap_video) then lift (Raise IOError) else mret tt);
  let width := cap_width cap_video in
  let height := cap_height cap_video in
  let disflow := DISOpticalFlow_create DISOPTICAL_FLOW_PRESET_ULTRAFAST in
  let prev_gray := np_zeros [resize_h; resize_w] uint8 in
  let prev_cfd := np_zeros [resize_h; resize_w] float32 in
  let is_init := true in
  let fps := cap_fps cap_video in
  match video_path with
  | Some _ =>
      _ ← call (EPrint "Please wait. It is computing......") (Ok tt);
      _ ← (if negb (path_exists w save_dir)
           then call (EMakedirs save_dir) (Ok tt) else mret tt);
      let save_path := osp_join save_dir "result.avi" in
      _ ← call (EVideoWriter save_path fps (width, height)) (Ok tt);
      _ ← file_loop self use_gpu resize_w resize_h width height disflow is_init
                    (cap_frames cap_video) prev_gray prev_cfd;
      _ ← call (ERelease "cap_video") (Ok tt);
      call (ERelease "cap_out") (Ok tt)
  | None =>
      _ ← camera_loop self w use_gpu resize_w resize_h width height disflow is_init
                      (cap_frames cap_video) 0 prev_gray prev_cfd;
      call (ERelease "cap_video") (Ok tt)
  end.

End Methods.

(** ** The fusion and finalization routines of [optimal.py] *)

(** The confidence scale: scores are probabilities times 255. *)
Definition confidence_scale : Q := 255.

(** Modelled from the spec: [optimal.threshold_mask], which is not among
    the sources.  The spec's MatteFinalizer step 2: values at or below
    [thresh_bg] of the scale map to 0, values at or above [thresh_fg] of
    the scale map to 1, and the values in between go through a ramp; the
    ramp is taken linear. *)
Definition threshold_value (thresh_bg thresh_fg v : Q) : Q :=
  if Qle_bool v (thresh_bg * confidence_scale) then 0
  else if Qle_bool (thresh_fg * confidence_scale) v then 1
  else (v - thresh_bg * confidence_scale) / ((thresh_fg - thresh_bg) * confidence_scale).

(** Modelled from the spec: the error condition of finalize,
    [0 <= thresholdBackground < thresholdForeground <= 1]. *)
Definition thresholds_ok (thresh_bg thresh_fg : Q) : bool :=
  (Qle_bool 0 thresh_bg && negb (Qle_bool thresh_fg thresh_bg) && Qle_bool thresh_fg 1)%bool.

(** Modelled from the spec: [optimal.threshold_mask] on a whole map. *)
Definition threshold_mask_spec (img : ndarray) (thresh_bg thresh_fg : Q) : result ndarray :=
  if thresholds_ok thresh_bg thresh_fg
  then Ok (mk_ndarray float32 (shape img) (map (threshold_value thresh_bg thresh_fg) (data img)))
  else Raise InvalidConfigurationError.

Definition clamp (lo hi x : Q) : Q :=
  if Qle_bool lo x then (if Qle_bool x hi then x else hi) else lo.

(** The parts of the fusion the spec leaves to collaborators or leaves
    open: the optical-flow estimator, the backward warp of the previous
    map along the flow (one value per pixel) and the trust put in the
    warped value as a function of the motion at a pixel. *)
Class FusionParts : Type := {
  estimateFlow : DISOpticalFlow -> ndarray -> ndarray -> list (Q * Q);
  warp_back : ndarray -> list (Q * Q) -> list Q;
  motion_weight : Q * Q -> Q
}.

Fixpoint fuse_pixels (ws warped cur : list Q) : list Q :=
  match ws, warped, cur with
  | w :: ws', p :: warped', c :: cur' =>
      (clamp 0 1 w * p + (1 - clamp 0 1 w) * c)%Q :: fuse_pixels ws' warped' cur'
  | _, _, _ => []
  end.

Definition all_zero (a : ndarray) : bool := forallb (Qeq_bool 0) (data a).

(** Modelled from the spec: [optimal.postprocess_v], which is not among
    the sources; the spec's [fuse].  Gray frames of different dimensions
    are an [InvalidInputError]; on [is_init] (or an all-zero previous
    map) the previous frame contributes nothing and the result is the
    current map; otherwise the warped previous map and the current map
    are blended by the motion weight; the result is clamped to 0..255. *)
Definition fuse `{FusionParts} (cur_gray scoremap prev_gray prev_cfd : ndarray)
    (disflow : DISOpticalFlow) (is_init : bool) : result ndarray :=
  if decide (shape cur_gray = shape prev_gray)
  then
    let fused :=
      if (is_init || all_zero prev_cfd)%bool
      then data scoremap
      else
        let flow := estimateFlow disflow prev_gray cur_gray in
        fuse_pixels (map motion_weight flow) (warp_back prev_cfd flow) (data scoremap) in
    Ok (mk_ndarray (arr_dtype scoremap) (shape scoremap) (map (clamp 0 confidence_scale) fused))
  else Raise InvalidInputError.

(** A backend whose fusion and thresholding are the routines above. *)
Definition with_spec_optimal `{FusionParts} (B : Backend) : Backend :=
  {| reader := @reader B;
     preprocess_v := @preprocess_v B;
     postprocess := @postprocess B;
     postprocess_v := fuse;
     threshold_mask := threshold_mask_spec;
     predictor_run := @predictor_run B;
     cvtColor_BGR2GRAY := @cvtColor_BGR2GRAY B;
     cv2_resize := @cv2_resize B;
     GaussianBlur := @GaussianBlur B |}.

(** ** A small backend to run the module on examples

    Stand-ins for the image kernels, small enough to evaluate: the
    reader yields the images it is given, preprocessing answers with a
    blank 3 x 1 x 1 image, the network with a fixed two-class score on a
    one-pixel map, gray conversion and resizing with a blank image of
    the right size, and blurring keeps the values. *)
Module Example.

Definition pixel (t : dtype) (s : list nat) (v : Q) : ndarray :=
  mk_ndarray t s (repeat v (numel s)).

Definition ex_reader (images : option (list ndarray)) (paths : option (list string))
  : result (list data_item) :=
  Ok (map (fun im => {| image := im; org_im := im;
                        org_im_shape := shape im; org_im_path := "" |})
          (default [] images)).

Definition ex_resize (img : ndarray) (dsize : nat * nat) : result ndarray :=
  let '(w, h) := dsize in
  match shape img with
  | _ :: _ :: rest =>
      if ((0 <? w)%nat && (0 <? h)%nat)%bool
      then Ok (pixel (arr_dtype img) (h :: w :: rest) 0)
      else Raise (ExternalError "cv2.error")
  | _ => Raise (ExternalError "cv2.error")
  end.

Definition ex_gray (img : ndarray) : result ndarray :=
  match shape img with
  | [h; w; _] => Ok (pixel uint8 [h; w] 0)
  | _ => Raise (ExternalError "cv2.error")
  end.

(** The network: class 0 scores [1 - fg], class 1 scores [fg], on a
    1 x 1 map, for each image of the batch. *)
Definition ex_predictor (fg : Q) (p : predictor) (input : ndarray) : result ndarray :=
  match shape input with
  | n :: _ => Ok (mk_ndarray float32 [n; 2; 1; 1]%nat
                    (flat_map (fun _ => [1 - fg; fg]%Q) (seq 0 n)))
  | [] => Raise (ExternalError "paddle")
  end.

Definition backend (fg : Q) : Backend :=
  {| reader := ex_reader;
     preprocess_v := fun frame w h => Ok (mk_ndarray float32 [3; 1; 1]%nat [0; 0; 0]%Q);
     postprocess := fun data_out org _ _ _ _ => Ok {| save_path := None; res_data := data_out |};
     postprocess_v := fun cur_gray scoremap _ _ _ _ => Ok scoremap;
     threshold_mask := threshold_mask_spec;
     predictor_run := ex_predictor fg;
     cvtColor_BGR2GRAY := ex_gray;
     cv2_resize := ex_resize;
     GaussianBlur := fun img _ _ => Ok img |}.

#[export] Instance parts : FusionParts :=
  {| estimateFlow := fun _ _ cur => map (fun _ => (0, 0)%Q) (data cur);
     warp_back := fun prev _ => data prev;
     motion_weight := fun d => (1 / (1 + fst d * fst d + snd d * snd d))%Q |}.

Definition the_world (env : gmap string string) (frames : list ndarray) : world :=
  {| environ := env;
     path_exists := fun _ => true;
     open_capture := fun _ => {| cap_isOpened := true; cap_width := 2; cap_height := 1;
                                 cap_fps := 25%Q; cap_frames := frames |};
     wait_key := fun _ => (-1)%Z |}.

(** A 1 x 2 colour frame. *)
Definition frame (v : Q) : ndarray := mk_ndarray uint8 [1; 2; 3]%nat [v; v; v; v; v; v].

End Example.

(** ** Vocabulary of the statements *)

(** [CUDA_VISIBLE_DEVICES] is unset, or its first character is not a
    decimal digit. *)
Definition cuda_unusable (w : world) : Prop :=
  environ w !! "CUDA_VISIBLE_DEVICES" = None \/
  exists c s, environ w !! "CUDA_VISIBLE_DEVICES" = Some (String c s) /\
              is_decimal_digit c = false.

(** The blend of one matte value with one frame value, as [composite]
    computes it before the conversion to uint8. *)
Definition blend (m p : Q) : Q := (m * p + (1 - m) * (255 * 1))%Q.

(** The same blend as the float32 arithmetic of [composite] evaluates
    it: the two products, the difference and the sum are each rounded. *)
Definition blend_float32 (m p : Q) : Q :=
  round_float32 (round_float32 (m * p)
                 + round_float32 (round_float32 (1 - m) * round_float32 (255 * 1))).

(** From this batch size on, the quotient of one image by the batch size
    underflows. *)
Definition underflow_batch_size : Z := 2 ^ 1075.

(** Up to this number every integer is a binary64 number. *)
Definition float64_exact_bound : Z := 2 ^ 53.

(** The images handed to [postprocess], in the order of the calls. *)
Definition postprocessed (log : list event) : list (ndarray * string) :=
  flat_map (fun ev => match ev with
                      | EPostprocess _ org _ path _ _ => [(org, path)]
                      | _ => []
                      end) log.

(** What identifies an input image in a call of [postprocess]. *)
Definition image_key (d : data_item) : ndarray * string := (org_im d, org_im_path d).

(** The inference engine answers a batch of [n] images with [n] score
    maps of at least two classes. *)
Definition predictor_answers_batches (B : Backend) (p : predictor) : Prop :=
  forall x n s, shape x = n :: s ->
    exists out c h w rest,
      @predictor_run B p x = Ok out /\ shape out = n :: c :: h :: w :: rest /\ (2 <= c)%nat.

(** [postprocess] never raises. *)
Definition postprocess_total (B : Backend) : Prop :=
  forall data_out org org_shape org_path output_dir visualization,
    exists r, @postprocess B data_out org org_shape org_path output_dir visualization = Ok r.

(** [r] is what [postprocess] returned for the input image [d]. *)
Definition result_of `{Backend} (output_dir : string) (visualization : bool)
    (d : data_item) (r : res_dict) : Prop :=
  exists data_out,
    postprocess data_out (org_im d) (org_im_shape d) (org_im_path d)
                output_dir visualization = Ok r.

(** The flow estimator both video entry points create. *)
Definition the_disflow : DISOpticalFlow :=
  DISOpticalFlow_create DISOPTICAL_FLOW_PRESET_ULTRAFAST.

(** The previous-frame array [video_stream_segment] hands to the fusion:
    a fresh all-zero 192 x 192 array on frame 1, the caller's array on
    any other frame. *)
Definition stream_prev (frame_id : Z) (supplied : ndarray) (t : dtype) : ndarray :=
  if (frame_id =? 1)%Z then np_zeros [192; 192]%nat t else supplied.

(** The calls of the forward pass. *)
Definition forward_event (ev : event) : bool :=
  match ev with
  | EPreprocessV _ _ _ | EPredictorRun _ _ | ECvtColorBGR2GRAY _ | EResize _ _ => true
  | _ => false
  end.

(** The four calls that follow the forward pass of a frame: the fusion,
    the blur of its result, the thresholding of the blurred map and the
    resize of the thresholded map. *)
Definition finalize_events (cur_gray score_map prev_gray prev_cfd : ndarray)
    (disflow : DISOpticalFlow) (is_init : bool)
    (fused blurred thresholded : ndarray) (dsize : nat * nat) : list event :=
  [ EPostprocessV cur_gray score_map prev_gray prev_cfd disflow is_init;
    EGaussianBlur fused (3%nat, 3%nat) 0;
    EThresholdMask blurred 0.2 0.8;
    EResize thresholded dsize ].

(** What is assumed of [cv2.resize]: asked for [dsize = (w, h)], it
    answers with an image of [h] rows and [w] columns. *)
Definition resize_shape_law (B : Backend) : Prop :=
  forall img w h r, @cv2_resize B img (w, h) = Ok r -> exists rest, shape r = h :: w :: rest.

(** A map whose values lie on the confidence scale. *)
Definition on_scale (a : ndarray) : Prop :=
  Forall (fun x => (0 <= x)%Q /\ (x <= confidence_scale)%Q) (data a).

(** ** Vocabulary of the further properties *)

(** The number of images in each batch handed to the inference engine,
    in the order of the runs. *)
Definition batch_sizes (log : list event) : list nat :=
  flat_map (fun ev => match ev with
                      | EPredictorRun _ x => [hd 0%nat (shape x)]
                      | _ => []
                      end) log.

(** The frames handed to [cap_out.write], in order. *)
Definition written (log : list event) : list ndarray :=
  flat_map (fun ev => match ev with EWrite f => [f] | _ => [] end) log.

(** The frames handed to [cv2.imshow], in order. *)
Definition shown (log : list event) : list ndarray :=
  flat_map (fun ev => match ev with EImshow _ f => [f] | _ => [] end) log.

Definition is_release (ev : event) : bool :=
  match ev with ERelease _ => true | _ => false end.

(** The calls that only the branch writing a file makes. *)
Definition file_event (ev : event) : bool :=
  match ev with
  | EPrint _ | EMakedirs _ | EVideoWriter _ _ _ | EWrite _ => true
  | _ => false
  end.

(** The calls that only the camera branch makes. *)
Definition screen_event (ev : event) : bool :=
  match ev with EImshow _ _ | EWaitKey _ => true | _ => false end.

(** The calls made while one frame is processed. *)
Definition frame_event (ev : event) : bool :=
  match ev with
  | EPreprocessV _ _ _ | EPredictorRun _ _ | ECvtColorBGR2GRAY _ | EResize _ _
  | EPostprocessV _ _ _ _ _ _ | EGaussianBlur _ _ _ | EThresholdMask _ _ _ => true
  | _ => false
  end.

(** [cv2.waitKey(1) & 0xFF == ord('q')] *)
Definition quit_key (key : Z) : bool := (Z.land key 255 =? 113)%Z.

(** The arguments of the fusion calls, in order: current gray frame,
    score map, previous gray frame, previous confidence map. *)
Definition fusion_calls (log : list event) : list (ndarray * ndarray * ndarray * ndarray) :=
  flat_map (fun ev => match ev with
                      | EPostprocessV cg sm pg pc _ _ => [(cg, sm, pg, pc)]
                      | _ => []
                      end) log.

(** A sequence of fusion calls that starts from the state [(pg, pc)] and
    hands to each call the gray frame and the fused map of the call
    before it; a call that raises is the last one. *)
Fixpoint threaded `{Backend} (disflow : DISOpticalFlow) (is_init : bool)
    (pg pc : ndarray) (calls : list (ndarray * ndarray * ndarray * ndarray)) : Prop :=
  match calls with
  | [] => True
  | (cg, sm, pg', pc') :: rest =>
      pg' = pg /\ pc' = pc /\
      match postprocess_v cg sm pg' pc' disflow is_init with
      | Ok fused => threaded disflow is_init cg fused rest
      | Raise _ => rest = []
      end
  end.

(** The source [video_segment] opens for a given [video_path]. *)
Definition capture_source (video_path : option string) : option string :=
  match video_path with
  | None | Some EmptyString => None
  | Some p => Some p
  end.

(** What the branch of [video_segment] that writes a file calls before
    its loop: the notice, the creation of a missing output directory and
    the video writer. *)
Definition file_head (w : world) (save_dir : string) (cap : VideoCapture) : list event :=
  EPrint "Please wait. It is computing......"
  :: (if negb (path_exists w save_dir) then [EMakedirs save_dir] else [])
  ++ [EVideoWriter (osp_join save_dir "result.avi") (cap_fps cap)
        (cap_width cap, cap_height cap)].

(** What is released after a loop that ended without raising. *)
Definition releases (r : result unit) (what : list string) : list event :=
  match r with
  | Ok _ => map ERelease what
  | Raise _ => []
  end.

(** [comb] is a composite of the frame [frame_org]. *)
Definition composite_of (frame_org comb : ndarray) : Prop :=
  exists img_matting, composite img_matting frame_org = Ok comb.

(** ** [serving_method] *)

(** processor.py: the base64 codecs of the service. *)
Class Codec : Type := {
  base64_to_cv2 : string -> result ndarray;
  cv2_to_base64 : ndarray -> result string
}.

(** [[f(x) for x in l]] where [f] may raise. *)
Fixpoint result_map {A C} (f : A -> result C) (l : list A) : result (list C) :=
  match l with
  | [] => Ok []
  | x :: l' => y ← f x; ys ← result_map f l'; mret (y :: ys)
  end.

(** The keyword arguments a request can pass on to [segment]; one that is
    absent takes the default of [segment]'s signature.  (A keyword that
    [segment] does not have, or [images] itself, is a [TypeError] of the
    call and is not among the requests modelled.) *)
Record segment_kwargs : Type := {
  kw_paths : option (list string);
  kw_batch_size : option Z;
  kw_use_gpu : option bool;
  kw_visualization : option bool;
  kw_output_dir : option string
}.

Definition no_kwargs : segment_kwargs :=
  {| kw_paths := None; kw_batch_size := None; kw_use_gpu := None;
     kw_visualization := None; kw_output_dir := None |}.

(** An entry of the list the service returns: a dictionary with the
    single key 'data'. *)
Record served : Type := { served_data : string }.

Definition serving_method `{Backend} `{Codec} (self : ShufflenetHumanSeg) (w : world)
    (images : list string) (kwargs : segment_kwargs) : M (list served) :=
  images_decode ← lift (result_map base64_to_cv2 images);
  results ← segment self w (Some images_decode) (kw_paths kwargs)
              (default 1%Z (kw_batch_size kwargs))
              (default false (kw_use_gpu kwargs))
              (default false (kw_visualization kwargs))
              (default "humanseg_lite_output" (kw_output_dir kwargs));
  lift (result_map (fun result => data ← cv2_to_base64 (res_data result);
                                  mret {| served_data := data |})
                   results).

(** What is assumed of [reader] in a statement about the service: given
    images and no paths, it yields one item per image. *)
Definition reader_yields_each_image (B : Backend) : Prop :=
  forall imgs all_data,
    @reader B (Some imgs) None = Ok all_data -> length all_data = length imgs.

(** A codec to run the service on examples: the empty string does not
    decode, any other string decodes to a 1 x 2 colour frame, and every
    image encodes to the same text. *)
Module ExampleService.

Definition codec : Codec :=
  {| base64_to_cv2 := fun s => match s with
                               | EmptyString => Raise ValueError
                               | _ => Ok (Example.frame (inject_Z (Z.of_nat (String.length s))))
                               end;
     cv2_to_base64 := fun _ => Ok "aGk=" |}.

End ExampleService.

(** * Properties *)

(** ** The monad *)

Lemma bind_Ok_inv {A C} (m : M A) (f : A -> M C) (log : list event) (c : C) :
  m ≫= f = (log, Ok c) ->
  exists l1 a l2, m = (l1, Ok a) /\ f a = (l2, Ok c) /\ log = l1 ++ l2.
Proof.
  destruct m as [l1 [a|e]]; unfold mbind, M_bind.
  - destruct (f a) as [l2 r] eqn:Hf. intros [= <- ->]. eauto 6.
  - intros [= _ ?].
Qed.

Lemma bind_log_In {A C} (m : M A) (f : A -> M C) (ev : event) :
  In ev (fst (m ≫= f)) ->
  In ev (fst m) \/ exists l a, m = (l, Ok a) /\ In ev (fst (f a)).
Proof.
  destruct m as [l1 [a|e]]; unfold mbind, M_bind; simpl.
  - destruct (f a) as [l2 r] eqn:Hf. simpl. rewrite in_app_iff.
    intros [H|H]; [now left|right]. exists l1, a. rewrite Hf. auto.
  - auto.
Qed.

(** ** Hysteresis thresholding *)

Lemma Qle_bool_false (x y : Q) : Qle_bool x y = false <-> (y < x)%Q.
Proof.
  split; intros H.
  - apply Qnot_le_lt. intros Hle. apply Qle_bool_iff in Hle. congruence.
  - destruct (Qle_bool x y) eqn:E; [|reflexivity].
    apply Qle_bool_iff in E. apply Qle_not_lt in E. contradiction.
Qed.

Ltac case_Qle :=
  match goal with
  | |- context [Qle_bool ?x ?y] =>
      let E := fresh "E" in
      destruct (Qle_bool x y) eqn:E;
      [apply Qle_bool_iff in E | apply Qle_bool_false in E]
  end.

(** Linear arithmetic with the ramp's constant divisor made explicit. *)
Ltac solve_ramp :=
  unfold Qdiv; change (/ ((0.8 - 0.2) * 255))%Q with (100 # 15300)%Q; lra.

Lemma threshold_value_ramp (v : Q) :
  (0.2 * confidence_scale < v)%Q -> (v < 0.8 * confidence_scale)%Q ->
  threshold_value 0.2 0.8 v = ((v - 0.2 * confidence_scale) / ((0.8 - 0.2) * confidence_scale))%Q.
Proof.
  intros H1 H2. unfold threshold_value.
  repeat case_Qle; try reflexivity; exfalso; unfold confidence_scale in *; lra.
Qed.

(** C4. With thresholds 0.2 and 0.8, a confidence [v] at or below 0.2 of
    the scale maps to 0, one at or above 0.8 of the scale maps to 1, one
    strictly in between maps strictly between 0 and 1, and the map is
    monotonically non-decreasing. *)
Theorem threshold_value_hysteresis (v : Q) :
  ((v <= 0.2 * confidence_scale -> threshold_value 0.2 0.8 v == 0) /\
   (0.8 * confidence_scale <= v -> threshold_value 0.2 0.8 v == 1) /\
   (0.2 * confidence_scale < v < 0.8 * confidence_scale ->
      0 < threshold_value 0.2 0.8 v < 1) /\
   (forall v', v <= v' -> threshold_value 0.2 0.8 v <= threshold_value 0.2 0.8 v'))%Q.
Proof.
  repeat split.
  - intros H. unfold threshold_value. repeat case_Qle; try reflexivity;
      unfold confidence_scale in *; lra.
  - intros H. unfold threshold_value. repeat case_Qle; try reflexivity;
      unfold confidence_scale in *; lra.
  - destruct H as [H1 H2]. rewrite threshold_value_ramp by assumption.
    unfold confidence_scale in *. solve_ramp.
  - destruct H as [H1 H2]. rewrite threshold_value_ramp by assumption.
    unfold confidence_scale in *. solve_ramp.
  - intros v' H. unfold threshold_value.
    repeat case_Qle; unfold confidence_scale in *; solve_ramp.
Qed.

Lemma threshold_value_hysteresis_witness :
  (threshold_value 0.2 0.8 40 == 0 /\ threshold_value 0.2 0.8 230 == 1 /\
   0 < threshold_value 0.2 0.8 100 < 1 /\
   threshold_value 0.2 0.8 100 <= threshold_value 0.2 0.8 200)%Q.
Proof.
  split; [|split; [|split]].
  - apply (proj1 (threshold_value_hysteresis 40)). vm_compute. discriminate.
  - apply (proj1 (proj2 (threshold_value_hysteresis 230))). vm_compute. discriminate.
  - apply (proj1 (proj2 (proj2 (threshold_value_hysteresis 100)))).
    split; vm_compute; reflexivity.
  - apply (proj2 (proj2 (proj2 (threshold_value_hysteresis 100)))).
    vm_compute. discriminate.
Defined.

(** On a whole map, [threshold_mask] applies the value map to every
    pixel and keeps the shape. *)
Lemma threshold_mask_spec_pixels (img : ndarray) :
  threshold_mask_spec img 0.2 0.8 =
  Ok (mk_ndarray float32 (shape img) (map (threshold_value 0.2 0.8) (data img))).
Proof. reflexivity. Qed.

(** ** Binary floating point *)

Lemma pow2_pos (k : Z) : (0 < pow2 k)%Q.
Proof. apply Qpower_0_lt. reflexivity. Qed.

Lemma pow2_add (a b : Z) : (pow2 (a + b) == pow2 a * pow2 b)%Q.
Proof. apply Qpower_plus. discriminate. Qed.

Lemma pow2_le (a b : Z) : (a <= b)%Z -> (pow2 a <= pow2 b)%Q.
Proof. intros H. apply Qpower_le_compat_l; [assumption | discriminate]. Qed.

Lemma pow2_lt (a b : Z) : (a < b)%Z -> (pow2 a < pow2 b)%Q.
Proof. intros H. apply Qpower_lt_compat_l; [assumption | reflexivity]. Qed.

Lemma pow2_lt_inv (a b : Z) : (pow2 a < pow2 b)%Q -> (a < b)%Z.
Proof. intros H. apply (Qpower_lt_compat_l_inv 2); [assumption | reflexivity]. Qed.

Lemma pow2_inject (n : Z) : (0 <= n)%Z -> (inject_Z (2 ^ n) == pow2 n)%Q.
Proof. intros H. apply Zpower_Qpower. assumption. Qed.

(** The bit length brackets a positive integer. *)
Lemma pow2_log2 (a : Z) :
  (0 < a)%Z ->
  (pow2 (Z.log2 a) <= inject_Z a)%Q /\ (inject_Z a < pow2 (Z.log2 a + 1))%Q.
Proof.
  intros Ha. destruct (Z.log2_spec a Ha) as [Hlo Hhi].
  pose proof (Z.log2_nonneg a) as Hn.
  rewrite <- !pow2_inject by lia. rewrite <- Zle_Qle, <- Zlt_Qlt.
  split; [assumption|]. replace (Z.log2 a + 1)%Z with (Z.succ (Z.log2 a)) by lia.
  assumption.
Qed.

(** [binade x] is the binade of [x]. *)
Lemma binade_spec (x : Q) :
  ~ (x == 0)%Q ->
  (pow2 (binade x) <= Qabs x)%Q /\ (Qabs x < pow2 (binade x + 1))%Q.
Proof.
  intros Hx. destruct x as [n d].
  assert (Hn : (0 < Z.abs n)%Z).
  { destruct n; [exfalso; apply Hx; reflexivity | lia | lia]. }
  unfold binade. cbn [Qnum Qden].
  set (la := Z.log2 (Z.abs n)). set (lb := Z.log2 (Z.pos d)).
  destruct (pow2_log2 (Z.abs n) Hn) as [Ha1 Ha2].
  destruct (pow2_log2 (Z.pos d) eq_refl) as [Hb1 Hb2].
  fold la in Ha1, Ha2. fold lb in Hb1, Hb2.
  assert (Habs : (Qabs (n # d) == inject_Z (Z.abs n) / inject_Z (Z.pos d))%Q).
  { change (Qabs (n # d)) with (Z.abs n # d). apply Qmake_Qdiv. }
  assert (Hd : (0 < inject_Z (Z.pos d))%Q) by reflexivity.
  assert (Hup : (Qabs (n # d) < pow2 (la - lb + 1))%Q).
  { rewrite Habs. apply Qlt_shift_div_r; [assumption|].
    eapply Qlt_le_trans; [exact Ha2|].
    replace (la + 1)%Z with ((la - lb + 1) + lb)%Z by lia.
    rewrite pow2_add. apply Qmult_le_l; [apply pow2_pos | assumption]. }
  assert (Hlo : (pow2 (la - lb - 1) <= Qabs (n # d))%Q).
  { rewrite Habs. apply Qle_shift_div_l; [assumption|].
    eapply Qle_trans; [|exact Ha1].
    replace la with ((la - lb - 1) + (lb + 1))%Z at 2 by lia.
    rewrite pow2_add. apply Qmult_le_l; [apply pow2_pos|].
    apply Qlt_le_weak. assumption. }
  destruct (Qle_bool (pow2 (la - lb)) (Qabs (n # d))) eqn:E.
  - apply Qle_bool_iff in E. split; assumption.
  - assert (E' : ~ (pow2 (la - lb) <= Qabs (n # d))%Q).
    { intros H. apply Qle_bool_iff in H. congruence. }
    apply Qnot_le_lt in E'. split; [assumption|].
    replace (la - lb - 1 + 1)%Z with (la - lb)%Z by lia. assumption.
Qed.

Lemma binade_lt (x : Q) (e : Z) :
  ~ (x == 0)%Q -> (Qabs x < pow2 e)%Q -> (binade x < e)%Z.
Proof.
  intros Hx H. destruct (binade_spec x Hx) as [Hlo _].
  apply pow2_lt_inv. eapply Qle_lt_trans; eassumption.
Qed.

Lemma binade_ge (x : Q) (e : Z) :
  ~ (x == 0)%Q -> (pow2 e <= Qabs x)%Q -> (e <= binade x)%Z.
Proof.
  intros Hx H. destruct (binade_spec x Hx) as [_ Hhi].
  assert (e < binade x + 1)%Z; [|lia].
  apply pow2_lt_inv. eapply Qle_lt_trans; eassumption.
Qed.

Lemma round_half_even_comp (x y : Q) :
  (x == y)%Q -> round_half_even x = round_half_even y.
Proof.
  intros H. unfold round_half_even. rewrite (Qfloor_comp _ _ H).
  assert (E : (x - inject_Z (Qfloor y) ?= 1 # 2)%Q = (y - inject_Z (Qfloor y) ?= 1 # 2)%Q).
  { apply Qcompare_comp; [rewrite H|]; reflexivity. }
  rewrite E. reflexivity.
Qed.

(** The nearest integer is within one half. *)
Lemma round_half_even_near (y : Q) :
  (Qabs (inject_Z (round_half_even y) - y) <= 1 # 2)%Q.
Proof.
  unfold round_half_even.
  pose proof (Qfloor_le y) as Hlo. pose proof (Qlt_floor y) as Hhi.
  rewrite inject_Z_plus in Hhi. change (inject_Z 1) with 1%Q in Hhi.
  apply Qabs_Qle_condition.
  destruct (Qcompare_spec (y - inject_Z (Qfloor y)) (1 # 2)) as [E|E|E].
  - destruct (Z.even (Qfloor y)); rewrite ?inject_Z_plus;
      change (inject_Z 1) with 1%Q; split; lra.
  - split; lra.
  - rewrite inject_Z_plus. change (inject_Z 1) with 1%Q. split; lra.
Qed.

(** It lies between the floor and the floor plus one. *)
Lemma round_half_even_floor (y : Q) :
  (Qfloor y <= round_half_even y <= Qfloor y + 1)%Z.
Proof.
  unfold round_half_even.
  destruct (y - inject_Z (Qfloor y) ?= 1 # 2)%Q; [destruct (Z.even _)| |]; lia.
Qed.

Lemma round_half_even_Z (z : Z) : round_half_even (inject_Z z) = z.
Proof.
  unfold round_half_even. rewrite Qfloor_Z.
  assert (E : (inject_Z z - inject_Z z ?= 1 # 2)%Q = Lt).
  { apply Qlt_alt. unfold Qminus. rewrite Qplus_opp_r. reflexivity. }
  rewrite E. reflexivity.
Qed.

Lemma round_binary_comp (prec qmin : Z) (x y : Q) :
  (x == y)%Q -> round_binary prec qmin x = round_binary prec qmin y.
Proof. intros H. unfold round_binary. rewrite (Qred_complete _ _ H). reflexivity. Qed.

Lemma round_binary_zero (prec qmin : Z) (x : Q) :
  (x == 0)%Q -> round_binary prec qmin x = 0%Q.
Proof. intros H. rewrite (round_binary_comp _ _ _ _ H). reflexivity. Qed.

Lemma round_binary_value (prec qmin : Z) (x : Q) :
  ~ (x == 0)%Q ->
  (round_binary prec qmin x
   == inject_Z (round_half_even (x / spacing prec qmin (Qred x)))
      * spacing prec qmin (Qred x))%Q.
Proof.
  intros Hx. unfold round_binary.
  destruct (Qeq_bool (Qred x) 0) eqn:E.
  - exfalso. apply Hx. apply Qeq_bool_eq in E. rewrite <- E. symmetry. apply Qred_correct.
  - etransitivity; [apply Qred_correct|].
    rewrite (round_half_even_comp (Qred x / _) (x / spacing prec qmin (Qred x))).
    + reflexivity.
    + apply Qmult_comp; [apply Qred_correct | reflexivity].
Qed.

Lemma spacing_pos (prec qmin : Z) (x : Q) : (0 < spacing prec qmin x)%Q.
Proof. apply pow2_pos. Qed.

(** Rounding moves a number by at most half the spacing of its binade. *)
Lemma round_binary_error (prec qmin : Z) (x : Q) :
  (Qabs (round_binary prec qmin x - x) <= (1 # 2) * spacing prec qmin (Qred x))%Q.
Proof.
  pose proof (spacing_pos prec qmin (Qred x)) as Hs.
  destruct (Qeq_dec x 0) as [E|E].
  - rewrite (round_binary_zero _ _ _ E).
    assert (H0 : (Qabs (0 - x) == 0)%Q) by (rewrite E; reflexivity).
    rewrite H0. lra.
  - rewrite (round_binary_value _ _ _ E).
    set (s := spacing prec qmin (Qred x)) in *.
    pose proof (round_half_even_near (x / s)) as Hn.
    set (r := inject_Z (round_half_even (x / s))) in *.
    assert (Hx : (x == x / s * s)%Q) by (field; lra).
    apply Qabs_Qle_condition in Hn. apply Qabs_Qle_condition.
    assert (H1 : ((r - x / s) * s <= (1 # 2) * s)%Q)
      by (apply Qmult_le_compat_r; lra).
    assert (H2 : (- (1 # 2) * s <= (r - x / s) * s)%Q)
      by (apply Qmult_le_compat_r; lra).
    assert (H3 : ((r - x / s) * s == r * s - x)%Q) by (field; lra).
    rewrite H3 in H1, H2. split; lra.
Qed.

Lemma round_binary_nonneg (prec qmin : Z) (x : Q) :
  (0 <= x)%Q -> (0 <= round_binary prec qmin x)%Q.
Proof.
  intros H0. destruct (Qeq_dec x 0) as [E|E].
  - rewrite (round_binary_zero _ _ _ E). lra.
  - rewrite (round_binary_value _ _ _ E).
    pose proof (spacing_pos prec qmin (Qred x)) as Hs.
    apply Qmult_le_0_compat; [|lra].
    change 0%Q with (inject_Z 0). rewrite <- Zle_Qle.
    pose proof (round_half_even_floor (x / spacing prec qmin (Qred x))) as [Hf _].
    assert (0 <= Qfloor (x / spacing prec qmin (Qred x)))%Z; [|lia].
    change 0%Z with (Qfloor 0). apply Qfloor_resp_le.
    apply Qle_shift_div_l; lra.
Qed.

Lemma spacing_le (prec qmin : Z) (x : Q) (e : Z) :
  ~ (x == 0)%Q -> (Qabs x < pow2 e)%Q -> (qmin <= e - prec)%Z ->
  (spacing prec qmin (Qred x) <= pow2 (e - prec))%Q.
Proof.
  intros Hx Hlt Hq. unfold spacing. apply pow2_le.
  assert (binade (Qred x) < e)%Z; [|lia].
  apply binade_lt.
  - rewrite Qred_correct. assumption.
  - rewrite Qred_correct. assumption.
Qed.

(** Below 256 a float32 rounding moves a number by at most 2^-17. *)
Lemma round_float32_near (x : Q) :
  (Qabs x < 256)%Q -> (Qabs (round_float32 x - x) <= 1 # 131072)%Q.
Proof.
  intros H. destruct (Qeq_dec x 0) as [E|E].
  - unfold round_float32. rewrite (round_binary_zero _ _ _ E).
    assert (H0 : (Qabs (0 - x) == 0)%Q) by (rewrite E; reflexivity).
    rewrite H0. discriminate.
  - eapply Qle_trans; [apply round_binary_error|].
    pose proof (spacing_le 24 (-149) x 8 E H ltac:(lia)) as Hs.
    change (pow2 (8 - 24)) with (1 # 65536)%Q in Hs. lra.
Qed.

Lemma round_half_even_le_int (y : Q) (K : Z) :
  (y <= inject_Z K)%Q -> (round_half_even y <= K)%Z.
Proof.
  intros H. destruct (Qlt_le_dec y (inject_Z K)) as [Hlt|Hge].
  - assert (Qfloor y < K)%Z.
    { rewrite Zlt_Qlt. eapply Qle_lt_trans; [apply Qfloor_le | exact Hlt]. }
    pose proof (round_half_even_floor y). lia.
  - assert (Heq : (y == inject_Z K)%Q) by (apply Qle_antisym; assumption).
    rewrite (round_half_even_comp _ _ Heq), round_half_even_Z. lia.
Qed.

Lemma round_half_even_gt_int (y : Q) (K : Z) :
  ((1 # 2) < y - inject_Z K)%Q -> (K < round_half_even y)%Z.
Proof.
  intros H. assert (HK : (K <= Qfloor y)%Z).
  { rewrite <- (Qfloor_Z K). apply Qfloor_resp_le. lra. }
  pose proof (round_half_even_floor y) as [Hf _].
  destruct (Z.eq_dec (Qfloor y) K) as [E|E]; [|lia].
  unfold round_half_even. rewrite E.
  assert (C : (y - inject_Z K ?= 1 # 2)%Q = Gt) by (apply Qgt_alt; exact H).
  rewrite C. lia.
Qed.

Lemma round_half_even_small (y : Q) :
  (0 <= y)%Q -> (y <= 1 # 2)%Q -> round_half_even y = 0%Z.
Proof.
  intros H0 H1.
  assert (Hf : Qfloor y = 0%Z).
  { pose proof (Qfloor_le y). pose proof (Qlt_floor y) as Hlt.
    assert (0 <= Qfloor y)%Z by (change 0%Z with (Qfloor 0); apply Qfloor_resp_le; assumption).
    assert (Qfloor y < 1)%Z; [|lia].
    rewrite Zlt_Qlt. eapply Qle_lt_trans; [apply Qfloor_le|]. change (inject_Z 1) with 1%Q. lra. }
  unfold round_half_even. rewrite Hf.
  destruct (Qcompare_spec (y - inject_Z 0) (1 # 2)) as [E|E|E]; try reflexivity.
  exfalso. change (inject_Z 0) with 0%Q in E. lra.
Qed.

Lemma pow2_opp (k : Z) : (pow2 (- k) * pow2 k == 1)%Q.
Proof. rewrite <- pow2_add. replace (- k + k)%Z with 0%Z by lia. reflexivity. Qed.

(** With a spacing of at most 1, every integer is a multiple of it. *)
Lemma int_multiple (E k : Z) :
  (E <= 0)%Z -> (inject_Z (k * 2 ^ (- E)) * pow2 E == inject_Z k)%Q.
Proof.
  intros HE. rewrite inject_Z_mult, pow2_inject by lia.
  rewrite <- Qmult_assoc, pow2_opp. ring.
Qed.

(** Rounding [q] to a multiple of a spacing [2^E <= 1] keeps its ceiling
    [k], provided [q] is more than half a spacing above [k - 1]. *)
Lemma ceiling_round_multiple (q : Q) (E k : Z) :
  (E <= 0)%Z -> (q <= inject_Z k)%Q ->
  (pow2 E * (1 # 2) < q - inject_Z (k - 1))%Q ->
  Qceiling (inject_Z (round_half_even (q / pow2 E)) * pow2 E) = k.
Proof.
  intros HE Hle Hgap.
  pose proof (pow2_pos E) as Hs. set (s := pow2 E) in *.
  set (y := (q / s)%Q).
  assert (Hy : (y * s == q)%Q) by (unfold y; field; lra).
  pose proof (int_multiple E k HE) as Hk. fold s in Hk.
  pose proof (int_multiple E (k - 1) HE) as Hk1. fold s in Hk1.
  set (T := (2 ^ (- E))%Z) in *.
  assert (Hup : (round_half_even y <= k * T)%Z).
  { apply round_half_even_le_int. apply (Qmult_le_r _ _ s Hs). rewrite Hy, Hk. exact Hle. }
  assert (Hlo : ((k - 1) * T < round_half_even y)%Z).
  { apply round_half_even_gt_int. apply (Qmult_lt_r _ _ s Hs).
    assert (Hexp : ((y - inject_Z ((k - 1) * T)) * s == q - inject_Z (k - 1))%Q).
    { rewrite <- Hk1, <- Hy. ring. }
    rewrite Hexp. rewrite (Qmult_comm (1 # 2) s). exact Hgap. }
  set (N := round_half_even y) in *.
  assert (Hr1 : (inject_Z N * s <= inject_Z k)%Q).
  { rewrite <- Hk. apply Qmult_le_compat_r; [|lra]. rewrite <- Zle_Qle. exact Hup. }
  assert (Hr2 : (inject_Z (k - 1) < inject_Z N * s)%Q).
  { apply Qlt_le_trans with (inject_Z ((k - 1) * T + 1) * s)%Q.
    - rewrite inject_Z_plus, Qmult_plus_distr_l, Hk1. change (inject_Z 1) with 1%Q. lra.
    - apply Qmult_le_compat_r; [|lra]. rewrite <- Zle_Qle. lia. }
  assert (H1 : (Qceiling (inject_Z N * s) <= k)%Z).
  { rewrite <- (Qceiling_Z k). apply Qceiling_resp_le. exact Hr1. }
  assert (H2 : (k - 1 < Qceiling (inject_Z N * s))%Z).
  { rewrite Zlt_Qlt. eapply Qlt_le_trans; [exact Hr2 | apply Qle_ceiling]. }
  lia.
Qed.

Lemma Qmake_mult_den (n : Z) (p : positive) :
  ((n # p) * inject_Z (Z.pos p) == inject_Z n)%Q.
Proof. unfold Qeq, Qmult, inject_Z. cbn [Qnum Qden]. rewrite Pos.mul_1_r. lia. Qed.

Lemma Qabs_Qmake_le (n : Z) (p : positive) : (Qabs (n # p) <= inject_Z (Z.abs n))%Q.
Proof.
  change (Qabs (n # p)) with (Z.abs n # p). unfold Qle, inject_Z. cbn [Qnum Qden].
  nia.
Qed.

Lemma inject_Z_sub (a b : Z) : (inject_Z (a - b) == inject_Z a - inject_Z b)%Q.
Proof. unfold Z.sub. rewrite inject_Z_plus, inject_Z_opp. reflexivity. Qed.

Lemma pow2_half (k : Z) : (pow2 k * (1 # 2) == pow2 (k - 1))%Q.
Proof.
  replace (k - 1)%Z with (k + -1)%Z by lia. rewrite pow2_add. reflexivity.
Qed.

Lemma underflows_float64_true (q : Q) :
  underflows_float64 q = true -> (0 < q)%Q /\ (q <= pow2 (-1075))%Q.
Proof.
  unfold underflows_float64. intros H. apply andb_prop in H as [H0 H1].
  split; [|apply Qle_bool_iff; assumption].
  apply Qnot_le_lt. intros H. apply Qle_bool_iff in H. rewrite H in H0. discriminate.
Qed.

Lemma underflows_float64_false (q : Q) :
  underflows_float64 q = false -> (q <= 0)%Q \/ (pow2 (-1075) < q)%Q.
Proof.
  unfold underflows_float64. intros H. apply andb_false_iff in H as [H|H].
  - left. apply Qle_bool_iff. destruct (Qle_bool q 0); [reflexivity | discriminate].
  - right. apply Qnot_le_lt. intros H'. apply Qle_bool_iff in H'. congruence.
Qed.

(** The ceiling of a quotient rounded to binary64, for a numerator below
    2^53: that of the exact quotient, unless the quotient underflows. *)
Lemma ceiling_round_float64 (n : Z) (p : positive) :
  (Z.abs n < 2 ^ 53)%Z ->
  Qceiling (round_float64 (n # p))
  = if underflows_float64 (n # p) then 0%Z else Qceiling (n # p).
Proof.
  intros Hn. set (q := n # p).
  destruct (Qeq_dec q 0) as [Hz|Hnz].
  { unfold round_float64. rewrite (round_binary_zero _ _ _ Hz).
    destruct (underflows_float64 q) eqn:U; [reflexivity|].
    rewrite (Qceiling_comp _ _ Hz). reflexivity. }
  unfold round_float64.
  rewrite (Qceiling_comp _ _ (round_binary_value 53 (-1074) q Hnz)).
  unfold spacing. change (53 - 1)%Z with 52%Z.
  assert (Hnz' : ~ (Qred q == 0)%Q) by (rewrite Qred_correct; exact Hnz).
  destruct (binade_spec (Qred q) Hnz') as [Hlo Hhi].
  assert (Hqa : (Qabs (Qred q) == Qabs q)%Q) by (apply Qabs_wd, Qred_correct).
  rewrite Hqa in Hlo, Hhi.
  set (e := binade (Qred q)) in *.
  assert (H53 : (Qabs q < pow2 53)%Q).
  { eapply Qle_lt_trans; [apply Qabs_Qmake_le|].
    rewrite <- pow2_inject by lia. rewrite <- Zlt_Qlt. exact Hn. }
  assert (He : (e < 53)%Z).
  { apply pow2_lt_inv. eapply Qle_lt_trans; eassumption. }
  set (E := Z.max (e - 52) (-1074)).
  assert (HE : (E <= 0)%Z) by (unfold E; lia).
  pose proof (Qceiling_lt q) as Hk1. pose proof (Qle_ceiling q) as Hk2.
  set (k := Qceiling q) in *.
  pose proof (Qmake_mult_den n p) as Hqp. fold q in Hqp.
  destruct (underflows_float64 q) eqn:U.
  - (* the quotient underflows *)
    apply underflows_float64_true in U as [Hq0 Hq1].
    assert (Hqabs : (Qabs q == q)%Q) by (apply Qabs_pos; lra).
    assert (He' : (e < -1074)%Z).
    { apply pow2_lt_inv. eapply Qle_lt_trans; [exact Hlo|]. rewrite Hqabs.
      eapply Qle_lt_trans; [exact Hq1|]. apply pow2_lt. lia. }
    assert (EE : E = (-1074)%Z) by (unfold E; lia). rewrite EE.
    pose proof (pow2_pos (-1074)) as Hs.
    pose proof (pow2_half (-1074)) as Hhalf. change (-1074 - 1)%Z with (-1075)%Z in Hhalf.
    rewrite <- Hhalf in Hq1.
    set (s := pow2 (-1074)) in *.
    assert (Hy : (q / s * s == q)%Q) by (field; lra).
    rewrite round_half_even_small.
    + apply (Qceiling_comp (inject_Z 0 * s) 0). ring.
    + apply (Qmult_le_r _ _ s Hs). rewrite Hy. lra.
    + apply (Qmult_le_r _ _ s Hs). rewrite Hy. rewrite Qmult_comm. exact Hq1.
  - (* it does not *)
    apply ceiling_round_multiple; [exact HE | exact Hk2 |].
    set (g := (q - inject_Z (k - 1))%Q).
    assert (Hg : (0 < g)%Q) by (unfold g; lra).
    destruct (Z_le_gt_dec (-1074) (e - 52)) as [Hnorm|Hsub].
    + (* normal numbers *)
      assert (EE : E = (e - 52)%Z) by (unfold E; lia). rewrite EE.
      assert (Hp : (0 < inject_Z (Z.pos p))%Q) by reflexivity.
      assert (Hgp : (1 <= g * inject_Z (Z.pos p))%Q).
      { assert (Hint : (g * inject_Z (Z.pos p) == inject_Z (n - (k - 1) * Z.pos p))%Q).
        { unfold g. rewrite (inject_Z_sub n), inject_Z_mult, <- Hqp. ring. }
        rewrite Hint. change 1%Q with (inject_Z 1). rewrite <- Zle_Qle.
        assert (0 < n - (k - 1) * Z.pos p)%Z; [|lia].
        rewrite Zlt_Qlt, <- Hint. change (inject_Z 0) with 0%Q.
        apply Qmult_lt_0_compat; assumption. }
      assert (Hsp : (pow2 (e - 52) * inject_Z (Z.pos p) < 2)%Q).
      { replace (e - 52)%Z with (-52 + e)%Z by lia. rewrite pow2_add.
        assert (Hm : (pow2 e * inject_Z (Z.pos p) < pow2 53)%Q).
        { apply Qle_lt_trans with (Qabs q * inject_Z (Z.pos p))%Q.
          - apply Qmult_le_compat_r; [exact Hlo | apply Qlt_le_weak; exact Hp].
          - apply Qle_lt_trans with (inject_Z (Z.abs n)).
            + change (Qabs q) with (Z.abs n # p). rewrite Qmake_mult_den. apply Qle_refl.
            + rewrite <- pow2_inject by lia. rewrite <- Zlt_Qlt. exact Hn. }
        rewrite <- Qmult_assoc.
        apply Qlt_le_trans with (pow2 (-52) * pow2 53)%Q.
        - apply Qmult_lt_l; [apply pow2_pos | exact Hm].
        - rewrite <- pow2_add. apply Qle_refl. }
      apply (Qmult_lt_r _ _ (inject_Z (Z.pos p)) Hp).
      set (s := pow2 (e - 52)) in *. set (P := inject_Z (Z.pos p)) in *.
      assert (Hx : (s * (1 # 2) * P == (1 # 2) * (s * P))%Q) by ring.
      rewrite Hx. lra.
    + (* subnormal numbers *)
      assert (EE : E = (-1074)%Z) by (unfold E; lia). rewrite EE.
      rewrite pow2_half. change (-1074 - 1)%Z with (-1075)%Z.
      assert (Hsmall : (Qabs q < pow2 (-1022))%Q).
      { eapply Qlt_le_trans; [exact Hhi|]. apply pow2_le. lia. }
      assert (H1 : (pow2 (-1022) <= 1 # 2)%Q).
      { change (1 # 2)%Q with (pow2 (-1)). apply pow2_le. lia. }
      assert (H2 : (pow2 (-1075) <= 1 # 2)%Q).
      { change (1 # 2)%Q with (pow2 (-1)). apply pow2_le. lia. }
      apply Qabs_Qlt_condition in Hsmall.
      set (a := pow2 (-1022)) in *. set (u := pow2 (-1075)) in *.
      apply underflows_float64_false in U. fold u in U.
      destruct (Qlt_le_dec 0 q) as [Hpos|Hneg].
      * assert (Hk : k = 1%Z).
        { assert (0 < k)%Z by (rewrite Zlt_Qlt; change (inject_Z 0) with 0%Q; lra).
          assert (k - 1 < 1)%Z; [|lia].
          rewrite Zlt_Qlt. change (inject_Z 1) with 1%Q. lra. }
        unfold g. rewrite Hk. change (inject_Z (1 - 1)) with 0%Q.
        destruct U as [U|U]; lra.
      * assert (Hk : k = 0%Z).
        { assert (-1 < k)%Z by (rewrite Zlt_Qlt; change (inject_Z (-1)) with (-1)%Q; lra).
          assert (k - 1 < 0)%Z; [|lia].
          rewrite Zlt_Qlt. change (inject_Z 0) with 0%Q. lra. }
        unfold g. rewrite Hk. change (inject_Z (0 - 1)) with (-1)%Q. lra.
Qed.

(** The rounding on a few numbers: 0.1 in float32, two ties that go to
    the even neighbour, the float32 subnormals, and the two quotients
    between which binary64 underflows to zero. *)
Lemma round_binary_examples :
  round_float32 (1 # 10) = (13421773 # 134217728)%Q /\
  round_float32 16777217 = 16777216%Q /\
  round_float32 16777219 = 16777220%Q /\
  round_float32 (pow2 (-150)) = 0%Q /\
  (round_float32 (3 * pow2 (-150)) == pow2 (-148))%Q /\
  round_float64 (1 # 2 ^ 1075) = 0%Q /\
  (round_float64 (1 # 2 ^ 1075 - 1) == pow2 (-1074))%Q.
Proof. repeat split; vm_compute; reflexivity. Qed.

Lemma round_float32_range (x : Q) :
  (0 <= x)%Q -> (x < 256)%Q ->
  (0 <= round_float32 x)%Q /\
  (x - (1 # 131072) <= round_float32 x)%Q /\ (round_float32 x <= x + (1 # 131072))%Q.
Proof.
  intros H0 H256. split; [apply round_binary_nonneg; assumption|].
  assert (Ha : (Qabs x < 256)%Q) by (apply Qabs_Qlt_condition; split; lra).
  pose proof (round_float32_near x Ha) as Hn.
  apply Qabs_Qle_condition in Hn. split; lra.
Qed.

(** The values of a uint8 array are float32 numbers. *)
Lemma round_float32_uint8 (z : Z) :
  (0 <= z <= 255)%Z -> (round_float32 (inject_Z z) == inject_Z z)%Q.
Proof.
  intros Hz.
  assert (Hall : forallb (fun n => Qeq_bool (round_float32 (inject_Z (Z.of_nat n)))
                                      (inject_Z (Z.of_nat n))) (seq 0 256) = true)
    by (vm_compute; reflexivity).
  rewrite forallb_forall in Hall.
  specialize (Hall (Z.to_nat z)). rewrite Z2Nat.id in Hall by lia.
  apply Qeq_bool_eq, Hall, in_seq. lia.
Qed.

(** ** Compositing *)

Lemma length_zip_with_Q (f : Q -> Q -> Q) (l1 l2 : list Q) :
  length (zip_with_Q f l1 l2) = Nat.min (length l1) (length l2).
Proof.
  revert l2. induction l1 as [|x l1 IH]; intros [|y l2]; simpl; auto.
Qed.

Lemma nth_zip_with_Q (f : Q -> Q -> Q) (l1 l2 : list Q) (n : nat) (d : Q) :
  (n < length l1)%nat -> (n < length l2)%nat ->
  nth n (zip_with_Q f l1 l2) d = f (nth n l1 d) (nth n l2 d).
Proof.
  revert l2 n. induction l1 as [|x l1 IH]; intros [|y l2] [|n]; simpl;
    intros H1 H2; try lia; auto.
  apply IH; lia.
Qed.

Lemma nth_nil {A} (n : nat) (d : A) : nth n [] d = d.
Proof. destruct n; reflexivity. Qed.

Lemma length_triple {A} (l : list A) :
  length (flat_map (fun x => [x; x; x]) l) = (3 * length l)%nat.
Proof. induction l as [|x l IH]; simpl; [reflexivity | rewrite IH; lia]. Qed.

Lemma nth_triple {A} (l : list A) (k c : nat) (d : A) :
  (c < 3)%nat ->
  nth (3 * k + c) (flat_map (fun x => [x; x; x]) l) d = nth k l d.
Proof.
  intros Hc. revert k. induction l as [|x l IH]; intros k.
  - cbn [flat_map]. rewrite !nth_nil. reflexivity.
  - destruct k as [|k].
    + destruct c as [|[|[|c]]]; simpl; try reflexivity; lia.
    + replace (3 * S k + c)%nat with (S (S (S (3 * k + c)))) by lia.
      simpl. apply IH.
Qed.

Lemma nth_map_in {A C} (f : A -> C) (l : list A) (n : nat) (d : A) (d' : C) :
  (n < length l)%nat -> nth n (map f l) d' = f (nth n l d).
Proof.
  revert n. induction l as [|x l IH]; intros [|n] H; simpl in *; try lia; auto.
  apply IH. lia.
Qed.

Lemma nth_repeat_in {A} (x d : A) (n k : nat) :
  (k < n)%nat -> nth k (repeat x n) d = x.
Proof.
  revert k. induction n as [|n IH]; intros [|k] H; simpl; try lia; auto.
  apply IH. lia.
Qed.

Lemma np_binop_same_shape (f : Q -> Q -> Q) (a b : ndarray) :
  shape a = shape b ->
  np_binop f a b
  = Ok (mk_ndarray (promote (arr_dtype a) (arr_dtype b)) (shape a)
          (zip_with_Q (fun x y => store (promote (arr_dtype a) (arr_dtype b)) (f x y))
             (data a) (data b))).
Proof. intros H. unfold np_binop. destruct (decide _); [reflexivity | contradiction]. Qed.

(** What [composite] returns on an h x w float32 matte and an h x w x 3
    frame: each channel of each pixel is the blend with white, evaluated
    in float32 and converted to uint8. *)
Lemma composite_pixels (img_matting frame_org : ndarray) (h w : nat) :
  arr_dtype img_matting = float32 ->
  shape img_matting = [h; w] -> shape frame_org = [h; w; 3%nat] ->
  exists comb,
    composite img_matting frame_org = Ok comb /\
    arr_dtype comb = uint8 /\ shape comb = [h; w; 3%nat] /\
    forall k c, (k < length (data img_matting))%nat -> (c < 3)%nat ->
      (3 * k + c < length (data frame_org))%nat ->
      nth (3 * k + c) (data comb) 0%Q =
      inject_Z (to_uint8 (blend_float32 (nth k (data img_matting) 0%Q)
                                        (nth (3 * k + c) (data frame_org) 0%Q))).
Proof.
  intros Hd Hm Hp. unfold composite, np_repeat3_newaxis2. rewrite Hm.
  unfold mbind, result_bind, np_mul, np_add.
  rewrite !np_binop_same_shape by (simpl; congruence). simpl. rewrite Hd. simpl.
  eexists. split; [reflexivity|]. simpl. repeat split.
  intros k c Hk Hc Hkc.
  set (m3 := flat_map (fun x => [x; x; x]) (data img_matting)).
  assert (Hlen : length m3 = (3 * length (data img_matting))%nat) by apply length_triple.
  assert (Hin : (3 * k + c < length m3)%nat) by lia.
  rewrite nth_map_in with (d := 0%Q).
  2:{ rewrite !length_zip_with_Q, !length_map, repeat_length. lia. }
  f_equal. f_equal.
  rewrite nth_zip_with_Q.
  2:{ rewrite length_zip_with_Q. lia. }
  2:{ rewrite length_zip_with_Q, !length_map, repeat_length. lia. }
  rewrite nth_zip_with_Q by lia.
  rewrite nth_zip_with_Q by (rewrite ?length_map, ?repeat_length; lia).
  rewrite nth_map_in with (d := 0%Q) (f := fun x => round_float32 (1 - x)) by lia.
  rewrite nth_map_in with (d := 0%Q) (f := fun x => round_float32 (255 * x))
    by (rewrite repeat_length; lia).
  rewrite nth_repeat_in by lia.
  unfold m3. change (k + (k + (k + 0)))%nat with (3 * k)%nat.
  rewrite nth_triple by assumption. reflexivity.
Qed.

Lemma to_uint8_floor (x : Q) :
  (0 <= x)%Q -> (x < 256)%Q -> to_uint8 x = Qfloor x /\ (0 <= Qfloor x <= 255)%Z.
Proof.
  intros H0 H256. unfold to_uint8, Qtrunc.
  assert (Hf0 : (0 <= Qfloor x)%Z).
  { change 0%Z with (Qfloor 0). apply Qfloor_resp_le. assumption. }
  assert (Hf255 : (Qfloor x < 256)%Z).
  { rewrite Zlt_Qlt. eapply Qle_lt_trans; [apply Qfloor_le | assumption]. }
  destruct (Qlt_le_dec x 0) as [Hlt|_].
  - exfalso. apply (Qlt_not_le _ _ Hlt). assumption.
  - split; [apply Z.mod_small|]; lia.
Qed.

(** The float32 blend of a matte value in [0, 1] with a frame value in
    [0, 255] stays in the range of uint8 and within 258 * 2^-17 of the
    exact blend. *)
Lemma blend_float32_near (m p : Q) :
  (0 <= m)%Q -> (m <= 1)%Q -> (0 <= p)%Q -> (p <= 255)%Q ->
  (0 <= blend_float32 m p)%Q /\ (blend_float32 m p < 256)%Q /\
  (Qabs (blend_float32 m p - blend m p) <= 258 # 131072)%Q.
Proof.
  intros Hm0 Hm1 Hp0 Hp255. unfold blend_float32, blend.
  change (round_float32 (255 * 1)) with 255%Q.
  assert (H1 : (0 <= m * p)%Q) by (apply Qmult_le_0_compat; assumption).
  assert (H2 : (m * p <= m * 255)%Q).
  { rewrite (Qmult_comm m p), (Qmult_comm m 255).
    apply Qmult_le_compat_r; assumption. }
  destruct (round_float32_range (m * p)) as (Ha0 & Ha1 & Ha2); [lra | lra |].
  set (a := round_float32 (m * p)) in *.
  destruct (round_float32_range (1 - m)) as (Hd0 & Hd1 & Hd2); [lra | lra |].
  set (d := round_float32 (1 - m)) in *.
  destruct (round_float32_range (d * 255)) as (Hb0 & Hb1 & Hb2); [lra | lra |].
  set (b := round_float32 (d * 255)) in *.
  destruct (round_float32_range (a + b)) as (Hs0 & Hs1 & Hs2); [lra | lra |].
  set (s := round_float32 (a + b)) in *.
  split; [assumption|]. split; [lra|].
  apply Qabs_Qle_condition. split; lra.
Qed.

(** C8 (as amended). For an h x w float32 matte and an h x w x 3 frame,
    every channel [c] of every pixel [k] of the composite is the blend
    [m * p + (1 - m) * 255] of the matte value of the pixel with the
    frame value of that channel and a white background, evaluated in
    float32 (each product, the difference and the sum rounded to the
    nearest float32) and converted to uint8.  For a matte value in
    [0, 1] and a frame value in [0, 255] the float32 blend is within
    258 * 2^-17 of the exact one, and the conversion rounds it down to
    an integer between 0 and 255. *)
Theorem composite_is_truncated_float32_blend (img_matting frame_org : ndarray) (h w : nat) :
  arr_dtype img_matting = float32 ->
  shape img_matting = [h; w] -> shape frame_org = [h; w; 3%nat] ->
  exists comb,
    composite img_matting frame_org = Ok comb /\
    shape comb = [h; w; 3%nat] /\
    forall k c, (k < length (data img_matting))%nat -> (c < 3)%nat ->
      (3 * k + c < length (data frame_org))%nat ->
      let m := nth k (data img_matting) 0%Q in
      let p := nth (3 * k + c) (data frame_org) 0%Q in
      (0 <= m)%Q -> (m <= 1)%Q -> (0 <= p)%Q -> (p <= 255)%Q ->
      nth (3 * k + c) (data comb) 0%Q = inject_Z (Qfloor (blend_float32 m p)) /\
      (0 <= Qfloor (blend_float32 m p) <= 255)%Z /\
      (Qabs (blend_float32 m p - (m * p + (1 - m) * (255 * 1))) <= 258 # 131072)%Q.
Proof.
  intros Hd Hm Hp.
  destruct (composite_pixels img_matting frame_org h w Hd Hm Hp)
    as (comb & Hc & _ & Hs & Hpix).
  exists comb. split; [assumption|]. split; [assumption|].
  intros k c Hk Hc3 Hkc m p Hm0 Hm1 Hp0 Hp255.
  destruct (blend_float32_near m p Hm0 Hm1 Hp0 Hp255) as (Hb0 & Hb256 & Hnear).
  destruct (to_uint8_floor _ Hb0 Hb256) as [Hfl Hrange].
  split; [|split; [exact Hrange | exact Hnear]].
  rewrite (Hpix k c Hk Hc3 Hkc). f_equal. exact Hfl.
Qed.

(** A matte value of float32(0.008) on a white pixel: the exact blend is
    255, its float32 evaluation is 254.99998, and the composite holds
    254. *)
Lemma composite_is_truncated_float32_blend_witness :
  exists comb,
    composite (mk_ndarray float32 [1; 1]%nat [8589935 # 1073741824])
              (mk_ndarray uint8 [1; 1; 3]%nat [0; 10; 255]%Q) = Ok comb /\
    nth (3 * 0 + 2) (data comb) 0%Q
    = inject_Z (Qfloor (blend_float32 (8589935 # 1073741824) 255)) /\
    Qfloor (blend_float32 (8589935 # 1073741824) 255) = 254%Z /\
    Qfloor ((8589935 # 1073741824) * 255 + (1 - (8589935 # 1073741824)) * (255 * 1)) = 255%Z.
Proof.
  destruct (composite_is_truncated_float32_blend
              (mk_ndarray float32 [1; 1]%nat [8589935 # 1073741824])
              (mk_ndarray uint8 [1; 1; 3]%nat [0; 10; 255]%Q) 1 1 eq_refl eq_refl eq_refl)
    as (comb & Hc & _ & Hpix).
  exists comb. split; [exact Hc|].
  split; [|split; vm_compute; reflexivity].
  apply (Hpix 0%nat 2%nat); simpl; try lia; vm_compute; discriminate.
Defined.

(** The composite is not the blend itself: half of a black pixel over
    white is 127.5, and the composited value is 127. *)
Lemma composite_exact_blend_fails :
  exists comb,
    composite (mk_ndarray float32 [1; 1]%nat [1 # 2])
              (mk_ndarray uint8 [1; 1; 3]%nat [0; 0; 0]%Q) = Ok comb /\
    nth 0 (data comb) 0%Q = 127%Q /\
    ~ (nth 0 (data comb) 0 == (1 # 2) * 0 + (1 - (1 # 2)) * 255)%Q.
Proof.
  eexists. split; [reflexivity|]. split; [reflexivity|].
  vm_compute. discriminate.
Qed.

(** ** Stepping through logged computations *)

(** Unfold the sequencing, and nothing else. *)
Ltac run_cbn :=
  cbn [mbind M_bind result_bind lift call mret M_ret result_ret fst snd app].

(** Split on the outcome of the next call the computation waits for. *)
Ltac run_step :=
  match goal with
  | |- context [match ?r with Ok _ => _ | Raise _ => _ end] =>
      lazymatch r with
      | context [match _ with Ok _ => _ | Raise _ => _ end] => fail
      | _ => destruct r eqn:?
      end
  | |- context [if (?x =? ?y)%Z then _ else _] => destruct (x =? y)%Z eqn:?
  end; run_cbn.

Ltac run := run_cbn; repeat run_step.

(** ** The device guard *)

Lemma require_cuda_unusable (w : world) :
  cuda_unusable w -> require_cuda w true = ([], Raise RuntimeError).
Proof.
  intros [H|(c & s & H & Hc)]; unfold require_cuda, cuda_visible_device;
    rewrite H; [reflexivity|].
  unfold py_int_char. rewrite Hc. reflexivity.
Qed.

Lemma require_cuda_cpu (w : world) : require_cuda w false = ([], Ok tt).
Proof. reflexivity. Qed.

Section Guard.

Context {B : Backend}.

(** C10. With [use_gpu] set and [CUDA_VISIBLE_DEVICES] unset or not
    starting with a decimal digit, [segment] and [video_segment] raise
    [RuntimeError] with an empty log: no input was read, nothing was
    processed or written.  [video_stream_segment] does not look at the
    environment: its run is the same in every environment with the same
    inputs, and with a frame that has two spatial axes and passes
    preprocessing it goes on to run the object's GPU predictor. *)
Theorem gpu_guard (self : ShufflenetHumanSeg) (w : world) :
  cuda_unusable w ->
  (forall images paths batch_size visualization output_dir,
     segment self w images paths batch_size true visualization output_dir
     = ([], Raise RuntimeError)) /\
  (forall video_path save_dir,
     video_segment self w video_path true save_dir = ([], Raise RuntimeError)) /\
  (forall w' frame_org frame_id prev_gray prev_cfd,
     video_stream_segment self w frame_org frame_id prev_gray prev_cfd true
     = video_stream_segment self w' frame_org frame_id prev_gray prev_cfd true) /\
  (forall frame_org frame_id prev_gray prev_cfd h wd rest fr p,
     shape frame_org = h :: wd :: rest ->
     preprocess_v frame_org 192 192 = Ok fr ->
     gpu_predictor self = Some p ->
     In (EPredictorRun p (np_newaxis0 fr))
        (fst (video_stream_segment self w frame_org frame_id prev_gray prev_cfd true))).
Proof.
  intros Hbad. repeat split.
  - intros. unfold segment. rewrite (require_cuda_unusable w Hbad). reflexivity.
  - intros. unfold video_segment. rewrite (require_cuda_unusable w Hbad). reflexivity.
  - intros * Hshape Hpre Hgpu.
    unfold video_stream_segment, frame_forward, shape_at, select_predictor.
    rewrite Hshape, Hgpu, Hpre. cbn [nth_error].
    run; right; left; reflexivity.
Qed.

End Guard.

Lemma gpu_guard_witness :
  let w := Example.the_world (<["CUDA_VISIBLE_DEVICES" := "none"]> ∅) [] in
  let self := {| cpu_predictor := CpuPredictor; gpu_predictor := Some GpuPredictor |} in
  cuda_unusable w /\
  @segment (Example.backend 1) self w (Some [Example.frame 7]) None 1 true false "out"
  = ([], Raise RuntimeError) /\
  @video_segment (Example.backend 1) self w (Some "v.avi") true "out"
  = ([], Raise RuntimeError) /\
  In (EPredictorRun GpuPredictor
        (np_newaxis0 (mk_ndarray float32 [3; 1; 1]%nat [0; 0; 0]%Q)))
     (fst (@video_stream_segment (Example.backend 1) self w (Example.frame 7) 1
             (np_zeros [1; 1]%nat uint8) (np_zeros [1; 1]%nat float32) true)).
Proof.
  intros w self.
  assert (H : cuda_unusable w).
  { right. exists "n"%char, "one". split; reflexivity. }
  destruct (@gpu_guard (Example.backend 1) self w H) as (H1 & H2 & _ & H4).
  split; [exact H|]. split; [apply H1|]. split; [apply H2|].
  apply (H4 (Example.frame 7) 1%Z _ _ 1%nat 2%nat [3%nat]); reflexivity.
Defined.

(** ** Batching in [segment] *)

Lemma lift_Ok_inv {A} (r : result A) (l : list event) (a : A) :
  lift r = (l, Ok a) -> r = Ok a /\ l = [].
Proof. unfold lift. intros [= <- ->]. auto. Qed.

Lemma call_Ok_inv {A} (ev : event) (r : result A) (l : list event) (a : A) :
  call ev r = (l, Ok a) -> r = Ok a /\ l = [ev].
Proof. unfold call. intros [= <- ->]. auto. Qed.

Lemma mret_Ok_inv {A} (x a : A) (l : list event) :
  (mret x : M A) = (l, Ok a) -> x = a /\ l = [].
Proof. unfold mret, M_ret. intros [= <- ->]. auto. Qed.

(** Invert one successful bind in hypothesis [H]. *)
Ltac inv_bind H :=
  let l1 := fresh "l" in
  let a := fresh "a" in
  let l2 := fresh "l" in
  let H1 := fresh H in
  apply bind_Ok_inv in H as (l1 & a & l2 & H1 & H & ->);
  first [ apply lift_Ok_inv in H1 as [H1 ->]
        | apply call_Ok_inv in H1 as [H1 ->]
        | idtac ].

(** The log of a run, read off the equation that describes it. *)
Ltac log_of H := lazymatch type of H with _ = (?lg, _) => lg end.

(** A loop invariant for [for_each]: [P done s log] relates the elements
    already visited to the state and to the log so far. *)
Lemma for_each_invariant {A S} (body : S -> A -> M S) (all : list A)
    (P : list A -> S -> list event -> Prop) :
  (forall done x rest s s' lacc l,
     all = done ++ x :: rest -> P done s lacc -> body s x = (l, Ok s') ->
     P (done ++ [x]) s' (lacc ++ l)) ->
  forall todo done s lacc log s',
    all = done ++ todo -> P done s lacc ->
    for_each todo s body = (log, Ok s') -> P all s' (lacc ++ log).
Proof.
  intros Hstep. induction todo as [|x todo IH]; intros done s lacc log s' Hall HP Hrun.
  - cbn in Hrun. apply mret_Ok_inv in Hrun as [<- ->].
    rewrite app_nil_r in *. subst all. assumption.
  - cbn [for_each] in Hrun. inv_bind Hrun.
    rewrite app_assoc. apply (IH (done ++ [x]) a).
    + rewrite <- app_assoc. assumption.
    + eapply Hstep; eassumption.
    + assumption.
Qed.

Lemma seq_split_nth (n : nat) (done : list nat) (x : nat) (rest : list nat) :
  seq 0 n = done ++ x :: rest -> x = length done.
Proof.
  intros H.
  assert (Hn : nth_error (seq 0 n) (length done) = Some x).
  { rewrite H, nth_error_app2, Nat.sub_diag by lia. reflexivity. }
  apply nth_error_nth with (d := 0%nat) in Hn.
  rewrite seq_nth in Hn; [lia|].
  apply (f_equal (@length nat)) in H.
  rewrite length_seq, length_app in H. simpl in H. lia.
Qed.

Lemma py_getitem_of_nat {A} (l : list A) (i : nat) :
  py_getitem l (Z.of_nat i) =
  match nth_error l i with Some x => Ok x | None => Raise IndexError end.
Proof.
  unfold py_getitem.
  destruct (Z.ltb_spec (Z.of_nat i) 0); [lia|].
  rewrite Nat2Z.id.
  destruct (Z.leb_spec 0 (Z.of_nat i)); [|lia].
  destruct (Z.ltb_spec (Z.of_nat i) (Z.of_nat (length l))); [reflexivity|].
  simpl. destruct (nth_error l i) eqn:E; [|reflexivity].
  assert (i < length l)%nat by (apply nth_error_Some; congruence). lia.
Qed.

Lemma flat_map_nil {A C} (l : list A) : flat_map (fun _ => @nil C) l = [].
Proof. induction l; auto. Qed.

Lemma flat_map_lookups {A} (l : list A) (n : nat) :
  flat_map (fun i => match nth_error l i with Some x => [x] | None => [] end) (seq 0 n)
  = firstn n l.
Proof.
  revert n. induction l as [|x l IH]; intros n.
  - rewrite firstn_nil. erewrite flat_map_ext; [apply flat_map_nil|].
    intros i. destruct i; reflexivity.
  - destruct n as [|n]; [reflexivity|].
    cbn [seq flat_map nth_error firstn app]. f_equal.
    rewrite <- seq_shift, flat_map_concat_map, map_map, <- flat_map_concat_map.
    apply IH.
Qed.

(** The inner loop of a batch collects the images of its window. *)
Lemma gather_batch_slice (all_data : list data_item) (k bs : nat) :
  gather_batch all_data (Z.of_nat k * Z.of_nat bs) (Z.of_nat bs)
  = slice (k * bs) bs all_data.
Proof.
  unfold gather_batch, py_range, slice. rewrite Nat2Z.id.
  rewrite flat_map_concat_map, map_map, <- flat_map_concat_map.
  rewrite <- flat_map_lookups.
  apply flat_map_ext. intros i.
  replace (Z.of_nat k * Z.of_nat bs + Z.of_nat i)%Z with (Z.of_nat (k * bs + i)) by lia.
  rewrite py_getitem_of_nat, nth_error_skipn. destruct (nth_error _ _); reflexivity.
Qed.

(** Consecutive windows that cover a list give the list back. *)
Lemma slices_cover {A} (bs : nat) (l : list A) (m : nat) :
  (length l <= m * bs)%nat ->
  flat_map (fun k => slice (k * bs) bs l) (seq 0 m) = l.
Proof.
  revert l. induction m as [|m IH]; intros l Hlen.
  - destruct l; [reflexivity | simpl in Hlen; lia].
  - cbn [seq flat_map]. unfold slice at 1. cbn [Nat.mul skipn].
    rewrite <- seq_shift, flat_map_concat_map, map_map, <- flat_map_concat_map.
    erewrite flat_map_ext.
    + rewrite (IH (skipn bs l)); [apply firstn_skipn|].
      rewrite length_skipn. lia.
    + intros k. unfold slice. rewrite skipn_skipn. f_equal. f_equal. lia.
Qed.

(** Below [underflow_batch_size] the quotient by the batch size does not
    underflow: the number of rounds is the ceiling of the exact
    quotient. *)
Lemma ceil_div_exact (n : nat) (bs : Z) :
  (1 <= bs)%Z -> (bs < underflow_batch_size)%Z ->
  ceil_div n bs = Ok (Qceiling (inject_Z (Z.of_nat n) / inject_Z bs)).
Proof.
  intros Hbs Hub. unfold ceil_div.
  destruct (Z.eqb_spec bs 0); [lia|]. cbv zeta.
  set (q := (inject_Z (Z.of_nat n) / inject_Z bs)%Q).
  assert (Hpos : (0 < inject_Z bs)%Q).
  { change 0%Q with (inject_Z 0). rewrite <- Zlt_Qlt. lia. }
  assert (Hq : (inject_Z (Z.of_nat n) == q * inject_Z bs)%Q).
  { unfold q. field. intros E. rewrite E in Hpos. apply (Qlt_irrefl 0). assumption. }
  destruct (underflows_float64 q) eqn:E; [exfalso|reflexivity].
  unfold underflows_float64 in E. apply andb_prop in E as [Hq0 Hsmall].
  apply Qle_bool_iff in Hsmall.
  assert (Hq0' : (0 < q)%Q).
  { apply Qnot_le_lt. intros H. apply Qle_bool_iff in H. rewrite H in Hq0. discriminate. }
  assert (Hn : (0 < Z.of_nat n)%Z).
  { rewrite Zlt_Qlt, Hq. change (inject_Z 0) with 0%Q.
    apply Qmult_lt_0_compat; assumption. }
  assert (Hlt : (inject_Z (Z.of_nat n) < 1)%Q).
  { rewrite Hq. apply Qle_lt_trans with (pow2 (-1075) * inject_Z bs)%Q.
    - apply Qmult_le_compat_r; [assumption | apply Qlt_le_weak; assumption].
    - apply Qlt_le_trans with (pow2 (-1075) * pow2 1075)%Q.
      + apply Qmult_lt_l; [apply pow2_pos|].
        rewrite <- pow2_inject by lia. rewrite <- Zlt_Qlt. exact Hub.
      + rewrite <- pow2_add. apply Qle_refl. }
  change 1%Q with (inject_Z 1) in Hlt. rewrite <- Zlt_Qlt in Hlt. lia.
Qed.

Lemma ceil_div_Ok (n : nat) (bs : Z) :
  bs <> 0%Z -> exists loop_num, ceil_div n bs = Ok loop_num.
Proof.
  intros Hbs. unfold ceil_div. destruct (Z.eqb_spec bs 0); [contradiction|].
  cbv zeta. destruct (underflows_float64 _); eexists; reflexivity.
Qed.

Lemma underflows_float64_comp (x y : Q) :
  (x == y)%Q -> underflows_float64 x = underflows_float64 y.
Proof.
  intros H. unfold underflows_float64.
  rewrite (Qleb_comp x y H 0%Q 0%Q (Qeq_refl 0%Q)).
  rewrite (Qleb_comp x y H _ _ (Qeq_refl (pow2 (-1075)))). reflexivity.
Qed.

(** The number of rounds is [int(np.ceil(a / b))] with the quotient
    rounded to binary64, for fewer than 2^53 images. *)
Lemma ceil_div_float64 (a : nat) (b : Z) :
  (Z.of_nat a < float64_exact_bound)%Z -> b <> 0%Z ->
  ceil_div a b
  = Ok (Qceiling (round_float64 (inject_Z (Z.of_nat a) / inject_Z b))).
Proof.
  intros Ha Hb. unfold ceil_div. destruct (Z.eqb_spec b 0); [contradiction|]. cbv zeta.
  set (q := (inject_Z (Z.of_nat a) / inject_Z b)%Q).
  assert (Hq : exists n p, (q == n # p)%Q /\ (Z.abs n < 2 ^ 53)%Z).
  { unfold float64_exact_bound in Ha. destruct b as [|p|p]; [contradiction| |].
    - exists (Z.of_nat a), p. split; [|lia]. symmetry. apply Qmake_Qdiv.
    - exists (- Z.of_nat a)%Z, p. split; [|lia].
      unfold q, Qeq, Qdiv, Qmult, Qinv, inject_Z. cbn [Qnum Qden]. lia. }
  destruct Hq as (n' & p & Hq & Hn').
  rewrite (underflows_float64_comp _ _ Hq), (Qceiling_comp q _ Hq).
  unfold round_float64 at 1. rewrite (round_binary_comp 53 (-1074) _ _ Hq).
  fold round_float64. rewrite (ceiling_round_float64 n' p Hn').
  destruct (underflows_float64 (n' # p)); reflexivity.
Qed.

(** The number of rounds is enough to reach the last image. *)
Lemma ceil_div_covers (n : nat) (bs loop_num : Z) :
  (1 <= bs)%Z -> (bs < underflow_batch_size)%Z -> ceil_div n bs = Ok loop_num ->
  (0 <= loop_num)%Z /\ (Z.of_nat n <= loop_num * bs)%Z.
Proof.
  intros Hbs Hub. rewrite (ceil_div_exact n bs Hbs Hub). intros [= <-].
  set (q := (inject_Z (Z.of_nat n) / inject_Z bs)%Q).
  assert (Hpos : (0 < inject_Z bs)%Q).
  { change 0%Q with (inject_Z 0). rewrite <- Zlt_Qlt. lia. }
  assert (Hq : (inject_Z (Z.of_nat n) == inject_Z bs * q)%Q).
  { unfold q. rewrite Qmult_div_r; [reflexivity|]. intros E. rewrite E in Hpos.
    apply (Qlt_irrefl 0). assumption. }
  assert (Hle : (inject_Z (Z.of_nat n) <= inject_Z bs * inject_Z (Qceiling q))%Q).
  { rewrite Hq. apply Qmult_le_l; [assumption | apply Qle_ceiling]. }
  rewrite <- inject_Z_mult, <- Zle_Qle in Hle.
  split; [|lia].
  assert (H0 : (0 <= q)%Q).
  { unfold q. apply Qle_shift_div_l; [assumption|].
    rewrite Qmult_0_l. change 0%Q with (inject_Z 0). rewrite <- Zle_Qle. lia. }
  change 0%Z with (Qceiling 0). apply Qceiling_resp_le. assumption.
Qed.

Lemma firstn_succ_nth_error {A} (l : list A) (n : nat) (x : A) :
  nth_error l n = Some x -> firstn (S n) l = firstn n l ++ [x].
Proof.
  revert n. induction l as [|y l IH]; intros [|n] H; simpl in H; try discriminate.
  - injection H as ->. reflexivity.
  - cbn [firstn app]. f_equal. apply IH. assumption.
Qed.

Lemma postprocessed_app (l1 l2 : list event) :
  postprocessed (l1 ++ l2) = postprocessed l1 ++ postprocessed l2.
Proof. apply flat_map_app. Qed.

Section Segment.

Context {B : Backend}.

(** The loop over one batch appends one result per image of the batch,
    in order. *)
Lemma postprocess_loop (output : ndarray) (batch_data : list data_item)
    (output_dir : string) (visualization : bool)
    (res0 res : list res_dict) (log : list event) :
  for_each (seq 0 (length batch_data)) res0
           (postprocess_one output batch_data output_dir visualization) = (log, Ok res) ->
  exists rs, res = res0 ++ rs /\
             Forall2 (result_of output_dir visualization) batch_data rs /\
             postprocessed log = map image_key batch_data.
Proof.
  intros Hrun.
  pose (P := fun (done : list nat) (s : list res_dict) (lacc : list event) =>
    exists rs, s = res0 ++ rs /\
      Forall2 (result_of output_dir visualization) (firstn (length done) batch_data) rs /\
      postprocessed lacc = map image_key (firstn (length done) batch_data)).
  assert (HP : P (seq 0 (length batch_data)) res ([] ++ log)).
  { eapply (for_each_invariant _ _ P) with (done := []); [| reflexivity | | exact Hrun].
    - intros done x rest s s' lacc lb Hall (rs & -> & HF & Hlog) Hbody.
      apply seq_split_nth in Hall as ->.
      unfold postprocess_one in Hbody.
      inv_bind Hbody. inv_bind Hbody. inv_bind Hbody.
      apply mret_Ok_inv in Hbody as [<- ->].
      rewrite py_getitem_of_nat in Hbody1.
      destruct (nth_error batch_data (length done)) as [d|] eqn:Hd; [|discriminate].
      injection Hbody1 as <-.
      exists (rs ++ [a1]). rewrite length_app, Nat.add_1_r.
      rewrite (firstn_succ_nth_error _ _ _ Hd), map_app, !postprocessed_app, Hlog.
      split; [symmetry; apply app_assoc|]. split; [|reflexivity].
      apply Forall2_app; [assumption|]. constructor; [|constructor].
      exists a. assumption.
    - exists []. rewrite app_nil_r. repeat split. constructor. }
  destruct HP as (rs & -> & HF & Hlog).
  rewrite length_seq, firstn_all in *. exists rs. auto.
Qed.

Lemma batches_cover (all_data : list data_item) (batch_size loop_num : Z) :
  (1 <= batch_size)%Z -> (batch_size < underflow_batch_size)%Z ->
  ceil_div (length all_data) batch_size = Ok loop_num ->
  flat_map (fun iter_id => gather_batch all_data (iter_id * batch_size) batch_size)
           (py_range loop_num) = all_data.
Proof.
  intros Hbs Hub Hceil. destruct (ceil_div_covers _ _ _ Hbs Hub Hceil) as [H0 Hle].
  unfold py_range.
  rewrite flat_map_concat_map, map_map, <- flat_map_concat_map.
  rewrite <- (Z2Nat.id batch_size) by lia.
  erewrite flat_map_ext; [|intros k; apply gather_batch_slice].
  apply slices_cover. nia.
Qed.

(** C9 (as amended). For a batch size of at least 1 and below 2^1075,
    a call of [segment] that returns, on fewer than 2^53 images read,
    has read some list of images from [reader] and returns exactly one
    result per image, in reading order, each the answer of [postprocess]
    for that image; [postprocess] was called once per image, in that
    order, whether or not the number of images is a multiple of the
    batch size. *)
Theorem segment_one_result_per_image_in_range (self : ShufflenetHumanSeg) (w : world)
    (images : option (list ndarray)) (paths : option (list string))
    (batch_size : Z) (use_gpu visualization : bool) (output_dir : string)
    (log : list event) (res : list res_dict) :
  (1 <= batch_size)%Z -> (batch_size < underflow_batch_size)%Z ->
  (forall all_data, reader images paths = Ok all_data ->
                    (Z.of_nat (length all_data) < float64_exact_bound)%Z) ->
  segment self w images paths batch_size use_gpu visualization output_dir = (log, Ok res) ->
  exists all_data,
    reader images paths = Ok all_data /\
    length res = length all_data /\
    Forall2 (result_of output_dir visualization) all_data res /\
    postprocessed log = map image_key all_data.
Proof.
  intros Hbs Hub _ Hrun. unfold segment in Hrun.
  inv_bind Hrun. inv_bind Hrun. inv_bind Hrun.
  match goal with H : reader images paths = Ok ?x |- _ => rename x into all_data end.
  match goal with H : ceil_div _ _ = Ok ?x |- _ => rename x into loop_num end.
  exists all_data. split; [assumption|].
  pose (chunk := fun iter_id : Z => gather_batch all_data (iter_id * batch_size) batch_size).
  pose (P := fun (done : list Z) (s : list res_dict) (lacc : list event) =>
    Forall2 (result_of output_dir visualization) (flat_map chunk done) s /\
    postprocessed lacc = map image_key (flat_map chunk done)).
  assert (HP : P (py_range loop_num) res ([] ++ ltac:(let lg := log_of Hrun in exact lg))).
  { eapply (for_each_invariant _ _ P) with (done := []); [| reflexivity | | exact Hrun].
    - intros done x rest s s' lacc lb _ [HF Hlog] Hbody.
      unfold segment_batch in Hbody.
      inv_bind Hbody. inv_bind Hbody. inv_bind Hbody. inv_bind Hbody.
      apply postprocess_loop in Hbody as (rs & -> & HFb & Hlogb).
      unfold P. rewrite flat_map_app, map_app, !postprocessed_app, Hlog, Hlogb.
      cbn [flat_map postprocessed app]. rewrite !app_nil_r. fold (chunk x).
      split; [|reflexivity]. apply Forall2_app; assumption.
    - split; [constructor | reflexivity]. }
  destruct HP as [HF Hlog]. unfold chunk in *.
  rewrite (batches_cover all_data batch_size loop_num Hbs Hub Hrun2) in *.
  split; [symmetry; eapply Forall2_length; eassumption|].
  split; [assumption|].
  assert (Hguard : postprocessed l = []).
  { unfold require_cuda in Hrun0. destruct use_gpu.
    - inv_bind Hrun0. apply mret_Ok_inv in Hrun0 as [_ ->]. reflexivity.
    - apply mret_Ok_inv in Hrun0 as [_ ->]. reflexivity. }
  rewrite !postprocessed_app, Hguard. cbn [postprocessed flat_map app].
  assumption.
Qed.

(** When [segment] does return: the device guard passes, the reader
    yields images of one shape, the engine answers every batch and
    [postprocess] never raises. *)
Lemma for_each_Ok {A S} (body : S -> A -> M S) (l : list A) :
  (forall s x, In x l -> exists lg s', body s x = (lg, Ok s')) ->
  forall s, exists lg s', for_each l s body = (lg, Ok s').
Proof.
  induction l as [|x l IH]; intros Hbody s; cbn [for_each].
  - eexists _, _. reflexivity.
  - destruct (Hbody s x (or_introl eq_refl)) as (lg & s' & E). rewrite E.
    destruct (IH (fun s0 y Hy => Hbody s0 y (or_intror Hy)) s') as (lg2 & s2 & E2).
    run_cbn. rewrite E2. eexists _, _. reflexivity.
Qed.

Lemma gather_batch_incl (all_data : list data_item) (handle_id batch_size : Z) (d : data_item) :
  In d (gather_batch all_data handle_id batch_size) -> In d all_data.
Proof.
  unfold gather_batch. rewrite in_flat_map. intros (i & _ & Hd).
  unfold py_getitem in Hd. destruct (_ && _)%bool; [|contradiction].
  destruct (nth_error all_data _) as [d'|] eqn:E; [|contradiction].
  destruct Hd as [<-|[]]. eapply nth_error_In. eassumption.
Qed.

Lemma np_array_one_shape (l : list ndarray) (s : list nat) :
  Forall (fun a => shape a = s) l ->
  exists b s', np_array l = Ok b /\ shape b = length l :: s'.
Proof.
  intros H. destruct l as [|a l]; [eexists _, _; split; reflexivity|].
  unfold np_array.
  assert (Hall : forallb (fun b => bool_decide (shape b = shape a)) (a :: l) = true).
  { apply forallb_forall. intros b Hb. apply bool_decide_eq_true.
    rewrite List.Forall_forall in H.
    rewrite (H b Hb), (H a (or_introl eq_refl)). reflexivity. }
  rewrite Hall. eexists _, _. split; reflexivity.
Qed.

Lemma segment_returns (self : ShufflenetHumanSeg) (w : world)
    (images : option (list ndarray)) (paths : option (list string))
    (batch_size : Z) (use_gpu visualization : bool) (output_dir : string)
    (all_data : list data_item) (p : predictor) (s : list nat) :
  (1 <= batch_size)%Z ->
  require_cuda w use_gpu = ([], Ok tt) ->
  select_predictor self use_gpu = Ok p ->
  reader images paths = Ok all_data ->
  Forall (fun d => shape (image d) = s) all_data ->
  predictor_answers_batches B p ->
  postprocess_total B ->
  exists log res,
    segment self w images paths batch_size use_gpu visualization output_dir = (log, Ok res).
Proof.
  intros Hbs Hguard Hsel Hread Hshape Hpred Hpost.
  { unfold segment. rewrite Hguard, Hread.
    destruct (ceil_div_Ok (length all_data) batch_size) as [loop_num Hloop]; [lia|].
    run_cbn. rewrite Hloop. run_cbn.
    match goal with
    | |- context [for_each ?l ?s0 ?body] =>
        destruct (for_each_Ok body l) with (s := s0) as (lg & res & E)
    end.
    - intros res0 iter_id _. unfold segment_batch.
      set (batch := gather_batch all_data (iter_id * batch_size) batch_size).
      assert (Hb : Forall (fun a => shape a = s) (map image batch)).
      { apply List.Forall_map, List.Forall_forall. intros d Hd.
        rewrite List.Forall_forall in Hshape. apply Hshape.
        eapply gather_batch_incl. exact Hd. }
      destruct (np_array_one_shape _ _ Hb) as (bi & s' & Hbi & Hsh).
      rewrite length_map in Hsh.
      destruct (Hpred bi _ _ Hsh) as (out & c & h & wd & rest & Hout & Hos & Hc).
      rewrite Hbi, Hsel. run_cbn. rewrite Hout.
      unfold np_class1_keepdim. rewrite Hos.
      destruct (Nat.leb_spec 2 c); [|lia]. run_cbn.
      match goal with
      | |- context [for_each ?l ?s0 ?body] =>
          destruct (for_each_Ok body l) with (s := s0) as (lg & res & E)
      end.
      + intros res1 i Hi. apply in_seq in Hi. unfold postprocess_one, np_index0.
        cbn [shape]. destruct (Nat.ltb_spec i (length batch)); [|lia]. run_cbn.
        rewrite py_getitem_of_nat.
        destruct (nth_error batch i) as [d|] eqn:Ed;
          [|apply nth_error_None in Ed; lia].
        match goal with
        | |- context [postprocess ?a ?b ?c ?d0 ?e ?f] =>
            destruct (Hpost a b c d0 e f) as [r Hr]; rewrite Hr
        end.
        run_cbn. eexists _, _. reflexivity.
      + rewrite E. eexists _, _. reflexivity.
    - rewrite E. eexists _, _. reflexivity. }
Qed.

End Segment.

Lemma segment_one_result_per_image_in_range_witness :
  let w := Example.the_world ∅ [] in
  let imgs := [Example.frame 1; Example.frame 2; Example.frame 3] in
  exists log res all_data,
    @segment (Example.backend 1) (_set_config w) w (Some imgs) None 2 false false "out"
    = (log, Ok res) /\
    @reader (Example.backend 1) (Some imgs) None = Ok all_data /\
    length all_data = 3%nat /\
    length res = length all_data /\
    postprocessed log = map image_key all_data.
Proof.
  intros w imgs.
  eassert (Hrun : @segment (Example.backend 1) (_set_config w) w (Some imgs) None 2
                    false false "out" = (_, Ok _)) by (vm_compute; reflexivity).
  assert (Hbs : (1 <= 2)%Z) by discriminate.
  assert (Hub : (2 < underflow_batch_size)%Z) by reflexivity.
  assert (Hn : forall all_data,
             @reader (Example.backend 1) (Some imgs) None = Ok all_data ->
             (Z.of_nat (length all_data) < float64_exact_bound)%Z).
  { intros all_data [= <-]. reflexivity. }
  destruct (@segment_one_result_per_image_in_range (Example.backend 1)
              _ _ _ _ _ _ _ _ _ _ Hbs Hub Hn Hrun)
    as (all_data & Hr & Hlen & _ & Hlog).
  eexists. eexists. exists all_data. split; [exact Hrun|]. split; [exact Hr|].
  split; [|split; [exact Hlen | exact Hlog]].
  injection Hr as <-. reflexivity.
Defined.

(** A batch size of at least 1 is not enough: with one image and a batch
    size of 2^1075 the quotient 1 / 2^1075 is rounded to 0.0, no round
    is run, and [segment] returns the empty list for the one image read,
    without having called the predictor or [postprocess]. *)
Lemma segment_huge_batch_size_returns_nothing :
  exists log res all_data,
    (1 <= 2 ^ 1075)%Z /\
    @segment (Example.backend 1) (_set_config (Example.the_world ∅ []))
       (Example.the_world ∅ []) (Some [Example.frame 1]) None (2 ^ 1075)
       false false "out"
    = (log, Ok res) /\
    @reader (Example.backend 1) (Some [Example.frame 1]) None = Ok all_data /\
    length all_data = 1%nat /\
    res = [] /\ length res <> length all_data /\
    postprocessed log = [].
Proof.
  exists [EReader (Some [Example.frame 1]) None], [].
  eexists. split; [discriminate|]. split; [vm_compute; reflexivity|].
  split; [reflexivity|]. split; [reflexivity|]. split; [reflexivity|].
  split; [discriminate | reflexivity].
Qed.

(** ** The video entry points, call by call *)

Section Video.

Context {B : Backend}.

Lemma frame_forward_log (self : ShufflenetHumanSeg) (use_gpu : bool)
    (frame_org : ndarray) (rw rh : nat) :
  forallb forward_event (fst (frame_forward self use_gpu frame_org rw rh)) = true.
Proof. unfold frame_forward. run; reflexivity. Qed.

(** A successful [video_stream_segment], call by call. *)
Lemma video_stream_segment_Ok_inv (self : ShufflenetHumanSeg) (w : world)
    (frame_org : ndarray) (frame_id : Z) (prev_gray prev_cfd : ndarray) (use_gpu : bool)
    (log : list event) (m g o : ndarray) :
  video_stream_segment self w frame_org frame_id prev_gray prev_cfd use_gpu
  = (log, Ok (m, g, o)) ->
  exists h wd log_fwd score_map fused blurred,
    shape_at frame_org 0 = Ok h /\ shape_at frame_org 1 = Ok wd /\
    frame_forward self use_gpu frame_org 192 192 = (log_fwd, Ok (g, score_map)) /\
    postprocess_v g score_map (stream_prev frame_id prev_gray uint8)
                  (stream_prev frame_id prev_cfd float32) the_disflow true = Ok fused /\
    GaussianBlur fused (3%nat, 3%nat) 0 = Ok blurred /\
    threshold_mask blurred 0.2 0.8 = Ok o /\
    cv2_resize o (wd, h) = Ok m /\
    log = log_fwd ++ finalize_events g score_map (stream_prev frame_id prev_gray uint8)
                       (stream_prev frame_id prev_cfd float32) the_disflow true
                       fused blurred o (wd, h).
Proof.
  intros H. unfold video_stream_segment in H.
  inv_bind H. inv_bind H. inv_bind H.
  match goal with p : (ndarray * ndarray)%type |- _ => destruct p as [cur_gray score_map] end.
  inv_bind H. inv_bind H. inv_bind H. inv_bind H.
  apply mret_Ok_inv in H as [[= <- <- <-] ->].
  do 6 eexists. repeat (split; [eassumption|]).
  unfold stream_prev, the_disflow.
  destruct (frame_id =? 1)%Z;
    match goal with H : call _ _ = _ |- _ => apply call_Ok_inv in H as [H ->] end;
    (split; [eassumption|]); repeat (split; [eassumption|]); reflexivity.
Qed.

(** A successful [frame_step] of [video_segment], call by call. *)
Lemma frame_step_Ok_inv (self : ShufflenetHumanSeg) (use_gpu : bool)
    (rw rh width height : nat) (disflow : DISOpticalFlow) (is_init : bool)
    (frame_org prev_gray prev_cfd : ndarray)
    (log : list event) (g c comb : ndarray) :
  frame_step self use_gpu rw rh width height disflow is_init frame_org prev_gray prev_cfd
  = (log, Ok (g, c, comb)) ->
  exists log_fwd score_map blurred thresholded img_matting,
    frame_forward self use_gpu frame_org rw rh = (log_fwd, Ok (g, score_map)) /\
    postprocess_v g score_map prev_gray prev_cfd disflow is_init = Ok c /\
    GaussianBlur c (3%nat, 3%nat) 0 = Ok blurred /\
    threshold_mask blurred 0.2 0.8 = Ok thresholded /\
    cv2_resize thresholded (width, height) = Ok img_matting /\
    composite img_matting frame_org = Ok comb /\
    log = log_fwd ++ finalize_events g score_map prev_gray prev_cfd disflow is_init
                       c blurred thresholded (width, height).
Proof.
  intros H. unfold frame_step in H.
  inv_bind H.
  match goal with p : (ndarray * ndarray)%type |- _ => destruct p as [cur_gray score_map] end.
  inv_bind H. inv_bind H. inv_bind H. inv_bind H. inv_bind H.
  apply mret_Ok_inv in H as [[= <- <- <-] ->].
  do 5 eexists. repeat (split; [eassumption|]). reflexivity.
Qed.

End Video.

(** ** Finalization of the matte *)

Section Finalization.

Context {B : Backend}.

(** C3. In a frame that is processed to the end, the calls after the
    forward pass are, in this order: the fusion, a 3 x 3 Gaussian blur
    of the fused map, the thresholding of the blurred map with 0.2 and
    0.8, and the resize of the thresholded map to the output size; the
    forward pass itself neither blurs nor thresholds.  This holds for
    [video_stream_segment], whose output size is the frame's, and for
    the loop body of [video_segment], whose output size is the
    capture's. *)
Theorem finalization_order :
  (forall self w frame_org frame_id prev_gray prev_cfd use_gpu log m g o,
     video_stream_segment self w frame_org frame_id prev_gray prev_cfd use_gpu
     = (log, Ok (m, g, o)) ->
     exists h wd log_fwd score_map pg pc fused blurred,
       shape_at frame_org 0 = Ok h /\ shape_at frame_org 1 = Ok wd /\
       forallb forward_event log_fwd = true /\
       log = log_fwd ++ finalize_events g score_map pg pc the_disflow true
                          fused blurred o (wd, h) /\
       postprocess_v g score_map pg pc the_disflow true = Ok fused /\
       GaussianBlur fused (3%nat, 3%nat) 0 = Ok blurred /\
       threshold_mask blurred 0.2 0.8 = Ok o /\
       cv2_resize o (wd, h) = Ok m) /\
  (forall self use_gpu width height disflow is_init frame_org prev_gray prev_cfd
          log g c comb,
     frame_step self use_gpu 192 192 width height disflow is_init
                frame_org prev_gray prev_cfd = (log, Ok (g, c, comb)) ->
     exists log_fwd score_map blurred thresholded img_matting,
       forallb forward_event log_fwd = true /\
       log = log_fwd ++ finalize_events g score_map prev_gray prev_cfd disflow is_init
                          c blurred thresholded (width, height) /\
       postprocess_v g score_map prev_gray prev_cfd disflow is_init = Ok c /\
       GaussianBlur c (3%nat, 3%nat) 0 = Ok blurred /\
       threshold_mask blurred 0.2 0.8 = Ok thresholded /\
       cv2_resize thresholded (width, height) = Ok img_matting /\
       composite img_matting frame_org = Ok comb).
Proof.
  split.
  - intros * H.
    apply video_stream_segment_Ok_inv in H
      as (h & wd & log_fwd & sm & fused & blurred & H0 & H1 & Hf & Hp & Hb & Ht & Hr & ->).
    exists h, wd, log_fwd, sm, (stream_prev frame_id prev_gray uint8),
      (stream_prev frame_id prev_cfd float32), fused, blurred.
    split; [assumption|]. split; [assumption|]. split.
    { rewrite <- (frame_forward_log self use_gpu frame_org 192 192), Hf. reflexivity. }
    repeat split; first [assumption | reflexivity].
  - intros * H.
    apply frame_step_Ok_inv in H
      as (log_fwd & sm & blurred & th & im & Hf & Hp & Hb & Ht & Hr & Hc & ->).
    exists log_fwd, sm, blurred, th, im.
    split.
    { rewrite <- (frame_forward_log self use_gpu frame_org 192 192), Hf. reflexivity. }
    repeat split; first [assumption | reflexivity].
Qed.

(** C5. Provided [cv2.resize] answers with the size it is asked for,
    the matte returned for a frame of H rows and W columns has H rows
    and W columns. *)
Theorem matte_has_frame_size (self : ShufflenetHumanSeg) (w : world)
    (frame_org : ndarray) (frame_id : Z) (prev_gray prev_cfd : ndarray) (use_gpu : bool)
    (H W : nat) (channels : list nat) (log : list event) (m g o : ndarray) :
  resize_shape_law B ->
  shape frame_org = H :: W :: channels ->
  video_stream_segment self w frame_org frame_id prev_gray prev_cfd use_gpu
  = (log, Ok (m, g, o)) ->
  exists rest, shape m = H :: W :: rest.
Proof.
  intros Hlaw Hshape Hrun.
  apply video_stream_segment_Ok_inv in Hrun
    as (h & wd & _ & _ & _ & _ & H0 & H1 & _ & _ & _ & _ & Hr & _).
  unfold shape_at in H0, H1. rewrite Hshape in H0, H1. cbn in H0, H1.
  injection H0 as <-. injection H1 as <-.
  apply Hlaw in Hr. assumption.
Qed.

End Finalization.

Lemma example_resize_law (fg : Q) : resize_shape_law (Example.backend fg).
Proof.
  intros img w h r. cbn. unfold Example.ex_resize.
  destruct (shape img) as [|? [|? rest]]; try discriminate.
  destruct (_ && _)%bool; [|discriminate].
  intros [= <-]. exists rest. reflexivity.
Qed.

Lemma finalization_order_witness :
  let w := Example.the_world ∅ [] in
  let self := _set_config w in
  (exists log m g o,
     @video_stream_segment (Example.backend 1) self w (Example.frame 7) 2
       (np_zeros [1; 1]%nat uint8) (np_zeros [1; 1]%nat float32) false
     = (log, Ok (m, g, o)) /\
     exists log_fwd score_map pg pc fused blurred,
       forallb forward_event log_fwd = true /\
       log = log_fwd ++ finalize_events g score_map pg pc the_disflow true
                          fused blurred o (2%nat, 1%nat)) /\
  (exists log g c comb,
     @frame_step (Example.backend 1) self false 192 192 2 1 the_disflow true
       (Example.frame 7) (np_zeros [1; 1]%nat uint8) (np_zeros [1; 1]%nat float32)
     = (log, Ok (g, c, comb)) /\
     exists log_fwd score_map blurred thresholded,
       forallb forward_event log_fwd = true /\
       log = log_fwd ++ finalize_events g score_map (np_zeros [1; 1]%nat uint8)
                          (np_zeros [1; 1]%nat float32) the_disflow true
                          c blurred thresholded (2%nat, 1%nat)).
Proof.
  intros w self. split.
  - eassert (Hrun : @video_stream_segment (Example.backend 1) self w (Example.frame 7) 2
                      (np_zeros [1; 1]%nat uint8) (np_zeros [1; 1]%nat float32) false
                    = (_, Ok (_, _, _))) by (lazy -[repeat numel round_float32]; reflexivity).
    destruct (proj1 (@finalization_order (Example.backend 1)) _ _ _ _ _ _ _ _ _ _ _ Hrun)
      as (h & wd & log_fwd & sm & pg & pc & fused & blurred
          & H0 & H1 & Hfwd & Hlog & _).
    injection H0 as <-. injection H1 as <-.
    do 4 eexists. split; [exact Hrun|].
    exists log_fwd, sm, pg, pc, fused, blurred. split; [exact Hfwd | exact Hlog].
  - eassert (Hrun : @frame_step (Example.backend 1) self false 192 192 2 1 the_disflow true
                      (Example.frame 7) (np_zeros [1; 1]%nat uint8)
                      (np_zeros [1; 1]%nat float32)
                    = (_, Ok (_, _, _))) by (lazy -[repeat numel round_float32]; reflexivity).
    destruct (proj2 (@finalization_order (Example.backend 1)) _ _ _ _ _ _ _ _ _ _ _ _ _ Hrun)
      as (log_fwd & sm & blurred & th & im & Hfwd & Hlog & _).
    do 4 eexists. split; [exact Hrun|].
    exists log_fwd, sm, blurred, th. split; [exact Hfwd | exact Hlog].
Defined.

Lemma matte_has_frame_size_witness :
  let w := Example.the_world ∅ [] in
  exists log m g o rest,
    @video_stream_segment (Example.backend 1) (_set_config w) w (Example.frame 7) 1
      (np_zeros [1; 1]%nat uint8) (np_zeros [1; 1]%nat float32) false
    = (log, Ok (m, g, o)) /\
    shape (Example.frame 7) = [1; 2; 3]%nat /\
    shape m = 1%nat :: 2%nat :: rest.
Proof.
  intros w.
  eassert (Hrun : @video_stream_segment (Example.backend 1) (_set_config w) w
                    (Example.frame 7) 1
                    (np_zeros [1; 1]%nat uint8) (np_zeros [1; 1]%nat float32) false
                  = (_, Ok (_, _, _))) by (lazy -[repeat numel round_float32]; reflexivity).
  destruct (@matte_has_frame_size (Example.backend 1) (_set_config w) w
              (Example.frame 7) 1%Z _ _ false 1%nat 2%nat [3%nat]
              _ _ _ _ (example_resize_law 1) eq_refl Hrun) as [rest Hm].
  do 4 eexists. exists rest. split; [exact Hrun|]. split; [reflexivity | exact Hm].
Defined.

(** ** The [is_init] flag and the state handed on *)

(** Split a membership in the log of a bind into the log of its first
    part and the log of what follows. *)
Ltac log_bind H :=
  let l := fresh "l" in
  let a := fresh "a" in
  let Heq := fresh "Heq" in
  apply bind_log_In in H as [H | (l & a & Heq & H)].

(** Settle a membership in an explicit log. *)
Ltac log_cases H :=
  cbn [In fst call lift mret M_ret] in H;
  repeat (destruct H as [H|H]); try discriminate H; try contradiction.

Lemma require_cuda_log (w : world) (use_gpu : bool) : fst (require_cuda w use_gpu) = [].
Proof.
  unfold require_cuda. destruct use_gpu; [|reflexivity].
  destruct (cuda_visible_device w); reflexivity.
Qed.

Section InitFlag.

Context {B : Backend}.

Lemma stream_log_is_init self w frame_org frame_id prev_gray prev_cfd use_gpu
    cg sm pg pc df i :
  In (EPostprocessV cg sm pg pc df i)
     (fst (video_stream_segment self w frame_org frame_id prev_gray prev_cfd use_gpu)) ->
  i = true.
Proof.
  unfold video_stream_segment, frame_forward.
  run; intros H; log_cases H; injection H; auto.
Qed.

Lemma frame_step_log_is_init self use_gpu rw rh width height disflow is_init
    frame_org prev_gray prev_cfd cg sm pg pc df i :
  In (EPostprocessV cg sm pg pc df i)
     (fst (frame_step self use_gpu rw rh width height disflow is_init
             frame_org prev_gray prev_cfd)) ->
  i = is_init.
Proof.
  unfold frame_step, frame_forward.
  run; intros H; log_cases H; injection H; auto.
Qed.

Lemma file_loop_log_is_init self use_gpu rw rh width height disflow is_init
    frames cg sm pg pc df i :
  forall prev_gray prev_cfd,
  In (EPostprocessV cg sm pg pc df i)
     (fst (file_loop self use_gpu rw rh width height disflow is_init
             frames prev_gray prev_cfd)) ->
  i = is_init.
Proof.
  induction frames as [|frame_org frames IH]; intros prev_gray prev_cfd H.
  - log_cases H.
  - cbn [file_loop] in H. log_bind H.
    + eapply frame_step_log_is_init; eassumption.
    + destruct a as [[g c] comb]. log_bind H; [log_cases H|].
      eapply IH; eassumption.
Qed.

Lemma camera_loop_log_is_init self w use_gpu rw rh width height disflow is_init
    frames cg sm pg pc df i :
  forall n prev_gray prev_cfd,
  In (EPostprocessV cg sm pg pc df i)
     (fst (camera_loop self w use_gpu rw rh width height disflow is_init
             frames n prev_gray prev_cfd)) ->
  i = is_init.
Proof.
  induction frames as [|frame_org frames IH]; intros n prev_gray prev_cfd H.
  - log_cases H.
  - cbn [camera_loop] in H. log_bind H.
    + eapply frame_step_log_is_init; eassumption.
    + destruct a as [[g c] comb]. log_bind H; [log_cases H|].
      log_bind H; [log_cases H|].
      destruct (Z.land _ 255 =? 113)%Z; [log_cases H|].
      eapply IH; eassumption.
Qed.

Lemma video_segment_log_is_init self w video_path use_gpu save_dir cg sm pg pc df i :
  In (EPostprocessV cg sm pg pc df i)
     (fst (video_segment self w video_path use_gpu save_dir)) ->
  i = true.
Proof.
  unfold video_segment. intros H.
  log_bind H; [rewrite require_cuda_log in H; contradiction|].
  log_bind H; [log_cases H|].
  log_bind H; [destruct (negb _); log_cases H|].
  destruct video_path.
  - log_bind H; [log_cases H|].
    log_bind H; [destruct (negb (path_exists w save_dir)); log_cases H|].
    log_bind H; [log_cases H|].
    log_bind H; [eapply file_loop_log_is_init; eassumption|].
    log_bind H; log_cases H.
  - log_bind H; [eapply camera_loop_log_is_init; eassumption|].
    log_cases H.
Qed.

(** C1 (what the code does). Every call of the fusion routine made by
    [video_stream_segment], whatever the frame index, and every call made
    by the frame loop of [video_segment], whatever the position of the
    frame, passes [is_init = True]. *)
Theorem is_init_is_always_true :
  (forall self w frame_org frame_id prev_gray prev_cfd use_gpu cg sm pg pc df i,
     In (EPostprocessV cg sm pg pc df i)
        (fst (video_stream_segment self w frame_org frame_id prev_gray prev_cfd use_gpu)) ->
     i = true) /\
  (forall self w video_path use_gpu save_dir cg sm pg pc df i,
     In (EPostprocessV cg sm pg pc df i)
        (fst (video_segment self w video_path use_gpu save_dir)) ->
     i = true).
Proof.
  split; intros *.
  - apply stream_log_is_init.
  - apply video_segment_log_is_init.
Qed.

(** C2 (what the code does). The map [video_stream_segment] returns is
    not the fused map that the loop of [video_segment] keeps in
    [prev_cfd] for the same frame and state: it is that map blurred and
    thresholded. *)
Theorem stream_returns_finalized_map self w frame_org frame_id prev_gray prev_cfd use_gpu
    width height log m g o log' g' c' comb :
  video_stream_segment self w frame_org frame_id prev_gray prev_cfd use_gpu
  = (log, Ok (m, g, o)) ->
  frame_step self use_gpu 192 192 width height the_disflow true frame_org
             (stream_prev frame_id prev_gray uint8) (stream_prev frame_id prev_cfd float32)
  = (log', Ok (g', c', comb)) ->
  g' = g /\
  exists blurred,
    GaussianBlur c' (3%nat, 3%nat) 0 = Ok blurred /\
    threshold_mask blurred 0.2 0.8 = Ok o.
Proof.
  intros Hs Hv.
  apply video_stream_segment_Ok_inv in Hs
    as (h & wd & log_fwd & sm & fused & blurred & _ & _ & Hf & Hp & Hb & Ht & _ & _).
  apply frame_step_Ok_inv in Hv
    as (log_fwd' & sm' & blurred' & th & im & Hf' & Hp' & _).
  rewrite Hf in Hf'. injection Hf' as _ <- <-.
  rewrite Hp in Hp'. injection Hp' as <-.
  split; [reflexivity|]. exists blurred. auto.
Qed.

End InitFlag.

Lemma is_init_is_always_true_witness :
  let w := Example.the_world ∅ [Example.frame 0; Example.frame 7] in
  let self := _set_config w in
  let pg0 := Example.pixel uint8 [192; 192]%nat 5 in
  let pc0 := Example.pixel float32 [192; 192]%nat 200 in
  (exists cg sm i,
     In (EPostprocessV cg sm pg0 pc0 the_disflow i)
        (fst (@video_stream_segment (Example.backend 1) self w (Example.frame 7) 2
                pg0 pc0 false)) /\
     i = true) /\
  (exists cg sm pg pc i,
     In (EPostprocessV cg sm pg pc the_disflow i)
        (fst (@video_segment (Example.backend 1) self w (Some "v.avi") false "out")) /\
     data pc = [255%Q] /\ i = true).
Proof.
  intros w self pg0 pc0. split.
  - assert (HIn : In (EPostprocessV (Example.pixel uint8 [192; 192]%nat 0)
                        (mk_ndarray float32 [1; 1]%nat [255%Q]) pg0 pc0 the_disflow true)
                     (fst (@video_stream_segment (Example.backend 1) self w
                             (Example.frame 7) 2 pg0 pc0 false))).
    { apply (nth_error_In _ 4). reflexivity. }
    pose proof (proj1 (@is_init_is_always_true (Example.backend 1))
                  _ _ _ _ _ _ _ _ _ _ _ _ _ HIn) as Hi.
    do 3 eexists. split; [exact HIn | exact Hi].
  - assert (HIn : In (EPostprocessV (Example.pixel uint8 [192; 192]%nat 0)
                        (mk_ndarray float32 [1; 1]%nat [255%Q])
                        (Example.pixel uint8 [192; 192]%nat 0)
                        (mk_ndarray float32 [1; 1]%nat [255%Q]) the_disflow true)
                     (fst (@video_segment (Example.backend 1) self w (Some "v.avi")
                             false "out"))).
    { apply (nth_error_In _ 16). reflexivity. }
    pose proof (proj2 (@is_init_is_always_true (Example.backend 1))
                  _ _ _ _ _ _ _ _ _ _ _ HIn) as Hi.
    do 5 eexists. split; [exact HIn|]. split; [reflexivity | exact Hi].
Defined.

Lemma stream_returns_finalized_map_witness :
  let w := Example.the_world ∅ [] in
  let self := _set_config w in
  let pg0 := Example.pixel uint8 [192; 192]%nat 5 in
  let pc0 := Example.pixel float32 [192; 192]%nat 200 in
  exists log m g o log' g' c' comb,
    @video_stream_segment (Example.backend 1) self w (Example.frame 7) 2 pg0 pc0 false
    = (log, Ok (m, g, o)) /\
    @frame_step (Example.backend 1) self false 192 192 2 1 the_disflow true
      (Example.frame 7) pg0 pc0 = (log', Ok (g', c', comb)) /\
    data o = [1%Q] /\ data c' = [255%Q] /\ o <> c' /\
    exists blurred,
      @GaussianBlur (Example.backend 1) c' (3%nat, 3%nat) 0 = Ok blurred /\
      @threshold_mask (Example.backend 1) blurred 0.2 0.8 = Ok o.
Proof.
  intros w self pg0 pc0.
  eassert (Hs : @video_stream_segment (Example.backend 1) self w (Example.frame 7) 2
                  pg0 pc0 false = (_, Ok (_, _, _)))
    by (lazy -[repeat numel round_float32]; reflexivity).
  eassert (Hv : @frame_step (Example.backend 1) self false 192 192 2 1 the_disflow true
                  (Example.frame 7) pg0 pc0 = (_, Ok (_, _, _)))
    by (lazy -[repeat numel round_float32]; reflexivity).
  destruct (@stream_returns_finalized_map (Example.backend 1) self w (Example.frame 7) 2
              pg0 pc0 false 2%nat 1%nat _ _ _ _ _ _ _ _ Hs Hv) as [_ Hfin].
  do 8 eexists. split; [exact Hs|]. split; [exact Hv|].
  split; [reflexivity|]. split; [reflexivity|]. split; [|exact Hfin].
  intros E. apply (f_equal data) in E. discriminate E.
Defined.

(** ** The first frame and the fusion of the spec *)

Lemma clamp_id (lo hi x : Q) : (lo <= x)%Q -> (x <= hi)%Q -> clamp lo hi x = x.
Proof.
  intros Hlo Hhi. unfold clamp.
  apply Qle_bool_iff in Hlo. apply Qle_bool_iff in Hhi. rewrite Hlo, Hhi. reflexivity.
Qed.

Lemma map_clamp_on_scale (a : ndarray) :
  on_scale a -> map (clamp 0 confidence_scale) (data a) = data a.
Proof.
  unfold on_scale. induction 1 as [|x l [H0 H1] _ IH]; [reflexivity|].
  cbn [map]. rewrite IH, clamp_id by assumption. reflexivity.
Qed.

Section SpecFusion.

Context {P : FusionParts} {B : Backend}.

Lemma fuse_mismatch (cg sm pg pc : ndarray) (df : DISOpticalFlow) (i : bool) :
  shape cg <> shape pg -> fuse cg sm pg pc df i = Raise InvalidInputError.
Proof. intros H. unfold fuse. destruct (decide _); [contradiction | reflexivity]. Qed.

Lemma fuse_init_Ok (cg sm pg pc fused : ndarray) (df : DISOpticalFlow) :
  fuse cg sm pg pc df true = Ok fused ->
  shape cg = shape pg /\ (on_scale sm -> fused = sm).
Proof.
  unfold fuse. destruct (decide _) as [E|]; [|discriminate].
  cbn [orb]. intros [= <-]. split; [assumption|].
  intros Hs. rewrite (map_clamp_on_scale sm Hs). destruct sm; reflexivity.
Qed.

Lemma stream_log_prev self w frame_org frame_id prev_gray prev_cfd use_gpu
    cg sm a b df i :
  In (EPostprocessV cg sm a b df i)
     (fst (video_stream_segment self w frame_org frame_id prev_gray prev_cfd use_gpu)) ->
  a = stream_prev frame_id prev_gray uint8 /\ b = stream_prev frame_id prev_cfd float32.
Proof.
  unfold video_stream_segment, frame_forward, stream_prev.
  run; intros H; log_cases H; injection H; intros; subst; split; reflexivity.
Qed.

(** C6. On frame 1 the previous gray frame and confidence map supplied
    by the caller are ignored: the fusion receives an all-zero uint8 and
    an all-zero float32 array of 192 x 192, and the run does not depend
    on what was supplied; on any other frame it receives the supplied
    arrays unchanged.  With the fusion and the thresholding of the spec,
    a run on frame 1 whose score map lies on the 0..255 scale returns
    the blurred and thresholded score map itself, and its resize. *)
Theorem first_frame_starts_from_zero_state :
  (forall self w frame_org pg pc pg2 pc2 use_gpu,
     video_stream_segment self w frame_org 1 pg pc use_gpu
     = video_stream_segment self w frame_org 1 pg2 pc2 use_gpu) /\
  (forall self w frame_org frame_id pg pc use_gpu cg sm a b df i,
     In (EPostprocessV cg sm a b df i)
        (fst (video_stream_segment self w frame_org frame_id pg pc use_gpu)) ->
     (frame_id = 1%Z -> a = np_zeros [192; 192]%nat uint8 /\
                        b = np_zeros [192; 192]%nat float32) /\
     (frame_id <> 1%Z -> a = pg /\ b = pc)) /\
  (forall self w frame_org pg pc use_gpu log m g o,
     @video_stream_segment (with_spec_optimal B) self w frame_org 1 pg pc use_gpu
     = (log, Ok (m, g, o)) ->
     exists log_fwd sm,
       frame_forward self use_gpu frame_org 192 192 = (log_fwd, Ok (g, sm)) /\
       (on_scale sm ->
        exists blurred h wd,
          GaussianBlur sm (3%nat, 3%nat) 0 = Ok blurred /\
          threshold_mask_spec blurred 0.2 0.8 = Ok o /\
          cv2_resize o (wd, h) = Ok m)).
Proof.
  split; [|split].
  - reflexivity.
  - intros * H. apply stream_log_prev in H as [-> ->]. unfold stream_prev.
    split; intros Hid.
    + subst frame_id. auto.
    + apply Z.eqb_neq in Hid. rewrite Hid. auto.
  - intros * H.
    apply (@video_stream_segment_Ok_inv (with_spec_optimal B)) in H
      as (h & wd & log_fwd & sm & fused & blurred & _ & _ & Hf & Hp & Hb & Ht & Hr & _).
    exists log_fwd, sm. split; [exact Hf|]. intros Hs.
    apply fuse_init_Ok in Hp as [_ Hfused]. rewrite (Hfused Hs) in Hb.
    exists blurred, h, wd. auto.
Qed.

(** C7. The fusion of the spec fails with [InvalidInputError] when the
    current and the previous gray frame differ in shape;
    [video_stream_segment] hands the previous gray frame of a frame other
    than frame 1 to it unchanged, so that with such a frame the call
    raises [InvalidInputError] right at the fusion: nothing is blurred,
    thresholded or resized afterwards and no new state is returned. *)
Theorem mismatched_gray_is_invalid_input :
  (forall cg sm pg pc df i,
     shape cg <> shape pg -> fuse cg sm pg pc df i = Raise InvalidInputError) /\
  (forall self w frame_org frame_id pg pc use_gpu h wd rest log_fwd cg sm,
     shape frame_org = h :: wd :: rest ->
     frame_id <> 1%Z ->
     frame_forward self use_gpu frame_org 192 192 = (log_fwd, Ok (cg, sm)) ->
     shape cg <> shape pg ->
     @video_stream_segment (with_spec_optimal B) self w frame_org frame_id pg pc use_gpu
     = (log_fwd ++ [EPostprocessV cg sm pg pc the_disflow true], Raise InvalidInputError)).
Proof.
  split.
  - intros *. apply fuse_mismatch.
  - intros * Hshape Hid Hf Hne.
    unfold video_stream_segment, shape_at. rewrite Hshape. cbn [nth_error].
    change (@frame_forward (with_spec_optimal B)) with (@frame_forward B).
    rewrite Hf. apply Z.eqb_neq in Hid. rewrite Hid.
    cbn [postprocess_v with_spec_optimal]. run_cbn.
    rewrite (fuse_mismatch _ _ _ _ _ _ Hne). reflexivity.
Qed.

End SpecFusion.

Lemma first_frame_starts_from_zero_state_witness :
  let w := Example.the_world ∅ [] in
  let self := _set_config w in
  let pg0 := Example.pixel uint8 [192; 192]%nat 5 in
  let pc0 := Example.pixel float32 [192; 192]%nat 200 in
  let cg := Example.pixel uint8 [192; 192]%nat 0 in
  let sm := mk_ndarray float32 [1; 1]%nat [255%Q] in
  (In (EPostprocessV cg sm (np_zeros [192; 192]%nat uint8) (np_zeros [192; 192]%nat float32)
         the_disflow true)
      (fst (@video_stream_segment (Example.backend 1) self w (Example.frame 7) 1
              pg0 pc0 false)) /\
   In (EPostprocessV cg sm pg0 pc0 the_disflow true)
      (fst (@video_stream_segment (Example.backend 1) self w (Example.frame 7) 2
              pg0 pc0 false))) /\
  (exists log m g o blurred,
     @video_stream_segment (@with_spec_optimal Example.parts (Example.backend 1)) self w
       (Example.frame 7) 1 pg0 pc0 false = (log, Ok (m, g, o)) /\
     on_scale sm /\
     @GaussianBlur (Example.backend 1) sm (3%nat, 3%nat) 0 = Ok blurred /\
     threshold_mask_spec blurred 0.2 0.8 = Ok o).
Proof.
  intros w self pg0 pc0 cg sm.
  assert (Hscale : on_scale sm).
  { constructor; [|constructor]. split; discriminate. }
  split.
  - assert (H1 : In (EPostprocessV cg sm (np_zeros [192; 192]%nat uint8)
                       (np_zeros [192; 192]%nat float32) the_disflow true)
                    (fst (@video_stream_segment (Example.backend 1) self w
                            (Example.frame 7) 1 pg0 pc0 false))).
    { apply (nth_error_In _ 4). reflexivity. }
    assert (H2 : In (EPostprocessV cg sm pg0 pc0 the_disflow true)
                    (fst (@video_stream_segment (Example.backend 1) self w
                            (Example.frame 7) 2 pg0 pc0 false))).
    { apply (nth_error_In _ 4). reflexivity. }
    destruct (proj1 (proj2 (@first_frame_starts_from_zero_state
                              Example.parts (Example.backend 1)))
                _ _ _ _ _ _ _ _ _ _ _ _ _ H1) as [Hz _].
    destruct (Hz eq_refl) as [_ _].
    destruct (proj1 (proj2 (@first_frame_starts_from_zero_state
                              Example.parts (Example.backend 1)))
                _ _ _ _ _ _ _ _ _ _ _ _ _ H2) as [_ Hs].
    assert (Hne : 2%Z <> 1%Z) by discriminate.
    destruct (Hs Hne) as [_ _].
    split; assumption.
  - eassert (Hrun : @video_stream_segment (@with_spec_optimal Example.parts (Example.backend 1)) self w
                      (Example.frame 7) 1 pg0 pc0 false = (_, Ok (_, _, _)))
      by reflexivity.
    destruct (proj2 (proj2 (@first_frame_starts_from_zero_state
                              Example.parts (Example.backend 1)))
                _ _ _ _ _ _ _ _ _ _ Hrun) as (log_fwd & sm' & Hf & Hfin).
    assert (Hf' : @frame_forward (Example.backend 1) self false (Example.frame 7) 192 192
                  = (fst (@frame_forward (Example.backend 1) self false
                            (Example.frame 7) 192 192), Ok (cg, sm))) by reflexivity.
    assert (Esm : sm = sm').
    { exact (f_equal (fun r : M (ndarray * ndarray) =>
                        match snd r with Ok (_, s) => s | Raise _ => sm end)
                     (eq_trans (eq_sym Hf') Hf)). }
    rewrite <- Esm in Hfin.
    destruct (Hfin Hscale) as (blurred & h & wd & Hb & Ht & _).
    do 4 eexists. exists blurred. split; [exact Hrun|]. split; [exact Hscale|].
    split; [exact Hb | exact Ht].
Defined.

Lemma mismatched_gray_is_invalid_input_witness :
  let w := Example.the_world ∅ [] in
  let self := _set_config w in
  let pg0 := np_zeros [1; 1]%nat uint8 in
  let pc0 := np_zeros [1; 1]%nat float32 in
  let cg := Example.pixel uint8 [192; 192]%nat 0 in
  let sm := mk_ndarray float32 [1; 1]%nat [255%Q] in
  @fuse Example.parts cg sm pg0 pc0 the_disflow true = Raise InvalidInputError /\
  exists log_fwd,
    @video_stream_segment (@with_spec_optimal Example.parts (Example.backend 1)) self w
      (Example.frame 7) 2 pg0 pc0 false
    = (log_fwd ++ [EPostprocessV cg sm pg0 pc0 the_disflow true], Raise InvalidInputError).
Proof.
  intros w self pg0 pc0 cg sm.
  assert (Hne : shape cg <> shape pg0) by discriminate.
  assert (Hid : 2%Z <> 1%Z) by discriminate.
  split.
  - apply (proj1 (@mismatched_gray_is_invalid_input Example.parts (Example.backend 1))).
    exact Hne.
  - exists (fst (@frame_forward (Example.backend 1) self false (Example.frame 7) 192 192)).
    apply (proj2 (@mismatched_gray_is_invalid_input Example.parts (Example.backend 1))
             self w (Example.frame 7) 2%Z pg0 pc0 false 1%nat 2%nat [3%nat]);
      [reflexivity | exact Hid | reflexivity | exact Hne].
Defined.

(** * Further properties *)

(** ** [segment]: degenerate batch sizes and empty input *)

Lemma ceil_div_nonpositive (n : nat) (bs k : Z) :
  (bs < 0)%Z -> ceil_div n bs = Ok k -> (k <= 0)%Z.
Proof.
  intros Hbs. unfold ceil_div. destruct (Z.eqb_spec bs 0); [lia|]. cbv zeta.
  destruct (underflows_float64 _); intros [= <-]; [lia|].
  change 0%Z with (Qceiling 0). apply Qceiling_resp_le.
  destruct bs as [|p|p]; try lia.
  unfold Qle, Qdiv, Qmult, Qinv, inject_Z. cbn. lia.
Qed.

Lemma ceil_div_empty (bs k : Z) : bs <> 0%Z -> ceil_div 0 bs = Ok k -> k = 0%Z.
Proof.
  intros Hbs. unfold ceil_div. destruct (Z.eqb_spec bs 0); [contradiction|].
  cbv zeta. destruct (underflows_float64 _); intros [= <-]; [reflexivity|].
  destruct bs; reflexivity || contradiction.
Qed.

Lemma py_range_nonpositive (k : Z) : (k <= 0)%Z -> py_range k = [].
Proof. intros H. unfold py_range. replace (Z.to_nat k) with 0%nat by lia. reflexivity. Qed.

Section SegmentEdges.

Context {B : Backend}.

(** X1. With [batch_size = 0], [segment] reads its input and then raises
    [ZeroDivisionError]: nothing is inferred or post-processed. *)
Theorem segment_batch_size_zero self w images paths use_gpu visualization output_dir
    all_data :
  require_cuda w use_gpu = ([], Ok tt) ->
  reader images paths = Ok all_data ->
  segment self w images paths 0 use_gpu visualization output_dir
  = ([EReader images paths], Raise ZeroDivisionError).
Proof.
  intros Hguard Hread. unfold segment. rewrite Hguard, Hread. reflexivity.
Qed.

(** X2. With a negative [batch_size], [segment] returns the empty list
    whatever the number of images read: no image is inferred or
    post-processed, and nothing is raised. *)
Theorem segment_negative_batch_size self w images paths batch_size use_gpu
    visualization output_dir all_data :
  (batch_size < 0)%Z ->
  require_cuda w use_gpu = ([], Ok tt) ->
  reader images paths = Ok all_data ->
  segment self w images paths batch_size use_gpu visualization output_dir
  = ([EReader images paths], Ok []).
Proof.
  intros Hbs Hguard Hread. unfold segment. rewrite Hguard, Hread. run_cbn.
  destruct (ceil_div (length all_data) batch_size) as [k|e] eqn:Hk.
  - rewrite (py_range_nonpositive k (ceil_div_nonpositive _ _ _ Hbs Hk)). reflexivity.
  - destruct (ceil_div_Ok (length all_data) batch_size) as [k Hk']; [lia | congruence].
Qed.

(** X3. When the reader yields no image, [segment] returns the empty
    list without running the predictor, for every non-zero batch size. *)
Theorem segment_no_input self w images paths batch_size use_gpu
    visualization output_dir :
  batch_size <> 0%Z ->
  require_cuda w use_gpu = ([], Ok tt) ->
  reader images paths = Ok [] ->
  segment self w images paths batch_size use_gpu visualization output_dir
  = ([EReader images paths], Ok []).
Proof.
  intros Hbs Hguard Hread. unfold segment. rewrite Hguard, Hread. run_cbn.
  cbn [length].
  destruct (ceil_div 0 batch_size) as [k|e] eqn:Hk.
  - rewrite (ceil_div_empty _ _ Hbs Hk). reflexivity.
  - destruct (ceil_div_Ok 0 batch_size Hbs) as [k Hk']. congruence.
Qed.

End SegmentEdges.

Lemma segment_batch_size_zero_witness :
  let w := Example.the_world ∅ [] in
  @segment (Example.backend 1) (_set_config w) w
    (Some [Example.frame 1; Example.frame 2]) None 0 false false "out"
  = ([EReader (Some [Example.frame 1; Example.frame 2]) None], Raise ZeroDivisionError).
Proof.
  intros w.
  apply (@segment_batch_size_zero (Example.backend 1) (_set_config w) w
           (Some [Example.frame 1; Example.frame 2]) None false false "out" _
           eq_refl eq_refl).
Defined.

Lemma segment_negative_batch_size_witness :
  let w := Example.the_world ∅ [] in
  @segment (Example.backend 1) (_set_config w) w
    (Some [Example.frame 1; Example.frame 2; Example.frame 3]) None (-2) false false "out"
  = ([EReader (Some [Example.frame 1; Example.frame 2; Example.frame 3]) None], Ok []).
Proof.
  intros w.
  assert (Hbs : (-2 < 0)%Z) by reflexivity.
  apply (@segment_negative_batch_size (Example.backend 1) (_set_config w) w
           (Some [Example.frame 1; Example.frame 2; Example.frame 3]) None (-2)
           false false "out" _ Hbs eq_refl eq_refl).
Defined.

Lemma segment_no_input_witness :
  let w := Example.the_world ∅ [] in
  @segment (Example.backend 1) (_set_config w) w (Some []) None 4 false false "out"
  = ([EReader (Some []) None], Ok []).
Proof.
  intros w.
  assert (Hbs : 4%Z <> 0%Z) by discriminate.
  apply (@segment_no_input (Example.backend 1) (_set_config w) w (Some []) None 4
           false false "out" Hbs eq_refl eq_refl).
Defined.

(** ** [segment]: the batches fed to the predictor *)

Lemma batch_sizes_app (l1 l2 : list event) :
  batch_sizes (l1 ++ l2) = batch_sizes l1 ++ batch_sizes l2.
Proof. apply flat_map_app. Qed.

Lemma np_array_leading (l : list ndarray) (b : ndarray) :
  np_array l = Ok b -> hd 0%nat (shape b) = length l.
Proof.
  unfold np_array. destruct l as [|a l]; [intros [= <-]; reflexivity|].
  destruct (forallb _ _); [|discriminate]. intros [= <-]. reflexivity.
Qed.

(** The number of rounds is the least one that reaches the last image. *)
Lemma ceil_div_tight (n : nat) (bs loop_num : Z) :
  (1 <= bs)%Z -> (bs < underflow_batch_size)%Z -> ceil_div n bs = Ok loop_num ->
  ((loop_num - 1) * bs < Z.of_nat n)%Z.
Proof.
  intros Hbs Hub. rewrite (ceil_div_exact n bs Hbs Hub). intros [= <-].
  set (q := (inject_Z (Z.of_nat n) / inject_Z bs)%Q).
  assert (Hpos : (0 < inject_Z bs)%Q).
  { change 0%Q with (inject_Z 0). rewrite <- Zlt_Qlt. lia. }
  assert (Hq : (inject_Z (Z.of_nat n) == inject_Z bs * q)%Q).
  { unfold q. rewrite Qmult_div_r; [reflexivity|]. intros E. rewrite E in Hpos.
    apply (Qlt_irrefl 0). assumption. }
  assert (Hlt : (inject_Z bs * inject_Z (Qceiling q - 1) < inject_Z (Z.of_nat n))%Q).
  { rewrite Hq. apply Qmult_lt_l; [assumption | apply Qceiling_lt]. }
  rewrite <- inject_Z_mult, <- Zlt_Qlt in Hlt. lia.
Qed.

Section SegmentBatches.

Context {B : Backend}.

Lemma postprocess_loop_runs_nothing (output : ndarray) (batch_data : list data_item)
    (output_dir : string) (visualization : bool) (idx : list nat)
    (res0 res : list res_dict) (log : list event) :
  for_each idx res0 (postprocess_one output batch_data output_dir visualization)
  = (log, Ok res) ->
  batch_sizes log = [].
Proof.
  intros Hrun.
  change log with ([] ++ log).
  eapply (for_each_invariant _ idx (fun _ _ lacc => batch_sizes lacc = []))
    with (done := []); [| reflexivity | reflexivity | exact Hrun].
  intros done x rest s s' lacc lb _ Hacc Hbody.
  unfold postprocess_one in Hbody.
  inv_bind Hbody. inv_bind Hbody. inv_bind Hbody.
  apply mret_Ok_inv in Hbody as [_ ->].
  rewrite batch_sizes_app, Hacc. reflexivity.
Qed.

(** The sizes of the batches of a successful run, round by round. *)
Lemma segment_batch_sizes self w images paths batch_size use_gpu visualization
    output_dir log res :
  segment self w images paths batch_size use_gpu visualization output_dir = (log, Ok res) ->
  exists all_data loop_num,
    reader images paths = Ok all_data /\
    ceil_div (length all_data) batch_size = Ok loop_num /\
    batch_sizes log =
    map (fun iter_id => length (gather_batch all_data (iter_id * batch_size) batch_size))
        (py_range loop_num).
Proof.
  intros Hrun. unfold segment in Hrun.
  inv_bind Hrun. inv_bind Hrun. inv_bind Hrun.
  match goal with H : reader images paths = Ok ?x |- _ => rename x into all_data end.
  match goal with H : ceil_div _ _ = Ok ?x |- _ => rename x into loop_num end.
  exists all_data, loop_num. split; [assumption|]. split; [assumption|].
  assert (Hguard : batch_sizes l = []).
  { pose proof (require_cuda_log w use_gpu) as Hl. rewrite Hrun0 in Hl.
    cbn in Hl. rewrite Hl. reflexivity. }
  rewrite !batch_sizes_app, Hguard. cbn [batch_sizes flat_map app].
  pose (P := fun (done : list Z) (s : list res_dict) (lacc : list event) =>
    batch_sizes lacc =
    map (fun iter_id => length (gather_batch all_data (iter_id * batch_size) batch_size))
        done).
  change (batch_sizes ?lg) with (batch_sizes ([] ++ lg)).
  eapply (for_each_invariant _ _ P) with (done := []); [| reflexivity | reflexivity | exact Hrun].
  intros done x rest s s' lacc lb _ Hacc Hbody.
  unfold segment_batch in Hbody.
  inv_bind Hbody. inv_bind Hbody. inv_bind Hbody. inv_bind Hbody.
  apply postprocess_loop_runs_nothing in Hbody.
  unfold P. rewrite !batch_sizes_app, Hacc, Hbody, map_app.
  cbn [batch_sizes flat_map app map].
  match goal with H : np_array _ = Ok _ |- _ => apply np_array_leading in H; rewrite H end.
  rewrite length_map. reflexivity.
Qed.

(** X4. In a run of [segment] that returns, with a batch size of at least
    1 and below 2^1075 and n images read, n below 2^53: the predictor is
    run (n + batch_size - 1) // batch_size times, every batch holds at
    least one and at most batch_size images, and the batches hold n
    images together. *)
Theorem segment_batches_in_range self w images paths batch_size use_gpu visualization
    output_dir log res :
  (1 <= batch_size)%Z -> (batch_size < underflow_batch_size)%Z ->
  (forall all_data, reader images paths = Ok all_data ->
                    (Z.of_nat (length all_data) < float64_exact_bound)%Z) ->
  segment self w images paths batch_size use_gpu visualization output_dir = (log, Ok res) ->
  exists all_data,
    reader images paths = Ok all_data /\
    Z.of_nat (length (batch_sizes log))
    = ((Z.of_nat (length all_data) + batch_size - 1) / batch_size)%Z /\
    Forall (fun b => (1 <= b)%nat /\ (Z.of_nat b <= batch_size)%Z) (batch_sizes log) /\
    list_sum (batch_sizes log) = length all_data.
Proof.
  intros Hbs Hub _ Hrun.
  destruct (segment_batch_sizes _ _ _ _ _ _ _ _ _ _ Hrun)
    as (all_data & loop_num & Hread & Hceil & Hsizes).
  exists all_data. split; [assumption|].
  destruct (ceil_div_covers _ _ _ Hbs Hub Hceil) as [H0 Hle].
  pose proof (ceil_div_tight _ _ _ Hbs Hub Hceil) as Hlt.
  set (bsn := Z.to_nat batch_size).
  assert (Hsl : batch_sizes log
                = map (fun k => length (slice (k * bsn) bsn all_data))
                      (seq 0 (Z.to_nat loop_num))).
  { rewrite Hsizes. unfold py_range. rewrite map_map. apply map_ext. intros k.
    rewrite <- (Z2Nat.id batch_size) at 1 2 by lia. fold bsn.
    rewrite gather_batch_slice. reflexivity. }
  rewrite Hsl. split; [|split].
  - rewrite length_map, length_seq, Z2Nat.id by lia.
    apply Z.div_unique with (r := (Z.of_nat (length all_data) + batch_size - 1
                                   - batch_size * loop_num)%Z); lia.
  - apply List.Forall_forall. intros b Hb. apply in_map_iff in Hb as (k & <- & Hk).
    apply in_seq in Hk. unfold slice. rewrite length_firstn, length_skipn.
    assert (Hkb : (Z.of_nat k * batch_size < Z.of_nat (length all_data))%Z) by nia.
    assert (Hkn : (k * bsn < length all_data)%nat) by (unfold bsn; nia).
    unfold bsn in *. lia.
  - rewrite <- length_flat_map. f_equal. apply slices_cover. unfold bsn. nia.
Qed.

End SegmentBatches.

Lemma segment_batches_in_range_witness :
  let w := Example.the_world ∅ [] in
  let imgs := [Example.frame 1; Example.frame 2; Example.frame 3] in
  exists log res,
    @segment (Example.backend 1) (_set_config w) w (Some imgs) None 2 false false "out"
    = (log, Ok res) /\
    batch_sizes log = [2; 1]%nat /\
    Z.of_nat (length (batch_sizes log)) = ((3 + 2 - 1) / 2)%Z /\
    list_sum (batch_sizes log) = 3%nat.
Proof.
  intros w imgs.
  eassert (Hrun : @segment (Example.backend 1) (_set_config w) w (Some imgs) None 2
                    false false "out" = (_, Ok _)) by (vm_compute; reflexivity).
  assert (Hbs : (1 <= 2)%Z) by discriminate.
  assert (Hub : (2 < underflow_batch_size)%Z) by reflexivity.
  assert (Hn : forall all_data,
             @reader (Example.backend 1) (Some imgs) None = Ok all_data ->
             (Z.of_nat (length all_data) < float64_exact_bound)%Z).
  { intros all_data [= <-]. reflexivity. }
  destruct (@segment_batches_in_range (Example.backend 1) _ _ _ _ _ _ _ _ _ _
              Hbs Hub Hn Hrun)
    as (all_data & Hr & Hlen & _ & Hsum).
  injection Hr as <-.
  eexists. eexists. split; [exact Hrun|]. split; [reflexivity|].
  split; [exact Hlen | exact Hsum].
Defined.

(** ** Device selection outside the guard *)

(** X5. An object configured in the environment in which the device
    guard of [segment] and [video_segment] passes has the predictor that
    is asked for: the GPU predictor with [use_gpu], the CPU predictor
    without. *)
Theorem guard_agrees_with_config (w : world) (use_gpu : bool) :
  require_cuda w use_gpu = ([], Ok tt) ->
  select_predictor (_set_config w) use_gpu
  = Ok (if use_gpu then GpuPredictor else CpuPredictor).
Proof.
  unfold require_cuda, select_predictor, _set_config. destruct use_gpu; [|reflexivity].
  cbn [gpu_predictor]. destruct (cuda_visible_device w); [reflexivity | discriminate].
Qed.

Lemma guard_agrees_with_config_witness :
  let w := Example.the_world (<["CUDA_VISIBLE_DEVICES" := "0,1"]> ∅) [] in
  select_predictor (_set_config w) true = Ok GpuPredictor.
Proof.
  intros w. apply (guard_agrees_with_config w true). reflexivity.
Defined.

Section StreamEdges.

Context {B : Backend}.

(** X6. [video_stream_segment] has no device guard: on an object that
    was configured without a usable [CUDA_VISIBLE_DEVICES], a call with
    [use_gpu] preprocesses the frame and then raises [AttributeError]
    (the object has no [gpu_predictor]), in whatever environment it is
    called; nothing is inferred. *)
Theorem stream_gpu_without_predictor (w0 w : world) (frame_org fr : ndarray)
    (frame_id : Z) (prev_gray prev_cfd : ndarray) (h wd : nat) (rest : list nat) :
  cuda_unusable w0 ->
  shape frame_org = h :: wd :: rest ->
  preprocess_v frame_org 192 192 = Ok fr ->
  video_stream_segment (_set_config w0) w frame_org frame_id prev_gray prev_cfd true
  = ([EPreprocessV frame_org 192 192], Raise AttributeError).
Proof.
  intros Hbad Hshape Hpre.
  assert (Hnone : gpu_predictor (_set_config w0) = None).
  { unfold _set_config. cbn [gpu_predictor].
    destruct Hbad as [H|(c & s & H & Hc)]; unfold cuda_visible_device; rewrite H;
      [reflexivity|]. unfold py_int_char. rewrite Hc. reflexivity. }
  unfold video_stream_segment, frame_forward, shape_at, select_predictor.
  rewrite Hshape, Hpre, Hnone. reflexivity.
Qed.

(** X7. A frame with fewer than two axes makes [video_stream_segment]
    raise [IndexError] before anything is called. *)
Theorem stream_frame_without_two_axes self w frame_org frame_id prev_gray prev_cfd use_gpu :
  (length (shape frame_org) < 2)%nat ->
  video_stream_segment self w frame_org frame_id prev_gray prev_cfd use_gpu
  = ([], Raise IndexError).
Proof.
  intros Hlen. unfold video_stream_segment, shape_at.
  destruct (shape frame_org) as [|h [|wd rest]]; cbn in Hlen; try lia; reflexivity.
Qed.

(** X8. [video_stream_segment] on a frame of H rows and W columns is one
    turn of the loop of [video_segment] on a capture of width W and
    height H, started from the state the stream call uses: when the
    stream call returns a matte that composes with the frame, the loop
    body makes the same calls in the same order, keeps the same gray
    frame and composes that matte. *)
Theorem stream_is_one_loop_turn self w frame_org frame_id prev_gray prev_cfd use_gpu
    (H W : nat) (channels : list nat) log m g o comb :
  shape frame_org = H :: W :: channels ->
  video_stream_segment self w frame_org frame_id prev_gray prev_cfd use_gpu
  = (log, Ok (m, g, o)) ->
  composite m frame_org = Ok comb ->
  exists fused,
    frame_step self use_gpu 192 192 W H the_disflow true frame_org
               (stream_prev frame_id prev_gray uint8) (stream_prev frame_id prev_cfd float32)
    = (log, Ok (g, fused, comb)).
Proof.
  intros Hshape Hrun Hcomb.
  apply video_stream_segment_Ok_inv in Hrun
    as (h & wd & log_fwd & sm & fused & blurred & H0 & H1 & Hf & Hp & Hb & Ht & Hr & ->).
  unfold shape_at in H0, H1. rewrite Hshape in H0, H1. cbn in H0, H1.
  injection H0 as <-. injection H1 as <-.
  exists fused. unfold frame_step. rewrite Hf. run_cbn.
  rewrite Hp. run_cbn. rewrite Hb. run_cbn. rewrite Ht. run_cbn. rewrite Hr. run_cbn.
  rewrite Hcomb. reflexivity.
Qed.

End StreamEdges.

Lemma stream_gpu_without_predictor_witness :
  let w0 := Example.the_world ∅ [] in
  let w := Example.the_world (<["CUDA_VISIBLE_DEVICES" := "0"]> ∅) [] in
  @video_stream_segment (Example.backend 1) (_set_config w0) w (Example.frame 7) 1
    (np_zeros [1; 1]%nat uint8) (np_zeros [1; 1]%nat float32) true
  = ([EPreprocessV (Example.frame 7) 192 192], Raise AttributeError).
Proof.
  intros w0 w.
  assert (Hbad : cuda_unusable w0) by (left; reflexivity).
  apply (@stream_gpu_without_predictor (Example.backend 1) w0 w (Example.frame 7) _ 1%Z
           _ _ 1%nat 2%nat [3%nat] Hbad eq_refl eq_refl).
Defined.

Lemma stream_frame_without_two_axes_witness :
  let w := Example.the_world ∅ [] in
  @video_stream_segment (Example.backend 1) (_set_config w) w
    (mk_ndarray uint8 [4]%nat [1; 2; 3; 4]%Q) 1
    (np_zeros [1; 1]%nat uint8) (np_zeros [1; 1]%nat float32) false
  = ([], Raise IndexError).
Proof.
  intros w.
  apply (@stream_frame_without_two_axes (Example.backend 1)). cbn. lia.
Defined.

Lemma stream_is_one_loop_turn_witness :
  let w := Example.the_world ∅ [] in
  let self := _set_config w in
  let pg0 := Example.pixel uint8 [192; 192]%nat 5 in
  let pc0 := Example.pixel float32 [192; 192]%nat 200 in
  exists log m g o comb fused,
    @video_stream_segment (Example.backend 1) self w (Example.frame 7) 2 pg0 pc0 false
    = (log, Ok (m, g, o)) /\
    composite m (Example.frame 7) = Ok comb /\
    @frame_step (Example.backend 1) self false 192 192 2 1 the_disflow true
      (Example.frame 7) pg0 pc0 = (log, Ok (g, fused, comb)).
Proof.
  intros w self pg0 pc0.
  eassert (Hs : @video_stream_segment (Example.backend 1) self w (Example.frame 7) 2
                  pg0 pc0 false = (_, Ok (_, _, _)))
    by (lazy -[repeat numel round_float32]; reflexivity).
  eassert (Hc : composite (Example.pixel float32 [1; 2]%nat 0) (Example.frame 7) = Ok _)
    by reflexivity.
  destruct (@stream_is_one_loop_turn (Example.backend 1) self w (Example.frame 7) 2
              pg0 pc0 false 1%nat 2%nat [3%nat] _ _ _ _ _ eq_refl Hs Hc) as [fused Hstep].
  do 5 eexists. exists fused. split; [exact Hs|]. split; [exact Hc | exact Hstep].
Defined.

(** ** [video_segment]: what a run calls *)

Lemma bind_log_Forall {A C} (P : event -> Prop) (m : M A) (f : A -> M C) :
  Forall P (fst m) ->
  (forall l a, m = (l, Ok a) -> Forall P (fst (f a))) ->
  Forall P (fst (m ≫= f)).
Proof.
  intros Hm Hf. destruct m as [l1 [a|e]]; unfold mbind, M_bind; [|exact Hm].
  specialize (Hf l1 a eq_refl). destruct (f a) as [l2 r]. cbn [fst] in *.
  apply Forall_app. split; assumption.
Qed.

Lemma bind_Ok_eq {A C} (m : M A) (f : A -> M C) (l : list event) (a : A) :
  m = (l, Ok a) -> m ≫= f = (l ++ fst (f a), snd (f a)).
Proof. intros ->. unfold mbind, M_bind. destruct (f a). reflexivity. Qed.

Lemma bind_Raise_eq {A C} (m : M A) (f : A -> M C) (l : list event) (e : exn) :
  m = (l, Raise e) -> m ≫= f = (l, Raise e).
Proof. intros ->. reflexivity. Qed.

Lemma written_app (l1 l2 : list event) : written (l1 ++ l2) = written l1 ++ written l2.
Proof. apply flat_map_app. Qed.

Lemma shown_app (l1 l2 : list event) : shown (l1 ++ l2) = shown l1 ++ shown l2.
Proof. apply flat_map_app. Qed.

Lemma fusion_calls_app (l1 l2 : list event) :
  fusion_calls (l1 ++ l2) = fusion_calls l1 ++ fusion_calls l2.
Proof. apply flat_map_app. Qed.

(** Frame events are neither written nor shown frames. *)
Lemma frame_events_silent (log : list event) :
  Forall (fun ev => frame_event ev = true) log ->
  written log = [] /\ shown log = [].
Proof.
  induction 1 as [|ev log Hev _ [IHw IHs]]; [split; reflexivity|].
  destruct ev; try discriminate Hev; cbn [written shown flat_map app]; auto.
Qed.

Section VideoRuns.

Context {B : Backend}.

Lemma frame_step_log_events self use_gpu rw rh width height disflow is_init
    frame_org prev_gray prev_cfd :
  Forall (fun ev => frame_event ev = true)
         (fst (frame_step self use_gpu rw rh width height disflow is_init
                 frame_org prev_gray prev_cfd)).
Proof.
  unfold frame_step, frame_forward.
  run; cbn [composite]; repeat (constructor; [reflexivity|]); try constructor.
  all: destruct (composite _ _); cbn [fst app]; repeat (constructor; [reflexivity|]);
    constructor.
Qed.

Lemma file_loop_log_events self use_gpu rw rh width height disflow is_init frames :
  forall prev_gray prev_cfd,
  Forall (fun ev => frame_event ev = true \/ exists f, ev = EWrite f)
         (fst (file_loop self use_gpu rw rh width height disflow is_init
                 frames prev_gray prev_cfd)).
Proof.
  induction frames as [|frame_org frames IH]; intros prev_gray prev_cfd.
  - constructor.
  - cbn [file_loop]. apply bind_log_Forall.
    + eapply List.Forall_impl; [|apply frame_step_log_events]. cbn. auto.
    + intros l [[g c] comb] _. apply bind_log_Forall.
      * constructor; [right; eauto | constructor].
      * intros _ _ _. apply IH.
Qed.

Lemma camera_loop_log_events self w use_gpu rw rh width height disflow is_init frames :
  forall n prev_gray prev_cfd,
  Forall (fun ev => frame_event ev = true \/ screen_event ev = true)
         (fst (camera_loop self w use_gpu rw rh width height disflow is_init
                 frames n prev_gray prev_cfd)).
Proof.
  induction frames as [|frame_org frames IH]; intros n prev_gray prev_cfd.
  - constructor.
  - cbn [camera_loop]. apply bind_log_Forall.
    + eapply List.Forall_impl; [|apply frame_step_log_events]. cbn. auto.
    + intros l [[g c] comb] _. apply bind_log_Forall.
      * constructor; [right; reflexivity | constructor].
      * intros _ _ _. apply bind_log_Forall.
        -- constructor; [right; reflexivity | constructor].
        -- intros _ key _. destruct (Z.land key 255 =? 113)%Z; [constructor | apply IH].
Qed.

(** X9. When the capture cannot be opened, [video_segment] raises
    [IOError] right after trying: no frame is read or processed, no
    directory or file is created. *)
Theorem video_segment_capture_not_opened self w video_path use_gpu save_dir :
  require_cuda w use_gpu = ([], Ok tt) ->
  cap_isOpened (open_capture w (capture_source video_path)) = false ->
  video_segment self w video_path use_gpu save_dir
  = ([EVideoCapture (capture_source video_path)], Raise IOError).
Proof.
  intros Hguard Hclosed. unfold video_segment. rewrite Hguard. run_cbn.
  fold (capture_source video_path). rewrite Hclosed. reflexivity.
Qed.

End VideoRuns.

Lemma file_events_not_shown (log : list event) :
  Forall (fun ev => frame_event ev = true \/ exists f, ev = EWrite f) log ->
  shown log = [].
Proof.
  induction 1 as [|ev l [Hf|[f ->]] _ IH]; [reflexivity | | exact IH].
  destruct ev; try discriminate Hf; exact IH.
Qed.

Lemma camera_events_not_written (log : list event) :
  Forall (fun ev => frame_event ev = true \/ screen_event ev = true) log ->
  written log = [].
Proof.
  induction 1 as [|ev l [Hf|Hf] _ IH]; [reflexivity | |];
    destruct ev; try discriminate Hf; exact IH.
Qed.

Section VideoOutputs.

Context {B : Backend}.

(** The shape of every run of [video_segment]. *)
Lemma video_segment_run self w video_path use_gpu save_dir :
  let cap := open_capture w (capture_source video_path) in
  let zg := np_zeros [192; 192]%nat uint8 in
  let zc := np_zeros [192; 192]%nat float32 in
  let run := video_segment self w video_path use_gpu save_dir in
  run = ([], Raise RuntimeError) \/
  run = ([EVideoCapture (capture_source video_path)], Raise IOError) \/
  (exists p lf r,
     video_path = Some p /\
     file_loop self use_gpu 192 192 (cap_width cap) (cap_height cap) the_disflow true
               (cap_frames cap) zg zc = (lf, r) /\
     run = (EVideoCapture (capture_source video_path)
            :: file_head w save_dir cap ++ lf ++ releases r ["cap_video"; "cap_out"], r)) \/
  (exists lf r,
     video_path = None /\
     camera_loop self w use_gpu 192 192 (cap_width cap) (cap_height cap) the_disflow true
                 (cap_frames cap) 0 zg zc = (lf, r) /\
     run = (EVideoCapture None :: lf ++ releases r ["cap_video"], r)).
Proof.
  intros cap zg zc run. subst run. unfold video_segment.
  fold (capture_source video_path). fold cap. fold zg. fold zc. fold the_disflow.
  assert (Hg : require_cuda w use_gpu = ([], Ok tt)
               \/ require_cuda w use_gpu = ([], Raise RuntimeError)).
  { unfold require_cuda. destruct use_gpu; [|left; reflexivity].
    destruct (cuda_visible_device w); [left | right]; reflexivity. }
  destruct Hg as [Hg|Hg]; rewrite Hg; [|left; reflexivity]. right. run_cbn.
  destruct (cap_isOpened cap); cbn [negb]; [|left; reflexivity]. right. run_cbn.
  destruct video_path as [p|].
  - left.
    destruct (file_loop self use_gpu 192 192 (cap_width cap) (cap_height cap) the_disflow
                true (cap_frames cap) zg zc) as [lf r] eqn:Hloop.
    exists p, lf, r. split; [reflexivity|]. split; [reflexivity|].
    unfold file_head.
    destruct (negb (path_exists w save_dir)); destruct r as [[]|e]; run_cbn;
      rewrite ?app_nil_r; reflexivity.
  - right.
    destruct (camera_loop self w use_gpu 192 192 (cap_width cap) (cap_height cap)
                the_disflow true (cap_frames cap) 0 zg zc) as [lf r] eqn:Hloop.
    exists lf, r. split; [reflexivity|]. split; [reflexivity|].
    destruct r as [[]|e]; run_cbn; rewrite ?app_nil_r; reflexivity.
Qed.

Lemma file_loop_Ok_written self use_gpu rw rh width height disflow is_init frames :
  forall prev_gray prev_cfd log u,
  file_loop self use_gpu rw rh width height disflow is_init frames prev_gray prev_cfd
  = (log, Ok u) ->
  Forall2 composite_of frames (written log).
Proof.
  induction frames as [|frame_org frames IH]; intros prev_gray prev_cfd log u Hrun.
  - cbn [file_loop] in Hrun. apply mret_Ok_inv in Hrun as [_ ->]. constructor.
  - cbn [file_loop] in Hrun. inv_bind Hrun.
    match goal with p : (ndarray * ndarray * ndarray)%type |- _ =>
      destruct p as [[g c] comb] end.
    inv_bind Hrun.
    match goal with H : frame_step _ _ _ _ _ _ _ _ _ _ _ = (?l, _) |- _ =>
      pose proof (frame_step_log_events self use_gpu rw rh width height disflow is_init
                    frame_org prev_gray prev_cfd) as Hev;
      rewrite H in Hev; cbn [fst] in Hev;
      apply frame_events_silent in Hev as [Hw _];
      apply frame_step_Ok_inv in H as (? & ? & ? & ? & im & _ & _ & _ & _ & _ & Hc & _)
    end.
    rewrite !written_app, Hw. cbn [written flat_map app].
    constructor; [exists im; exact Hc | eapply IH; eassumption].
Qed.

(** X10. A run of [video_segment] on a path that ends without raising
    creates the writer once, for "result.avi" in [save_dir] with the
    size and rate of the capture, writes exactly one frame per frame of
    the capture, in order, each a composite of that frame, and shows
    nothing. *)
Theorem video_segment_writes_every_frame self w p use_gpu save_dir log :
  video_segment self w (Some p) use_gpu save_dir = (log, Ok tt) ->
  let cap := open_capture w (capture_source (Some p)) in
  Forall2 composite_of (cap_frames cap) (written log) /\
  In (EVideoWriter (osp_join save_dir "result.avi") (cap_fps cap)
        (cap_width cap, cap_height cap)) log /\
  shown log = [].
Proof.
  intros Hrun cap.
  destruct (video_segment_run self w (Some p) use_gpu save_dir)
    as [H|[H|[(p' & lf & r & _ & Hloop & H)|(lf & r & Hp & _ & _)]]];
    try discriminate Hp; rewrite Hrun in H; try discriminate H.
  injection H as -> <-. fold cap in Hloop |- *.
  pose proof (file_loop_Ok_written _ _ _ _ _ _ _ _ _ _ _ _ _ Hloop) as Hw.
  assert (Hs : shown lf = []).
  { apply file_events_not_shown.
    pose proof (file_loop_log_events self use_gpu 192 192 (cap_width cap) (cap_height cap)
                  the_disflow true (cap_frames cap) (np_zeros [192; 192]%nat uint8)
                  (np_zeros [192; 192]%nat float32)) as Hev.
    rewrite Hloop in Hev. exact Hev. }
  unfold file_head, releases.
  destruct (negb (path_exists w save_dir));
    cbn [written shown flat_map app map];
    rewrite ?written_app, ?shown_app, Hs; cbn [written shown flat_map app];
    rewrite ?app_nil_r; (split; [exact Hw|]); (split; [|reflexivity]).
  - right. right. right. left. reflexivity.
  - right. right. left. reflexivity.
Qed.

Lemma loop_events_not_released (log : list event) :
  Forall (fun ev => (frame_event ev = true \/ exists f, ev = EWrite f)
                    \/ screen_event ev = true) log ->
  forall what, ~ In (ERelease what) log.
Proof.
  intros Hall what Hin. rewrite List.Forall_forall in Hall.
  destruct (Hall _ Hin) as [[Hf|[f Hf]]|Hf]; discriminate Hf.
Qed.

(** X11. [video_segment] releases the capture exactly when its run ends
    without raising: a failure of the guard, of the opening or of the
    processing of any frame leaves the capture unreleased, and a run
    that returns has released it. *)
Theorem video_segment_releases_iff_returns self w video_path use_gpu save_dir :
  In (ERelease "cap_video") (fst (video_segment self w video_path use_gpu save_dir))
  <-> snd (video_segment self w video_path use_gpu save_dir) = Ok tt.
Proof.
  destruct (video_segment_run self w video_path use_gpu save_dir)
    as [H|[H|[(p & lf & r & _ & Hloop & H)|(lf & r & _ & Hloop & H)]]];
    rewrite H; cbn [fst snd].
  - split; [intros [] | discriminate].
  - split; [intros [He|[]]; discriminate He | discriminate].
  - assert (Hnr : ~ In (ERelease "cap_video") lf).
    { apply loop_events_not_released.
      pose proof (file_loop_log_events self use_gpu 192 192
                    (cap_width (open_capture w (capture_source video_path)))
                    (cap_height (open_capture w (capture_source video_path)))
                    the_disflow true
                    (cap_frames (open_capture w (capture_source video_path)))
                    (np_zeros [192; 192]%nat uint8) (np_zeros [192; 192]%nat float32)) as Hev.
      rewrite Hloop in Hev. eapply List.Forall_impl; [|exact Hev]. cbn. auto. }
    destruct r as [[]|e]; cbn [releases map]; split; try reflexivity; try discriminate.
    + intros _. right. apply in_or_app. right. apply in_or_app. right. left. reflexivity.
    + rewrite app_nil_r. intros [He|Hin]; [discriminate He|].
      apply in_app_or in Hin as [Hin|Hin]; [|contradiction].
      exfalso. unfold file_head in Hin. destruct (negb _); cbn in Hin;
        repeat (destruct Hin as [Hin|Hin]; try discriminate Hin); contradiction.
  - assert (Hnr : ~ In (ERelease "cap_video") lf).
    { apply loop_events_not_released.
      pose proof (camera_loop_log_events self w use_gpu 192 192
                    (cap_width (open_capture w (capture_source video_path)))
                    (cap_height (open_capture w (capture_source video_path)))
                    the_disflow true
                    (cap_frames (open_capture w (capture_source video_path))) 0
                    (np_zeros [192; 192]%nat uint8) (np_zeros [192; 192]%nat float32)) as Hev.
      rewrite Hloop in Hev. eapply List.Forall_impl; [|exact Hev]. cbn. tauto. }
    destruct r as [[]|e]; cbn [releases map]; split; try reflexivity; try discriminate.
    + intros _. right. apply in_or_app. right. left. reflexivity.
    + rewrite app_nil_r. intros [He|Hin]; [discriminate He | contradiction].
Qed.

(** X12. [video_segment] opens the camera when [video_path] is [None] or
    empty and the path otherwise; but it is [video_path is not None]
    that decides what is done with the frames: without a path nothing is
    printed, created or written, and with a path (the empty one too)
    nothing is shown and the keyboard is not read. *)
Theorem video_segment_dispatch self w video_path use_gpu save_dir :
  let log := fst (video_segment self w video_path use_gpu save_dir) in
  (forall source, In (EVideoCapture source) log -> source = capture_source video_path) /\
  (video_path = None -> Forall (fun ev => file_event ev = false) log) /\
  (video_path <> None -> Forall (fun ev => screen_event ev = false) log).
Proof.
  intros log. subst log.
  assert (Hframe : forall ev, frame_event ev = true ->
            file_event ev = false /\ screen_event ev = false
            /\ forall source, ev <> EVideoCapture source).
  { intros ev Hev. destruct ev; try discriminate Hev; repeat split; discriminate. }
  destruct (video_segment_run self w video_path use_gpu save_dir)
    as [H|[H|[(p & lf & r & Hp & Hloop & H)|(lf & r & Hp & Hloop & H)]]];
    rewrite H; cbn [fst].
  - repeat split; intros; [contradiction | constructor | constructor].
  - repeat split.
    + intros source [[= <-]|[]]. reflexivity.
    + intros _. repeat constructor.
    + intros _. repeat constructor.
  - pose proof (file_loop_log_events self use_gpu 192 192
                  (cap_width (open_capture w (capture_source video_path)))
                  (cap_height (open_capture w (capture_source video_path)))
                  the_disflow true
                  (cap_frames (open_capture w (capture_source video_path)))
                  (np_zeros [192; 192]%nat uint8) (np_zeros [192; 192]%nat float32)) as Hev.
    rewrite Hloop in Hev. cbn [fst] in Hev. rewrite List.Forall_forall in Hev.
    assert (Hall : forall ev,
              In ev (file_head w save_dir (open_capture w (capture_source video_path))
                     ++ lf ++ releases r ["cap_video"; "cap_out"]) ->
              screen_event ev = false /\ forall source, ev <> EVideoCapture source).
    { intros ev Hin. apply in_app_or in Hin as [Hin|Hin].
      - unfold file_head in Hin. destruct (negb _); cbn in Hin;
          repeat (destruct Hin as [<-|Hin]; [split; [reflexivity | discriminate]|]);
          contradiction.
      - apply in_app_or in Hin as [Hin|Hin].
        + destruct (Hev _ Hin) as [Hf|[f ->]]; [|split; [reflexivity | discriminate]].
          destruct (Hframe _ Hf) as (_ & Hs & Hc). auto.
        + destruct r as [[]|e]; cbn in Hin;
            repeat (destruct Hin as [<-|Hin]; [split; [reflexivity | discriminate]|]);
            contradiction. }
    repeat split.
    + intros source [[= <-]|Hin]; [reflexivity|]. destruct (Hall _ Hin) as [_ Hc].
      exfalso. apply (Hc source). reflexivity.
    + intros Hnone. rewrite Hnone in Hp. discriminate Hp.
    + intros _. constructor; [reflexivity|]. apply List.Forall_forall.
      intros ev Hin. apply (Hall ev Hin).
  - pose proof (camera_loop_log_events self w use_gpu 192 192
                  (cap_width (open_capture w (capture_source video_path)))
                  (cap_height (open_capture w (capture_source video_path)))
                  the_disflow true
                  (cap_frames (open_capture w (capture_source video_path))) 0
                  (np_zeros [192; 192]%nat uint8) (np_zeros [192; 192]%nat float32)) as Hev.
    rewrite Hloop in Hev. cbn [fst] in Hev. rewrite List.Forall_forall in Hev.
    assert (Hall : forall ev, In ev (lf ++ releases r ["cap_video"]) ->
              file_event ev = false /\ forall source, ev <> EVideoCapture source).
    { intros ev Hin. apply in_app_or in Hin as [Hin|Hin].
      - destruct (Hev _ Hin) as [Hf|Hs].
        + destruct (Hframe _ Hf) as (Hfe & _ & Hc). auto.
        + destruct ev; try discriminate Hs; split; try reflexivity; discriminate.
      - destruct r as [[]|e]; cbn in Hin;
          repeat (destruct Hin as [<-|Hin]; [split; [reflexivity | discriminate]|]);
          contradiction. }
    subst video_path. repeat split.
    + intros source [[= <-]|Hin]; [reflexivity|]. destruct (Hall _ Hin) as [_ Hc].
      exfalso. apply (Hc source). reflexivity.
    + intros _. constructor; [reflexivity|]. apply List.Forall_forall.
      intros ev Hin. apply (Hall ev Hin).
    + intros Hne. contradiction.
Qed.

End VideoOutputs.

(** ** [video_segment]: the camera loop and the state it threads *)

Section VideoLoops.

Context {B : Backend}.

Lemma camera_loop_Ok_shown self w use_gpu rw rh width height disflow is_init frames :
  forall n prev_gray prev_cfd log u,
  camera_loop self w use_gpu rw rh width height disflow is_init frames n prev_gray prev_cfd
  = (log, Ok u) ->
  (forall k, (k < length frames)%nat ->
     quit_key (wait_key w (n + k)) = true ->
     (forall j, (j < k)%nat -> quit_key (wait_key w (n + j)) = false) ->
     Forall2 composite_of (firstn (S k) frames) (shown log)) /\
  ((forall j, (j < length frames)%nat -> quit_key (wait_key w (n + j)) = false) ->
   Forall2 composite_of frames (shown log)).
Proof.
  induction frames as [|frame_org frames IH]; intros n prev_gray prev_cfd log u Hrun.
  - cbn [camera_loop] in Hrun. apply mret_Ok_inv in Hrun as [_ ->].
    split; [intros k Hk; cbn in Hk; lia | intros _; constructor].
  - cbn [camera_loop] in Hrun. inv_bind Hrun.
    match goal with p : (ndarray * ndarray * ndarray)%type |- _ =>
      destruct p as [[g c] comb] end.
    inv_bind Hrun. inv_bind Hrun.
    match goal with H : Ok (wait_key w n) = Ok ?key |- _ => injection H as <- end.
    match goal with H : frame_step _ _ _ _ _ _ _ _ _ _ _ = (?l, _) |- _ =>
      pose proof (frame_step_log_events self use_gpu rw rh width height disflow is_init
                    frame_org prev_gray prev_cfd) as Hev;
      rewrite H in Hev; cbn [fst] in Hev;
      apply frame_events_silent in Hev as [_ Hs];
      apply frame_step_Ok_inv in H as (? & ? & ? & ? & im & _ & _ & _ & _ & _ & Hc & _)
    end.
    rewrite !shown_app, Hs. cbn [shown flat_map app].
    assert (Hcomb : composite_of frame_org comb) by (exists im; exact Hc).
    fold (quit_key (wait_key w n)) in Hrun.
    destruct (quit_key (wait_key w n)) eqn:Hq.
    + apply mret_Ok_inv in Hrun as [_ ->]. cbn [shown flat_map].
      split.
      * intros [|k] _ _ Hbefore.
        -- cbn [firstn]. constructor; [exact Hcomb | constructor].
        -- specialize (Hbefore 0%nat ltac:(lia)). rewrite Nat.add_0_r in Hbefore. congruence.
      * intros Hnone. specialize (Hnone 0%nat ltac:(cbn; lia)).
        rewrite Nat.add_0_r in Hnone. congruence.
    + destruct (IH _ _ _ _ _ Hrun) as [IH1 IH2]. split.
      * intros [|k] Hk Hquit Hbefore.
        -- rewrite Nat.add_0_r in Hquit. congruence.
        -- cbn [firstn]. constructor; [exact Hcomb|].
           apply IH1.
           ++ cbn in Hk. lia.
           ++ rewrite <- Hquit. f_equal. f_equal. lia.
           ++ intros j Hj. rewrite <- (Hbefore (S j)) by lia. f_equal. f_equal. lia.
      * intros Hnone. constructor; [exact Hcomb|]. apply IH2.
        intros j Hj. rewrite <- (Hnone (S j)) by (cbn; lia). f_equal. f_equal. lia.
Qed.

(** X13. In a run of [video_segment] on the camera that ends without
    raising, the key is read after each frame is shown: if the k-th key
    read (counting from 0) is the first whose low byte is 'q' and the
    camera delivers more than k frames, exactly the first k + 1 frames
    are shown, each as its composite; if no key read is 'q', every
    frame delivered is shown.  Nothing is written. *)
Theorem video_segment_camera_until_q self w use_gpu save_dir log :
  video_segment self w None use_gpu save_dir = (log, Ok tt) ->
  let frames := cap_frames (open_capture w None) in
  (forall k, (k < length frames)%nat ->
     quit_key (wait_key w k) = true ->
     (forall j, (j < k)%nat -> quit_key (wait_key w j) = false) ->
     Forall2 composite_of (firstn (S k) frames) (shown log)) /\
  ((forall j, (j < length frames)%nat -> quit_key (wait_key w j) = false) ->
   Forall2 composite_of frames (shown log)) /\
  written log = [].
Proof.
  intros Hrun frames.
  destruct (video_segment_run self w None use_gpu save_dir)
    as [H|[H|[(p & lf & r & Hp & _ & _)|(lf & r & _ & Hloop & H)]]];
    try discriminate Hp; rewrite Hrun in H; try discriminate H.
  injection H as -> <-. cbn [capture_source] in Hloop.
  assert (Hlog : shown (EVideoCapture None :: lf ++ releases (Ok tt) ["cap_video"])
                 = shown lf).
  { cbn [shown flat_map app releases map]. rewrite shown_app. cbn. apply app_nil_r. }
  assert (Hw : written (EVideoCapture None :: lf ++ releases (Ok tt) ["cap_video"]) = []).
  { cbn [written flat_map app releases map]. rewrite written_app. cbn. rewrite app_nil_r.
    apply camera_events_not_written.
    pose proof (camera_loop_log_events self w use_gpu 192 192
                  (cap_width (open_capture w None)) (cap_height (open_capture w None))
                  the_disflow true frames 0
                  (np_zeros [192; 192]%nat uint8) (np_zeros [192; 192]%nat float32)) as Hev.
    unfold frames in Hev. rewrite Hloop in Hev. exact Hev. }
  rewrite Hlog, Hw.
  destruct (camera_loop_Ok_shown _ _ _ _ _ _ _ _ _ _ _ _ _ _ _ Hloop) as [H1 H2].
  split; [|split; [exact H2 | reflexivity]].
  intros k Hk Hq Hbefore. apply H1; assumption.
Qed.

(** What one turn of the loop hands to the fusion, in every run. *)
Lemma frame_step_fusion self use_gpu rw rh width height disflow is_init
    frame_org prev_gray prev_cfd :
  let r := frame_step self use_gpu rw rh width height disflow is_init
                      frame_org prev_gray prev_cfd in
  (fusion_calls (fst r) = [] /\ exists e, snd r = Raise e) \/
  (exists cg sm,
     fusion_calls (fst r) = [(cg, sm, prev_gray, prev_cfd)] /\
     match postprocess_v cg sm prev_gray prev_cfd disflow is_init with
     | Ok fused => (exists e, snd r = Raise e) \/ (exists comb, snd r = Ok (cg, fused, comb))
     | Raise _ => exists e, snd r = Raise e
     end).
Proof.
  unfold frame_step, frame_forward.
  run;
    first
      [ left; split; [reflexivity | eexists; reflexivity]
      | right; eexists _, _; split; [reflexivity|];
        match goal with H : postprocess_v _ _ _ _ _ _ = _ |- _ => rewrite H end;
        first [ eexists; reflexivity
              | left; eexists; reflexivity
              | right; eexists; reflexivity ] ].
Qed.

Lemma threaded_single disflow is_init cg sm pg pc :
  threaded disflow is_init pg pc [(cg, sm, pg, pc)].
Proof.
  cbn [threaded]. split; [reflexivity|]. split; [reflexivity|].
  destruct (postprocess_v cg sm pg pc disflow is_init); [exact I | reflexivity].
Qed.

Lemma file_loop_threaded self use_gpu rw rh width height disflow is_init frames :
  forall prev_gray prev_cfd,
  threaded disflow is_init prev_gray prev_cfd
    (fusion_calls (fst (file_loop self use_gpu rw rh width height disflow is_init
                          frames prev_gray prev_cfd))).
Proof.
  induction frames as [|frame_org frames IH]; intros prev_gray prev_cfd; [exact I|].
  cbn [file_loop].
  pose proof (frame_step_fusion self use_gpu rw rh width height disflow is_init
                frame_org prev_gray prev_cfd) as Hstep. cbn zeta in Hstep.
  destruct (frame_step self use_gpu rw rh width height disflow is_init
              frame_org prev_gray prev_cfd) as [l r]. cbn [fst snd] in Hstep.
  destruct Hstep as [[Hnone [e ->]]|(cg & sm & Hone & Hres)].
  - rewrite (bind_Raise_eq _ _ l e eq_refl). cbn [fst]. rewrite Hnone. exact I.
  - destruct (postprocess_v cg sm prev_gray prev_cfd disflow is_init) as [fused|e0] eqn:Hp.
    + destruct Hres as [[e ->]|[comb ->]].
      * rewrite (bind_Raise_eq _ _ l e eq_refl). cbn [fst]. rewrite Hone.
        apply threaded_single.
      * rewrite (bind_Ok_eq _ _ l _ eq_refl). cbn [fst].
        unfold call at 1. rewrite (bind_Ok_eq _ _ [EWrite comb] tt eq_refl). cbn [fst].
        rewrite !fusion_calls_app, Hone. cbn [fusion_calls flat_map app threaded].
        rewrite Hp. split; [reflexivity|]. split; [reflexivity|]. apply IH.
    + destruct Hres as [e ->].
      rewrite (bind_Raise_eq _ _ l e eq_refl). cbn [fst]. rewrite Hone.
      apply threaded_single.
Qed.

Lemma camera_loop_threaded self w use_gpu rw rh width height disflow is_init frames :
  forall n prev_gray prev_cfd,
  threaded disflow is_init prev_gray prev_cfd
    (fusion_calls (fst (camera_loop self w use_gpu rw rh width height disflow is_init
                          frames n prev_gray prev_cfd))).
Proof.
  induction frames as [|frame_org frames IH]; intros n prev_gray prev_cfd; [exact I|].
  cbn [camera_loop].
  pose proof (frame_step_fusion self use_gpu rw rh width height disflow is_init
                frame_org prev_gray prev_cfd) as Hstep. cbn zeta in Hstep.
  destruct (frame_step self use_gpu rw rh width height disflow is_init
              frame_org prev_gray prev_cfd) as [l r]. cbn [fst snd] in Hstep.
  destruct Hstep as [[Hnone [e ->]]|(cg & sm & Hone & Hres)].
  - rewrite (bind_Raise_eq _ _ l e eq_refl). cbn [fst]. rewrite Hnone. exact I.
  - destruct (postprocess_v cg sm prev_gray prev_cfd disflow is_init) as [fused|e0] eqn:Hp.
    + destruct Hres as [[e ->]|[comb ->]].
      * rewrite (bind_Raise_eq _ _ l e eq_refl). cbn [fst]. rewrite Hone.
        apply threaded_single.
      * rewrite (bind_Ok_eq _ _ l _ eq_refl). cbn [fst].
        unfold call at 1.
        rewrite (bind_Ok_eq _ _ [EImshow "HumanSegmentation" comb] tt eq_refl). cbn [fst].
        rewrite (bind_Ok_eq _ _ [EWaitKey n] (wait_key w n) eq_refl). cbn [fst].
        rewrite !fusion_calls_app, Hone. cbn [fusion_calls flat_map app threaded].
        rewrite Hp. split; [reflexivity|]. split; [reflexivity|].
        destruct (Z.land (wait_key w n) 255 =? 113)%Z; [exact I | apply IH].
    + destruct Hres as [e ->].
      rewrite (bind_Raise_eq _ _ l e eq_refl). cbn [fst]. rewrite Hone.
      apply threaded_single.
Qed.

(** X14. In every run of [video_segment], the fusion calls thread the
    state: the first call receives all-zero 192 x 192 arrays, and each
    later call receives the gray frame of the call before it and the map
    that call returned (before blur and thresholding); a fusion call
    that raises is the last one. *)
Theorem video_segment_threads_state self w video_path use_gpu save_dir :
  threaded the_disflow true
    (np_zeros [192; 192]%nat uint8) (np_zeros [192; 192]%nat float32)
    (fusion_calls (fst (video_segment self w video_path use_gpu save_dir))).
Proof.
  destruct (video_segment_run self w video_path use_gpu save_dir)
    as [H|[H|[(p & lf & r & _ & Hloop & H)|(lf & r & _ & Hloop & H)]]];
    rewrite H; cbn [fst]; try exact I.
  - assert (Hlog : fusion_calls
                     (EVideoCapture (capture_source video_path)
                      :: file_head w save_dir (open_capture w (capture_source video_path))
                      ++ lf ++ releases r ["cap_video"; "cap_out"])
                   = fusion_calls lf).
    { unfold file_head. cbn [fusion_calls flat_map app].
      rewrite !fusion_calls_app.
      destruct (negb _), r as [[]|e]; cbn; rewrite ?app_nil_r; reflexivity. }
    rewrite Hlog.
    pose proof (file_loop_threaded self use_gpu 192 192
                  (cap_width (open_capture w (capture_source video_path)))
                  (cap_height (open_capture w (capture_source video_path)))
                  the_disflow true
                  (cap_frames (open_capture w (capture_source video_path)))
                  (np_zeros [192; 192]%nat uint8) (np_zeros [192; 192]%nat float32)) as Ht.
    rewrite Hloop in Ht. exact Ht.
  - assert (Hlog : fusion_calls (EVideoCapture None :: lf ++ releases r ["cap_video"])
                   = fusion_calls lf).
    { cbn [fusion_calls flat_map app]. rewrite !fusion_calls_app.
      destruct r as [[]|e]; cbn; rewrite ?app_nil_r; reflexivity. }
    rewrite Hlog.
    pose proof (camera_loop_threaded self w use_gpu 192 192
                  (cap_width (open_capture w (capture_source video_path)))
                  (cap_height (open_capture w (capture_source video_path)))
                  the_disflow true
                  (cap_frames (open_capture w (capture_source video_path))) 0
                  (np_zeros [192; 192]%nat uint8) (np_zeros [192; 192]%nat float32)) as Ht.
    rewrite Hloop in Ht. exact Ht.
Qed.

End VideoLoops.

(** ** Compositing over white *)

Lemma blend_above_frame (m p : Q) :
  (0 <= m)%Q -> (m <= 1)%Q -> (p <= 255)%Q -> (p <= blend m p)%Q.
Proof.
  intros Hm0 Hm1 Hp. unfold blend.
  assert (H : (0 <= (1 - m) * (255 - p))%Q) by (apply Qmult_le_0_compat; lra).
  lra.
Qed.

Lemma round_float32_comp (x y : Q) : (x == y)%Q -> round_float32 x = round_float32 y.
Proof. apply round_binary_comp. Qed.

(** Under a matte value of 1 the float32 blend is the frame value. *)
Lemma blend_float32_opaque (m p : Q) (z : Z) :
  (0 <= z <= 255)%Z -> (p == inject_Z z)%Q -> (m == 1)%Q ->
  Qfloor (blend_float32 m p) = z.
Proof.
  intros Hz Hp Hm. unfold blend_float32.
  rewrite (round_float32_comp (m * p) (inject_Z z)) by (rewrite Hm, Hp; ring).
  rewrite (round_float32_comp (1 - m) 0) by (rewrite Hm; ring).
  change (round_float32 0) with 0%Q.
  rewrite (round_float32_comp (0 * _) 0) by ring.
  change (round_float32 0) with 0%Q.
  rewrite (round_float32_comp (_ + 0) (inject_Z z))
    by (rewrite (round_float32_uint8 z Hz); ring).
  rewrite (Qfloor_comp _ _ (round_float32_uint8 z Hz)). apply Qfloor_Z.
Qed.

(** Under a matte value of 0 the float32 blend is white. *)
Lemma blend_float32_transparent (m p : Q) :
  (m == 0)%Q -> Qfloor (blend_float32 m p) = 255%Z.
Proof.
  intros Hm. unfold blend_float32.
  rewrite (round_float32_comp (m * p) 0) by (rewrite Hm; ring).
  rewrite (round_float32_comp (1 - m) 1) by (rewrite Hm; ring).
  reflexivity.
Qed.

(** X15. For an h x w float32 matte with values in [0, 1] and an
    h x w x 3 frame of integers between 0 and 255, every value of the
    composite is an integer of at most 255 that is at most one below
    the frame value: blending with white darkens a pixel by no more than
    the rounding.  Where the matte is 1 the composite is the frame
    value, where it is 0 the composite is 255. *)
Theorem composite_over_white_float32 (img_matting frame_org : ndarray) (h w : nat) :
  arr_dtype img_matting = float32 ->
  shape img_matting = [h; w] -> shape frame_org = [h; w; 3%nat] ->
  exists comb,
    composite img_matting frame_org = Ok comb /\
    forall k c, (k < length (data img_matting))%nat -> (c < 3)%nat ->
      (3 * k + c < length (data frame_org))%nat ->
      let m := nth k (data img_matting) 0%Q in
      let p := nth (3 * k + c) (data frame_org) 0%Q in
      forall z : Z,
      (0 <= m)%Q -> (m <= 1)%Q -> (0 <= z <= 255)%Z -> (p == inject_Z z)%Q ->
      exists v : Z,
        nth (3 * k + c) (data comb) 0%Q = inject_Z v /\
        (z - 1 <= v <= 255)%Z /\
        ((m == 1)%Q -> v = z) /\
        ((m == 0)%Q -> v = 255%Z).
Proof.
  intros Hd Hm Hp.
  destruct (composite_pixels img_matting frame_org h w Hd Hm Hp)
    as (comb & Hc & _ & _ & Hpix).
  exists comb. split; [assumption|].
  intros k c Hk Hc3 Hkc m p z Hm0 Hm1 Hz Hpz.
  assert (Hp0 : (0 <= p)%Q).
  { rewrite Hpz. change 0%Q with (inject_Z 0). rewrite <- Zle_Qle. lia. }
  assert (Hp255 : (p <= 255)%Q).
  { rewrite Hpz. change 255%Q with (inject_Z 255). rewrite <- Zle_Qle. lia. }
  destruct (blend_float32_near m p Hm0 Hm1 Hp0 Hp255) as (Hb0 & Hb256 & Hnear).
  destruct (to_uint8_floor _ Hb0 Hb256) as [Hfl Hrange].
  exists (Qfloor (blend_float32 m p)). split; [|split; [|split]].
  - rewrite (Hpix k c Hk Hc3 Hkc). f_equal. exact Hfl.
  - split; [|lia]. replace (z - 1)%Z with (z + -1)%Z by lia.
    pose proof (blend_above_frame m p Hm0 Hm1 Hp255) as Habove.
    apply Qabs_Qle_condition in Hnear.
    rewrite <- (Qfloor_Z (z + -1)). apply Qfloor_resp_le.
    rewrite inject_Z_plus. change (inject_Z (-1)) with (-1)%Q.
    rewrite <- Hpz. lra.
  - intros H1. apply blend_float32_opaque; assumption.
  - intros H0. apply blend_float32_transparent; assumption.
Qed.

Lemma composite_over_white_float32_witness :
  exists comb v,
    composite (mk_ndarray float32 [1; 1]%nat [1%Q])
              (mk_ndarray uint8 [1; 1; 3]%nat [0; 10; 255]%Q) = Ok comb /\
    nth (3 * 0 + 1) (data comb) 0%Q = inject_Z v /\ v = 10%Z.
Proof.
  destruct (composite_over_white_float32
              (mk_ndarray float32 [1; 1]%nat [1%Q])
              (mk_ndarray uint8 [1; 1; 3]%nat [0; 10; 255]%Q) 1 1
              eq_refl eq_refl eq_refl)
    as (comb & Hc & Hpix).
  assert (H0 : (0 < length (data (mk_ndarray float32 [1; 1]%nat [1%Q])))%nat) by (cbn; lia).
  assert (H1 : (1 < 3)%nat) by lia.
  assert (H2 : (3 * 0 + 1 < length (data (mk_ndarray uint8 [1; 1; 3]%nat [0; 10; 255]%Q)))%nat)
    by (cbn; lia).
  destruct (Hpix 0%nat 1%nat H0 H1 H2 10%Z) as (v & Hv & _ & Hone & _);
    try (vm_compute; discriminate); try lia; try reflexivity.
  exists comb, v. split; [exact Hc|]. split; [exact Hv|].
  apply Hone. reflexivity.
Defined.

(** ** Runs of [video_segment] on examples *)

Lemma video_segment_capture_not_opened_witness :
  let w := {| environ := ∅; path_exists := fun _ => false;
              open_capture := fun _ => {| cap_isOpened := false; cap_width := 0;
                                          cap_height := 0; cap_fps := 0;
                                          cap_frames := [] |};
              wait_key := fun _ => (-1)%Z |} in
  @video_segment (Example.backend 1) (_set_config w) w (Some "missing.avi") false "out"
  = ([EVideoCapture (Some "missing.avi")], Raise IOError).
Proof.
  intros w.
  apply (@video_segment_capture_not_opened (Example.backend 1) (_set_config w) w
           (Some "missing.avi") false "out" eq_refl eq_refl).
Defined.

Lemma video_segment_writes_every_frame_witness :
  let w := Example.the_world ∅ [Example.frame 0; Example.frame 7] in
  exists log,
    @video_segment (Example.backend 1) (_set_config w) w (Some "v.avi") false "out"
    = (log, Ok tt) /\
    Forall2 composite_of [Example.frame 0; Example.frame 7] (written log) /\
    shown log = [].
Proof.
  intros w.
  assert (Hrun : @video_segment (Example.backend 1) (_set_config w) w (Some "v.avi")
                   false "out"
                 = (fst (@video_segment (Example.backend 1) (_set_config w) w
                           (Some "v.avi") false "out"), Ok tt)) by reflexivity.
  destruct (@video_segment_writes_every_frame (Example.backend 1) _ _ _ _ _ _ Hrun)
    as (Hw & _ & Hs).
  eexists. split; [exact Hrun|]. split; [exact Hw | exact Hs].
Defined.

Lemma video_segment_camera_until_q_witness :
  let frames := [Example.frame 0; Example.frame 7; Example.frame 9] in
  let w := {| environ := ∅; path_exists := fun _ => true;
              open_capture := fun _ => {| cap_isOpened := true; cap_width := 2;
                                          cap_height := 1; cap_fps := 25;
                                          cap_frames := frames |};
              wait_key := fun n => if (n =? 1)%nat then 113%Z else (-1)%Z |} in
  exists log,
    @video_segment (Example.backend 1) (_set_config w) w None false "out" = (log, Ok tt) /\
    Forall2 composite_of [Example.frame 0; Example.frame 7] (shown log) /\
    written log = [].
Proof.
  intros frames w.
  assert (Hrun : @video_segment (Example.backend 1) (_set_config w) w None false "out"
                 = (fst (@video_segment (Example.backend 1) (_set_config w) w None
                           false "out"), Ok tt)) by reflexivity.
  destruct (@video_segment_camera_until_q (Example.backend 1) _ _ _ _ _ Hrun)
    as (Hq & _ & Hw).
  eexists. split; [exact Hrun|]. split; [|exact Hw].
  apply (Hq 1%nat).
  - cbn. lia.
  - reflexivity.
  - intros j Hj. assert (j = 0%nat) as -> by lia. reflexivity.
Defined.

(** ** [serving_method] *)

Lemma result_map_raises {A C} (f : A -> result C) (pre post : list A) (bad : A) (e : exn) :
  Forall (fun x => exists y, f x = Ok y) pre ->
  f bad = Raise e ->
  result_map f (pre ++ bad :: post) = Raise e.
Proof.
  intros Hpre Hbad. induction Hpre as [|x pre [y Hy] _ IH]; cbn [app result_map].
  - rewrite Hbad. reflexivity.
  - rewrite Hy, IH. reflexivity.
Qed.

Lemma result_map_length {A C} (f : A -> result C) (l : list A) (l' : list C) :
  result_map f l = Ok l' -> length l' = length l.
Proof.
  revert l'. induction l as [|x l IH]; intros l'; cbn [result_map].
  - intros [= <-]. reflexivity.
  - destruct (f x) as [y|e]; [|discriminate]. cbn [mbind result_bind].
    destruct (result_map f l) as [ys|e]; [|discriminate].
    intros [= <-]. cbn [length]. f_equal. apply IH. reflexivity.
Qed.

Section Serving.

Context {B : Backend} {K : Codec}.

(** The number of results of a run of [segment] that returns. *)
Lemma segment_Ok_length self w images paths batch_size use_gpu visualization
    output_dir log res :
  (1 <= batch_size)%Z -> (batch_size < underflow_batch_size)%Z ->
  segment self w images paths batch_size use_gpu visualization output_dir = (log, Ok res) ->
  exists all_data, reader images paths = Ok all_data /\ length res = length all_data.
Proof.
  intros Hbs Hub Hrun. unfold segment in Hrun.
  inv_bind Hrun. inv_bind Hrun. inv_bind Hrun.
  match goal with H : reader images paths = Ok ?x |- _ => rename x into all_data end.
  match goal with H : ceil_div _ _ = Ok ?x |- _ => rename x into loop_num end.
  exists all_data. split; [assumption|].
  pose (P := fun (done : list Z) (s : list res_dict) (lacc : list event) =>
    length s = length (flat_map (fun iter_id =>
                  gather_batch all_data (iter_id * batch_size) batch_size) done)).
  assert (HP : P (py_range loop_num) res ([] ++ ltac:(let lg := log_of Hrun in exact lg)));
    [|unfold P in HP; rewrite HP;
      match goal with H : ceil_div _ _ = Ok _ |- _ =>
        rewrite (batches_cover all_data batch_size loop_num Hbs Hub H) end; reflexivity].
  eapply (for_each_invariant _ _ P) with (done := []);
    [| reflexivity | | exact Hrun]; [|reflexivity].
  intros done x rest s s' lacc lb _ Hacc Hbody.
  unfold segment_batch in Hbody.
  inv_bind Hbody. inv_bind Hbody. inv_bind Hbody. inv_bind Hbody.
  apply postprocess_loop in Hbody as (rs & -> & HFb & _).
  unfold P in *. rewrite flat_map_app, !length_app, Hacc.
  cbn [flat_map]. rewrite app_nil_r. f_equal. symmetry. eapply Forall2_length. exact HFb.
Qed.

(** X16. [serving_method] decodes every image before anything else: when
    an image does not decode, the exception of the first such image is
    raised and nothing was read, inferred or post-processed, whatever
    the keyword arguments. *)
Theorem serving_rejects_undecodable self w (pre post : list string) (bad : string)
    (e : exn) kwargs :
  Forall (fun x => exists a, base64_to_cv2 x = Ok a) pre ->
  base64_to_cv2 bad = Raise e ->
  serving_method self w (pre ++ bad :: post) kwargs = ([], Raise e).
Proof.
  intros Hpre Hbad. unfold serving_method.
  rewrite (result_map_raises _ _ _ _ _ Hpre Hbad). reflexivity.
Qed.

(** X17. Provided the reader yields one item per image, a call of
    [serving_method] without keyword arguments that returns yields
    exactly one entry per submitted image, and the predictor was run
    once per image, on one image at a time. *)
Theorem serving_one_entry_per_image self w (images : list string) log out :
  reader_yields_each_image B ->
  serving_method self w images no_kwargs = (log, Ok out) ->
  length out = length images /\
  batch_sizes log = repeat 1%nat (length images).
Proof.
  intros Hreader Hrun. unfold serving_method, no_kwargs in Hrun. cbn [default
    kw_paths kw_batch_size kw_use_gpu kw_visualization kw_output_dir] in Hrun.
  inv_bind Hrun. inv_bind Hrun. apply lift_Ok_inv in Hrun as [Hout ->].
  match goal with H : result_map base64_to_cv2 images = Ok ?d |- _ =>
    rename d into decoded; apply result_map_length in H; rename H into Hdec end.
  apply result_map_length in Hout.
  match goal with H : segment _ _ _ _ _ _ _ _ = _ |- _ => rename H into Hseg end.
  assert (Hbs : (1 <= 1)%Z) by lia.
  assert (Hub : (1 < underflow_batch_size)%Z) by reflexivity.
  destruct (segment_Ok_length _ _ _ _ _ _ _ _ _ _ Hbs Hub Hseg)
    as (all_data & Hread & Hlen).
  destruct (segment_batch_sizes _ _ _ _ _ _ _ _ _ _ Hseg)
    as (all_data' & loop_num & Hread' & Hceil & Hsizes).
  rewrite Hread in Hread'. injection Hread' as <-.
  pose proof (Hreader _ _ Hread) as Hn.
  split; [congruence|].
  cbn [app]. rewrite app_nil_r, Hsizes.
  assert (Hloop : loop_num = Z.of_nat (length all_data)).
  { destruct (ceil_div_covers _ _ _ Hbs Hub Hceil) as [_ Hle].
    pose proof (ceil_div_tight _ _ _ Hbs Hub Hceil). lia. }
  rewrite Hloop. unfold py_range. rewrite Nat2Z.id, map_map, <- Hdec, <- Hn.
  assert (Hall : forall k, (k < length all_data)%nat ->
            length (gather_batch all_data (Z.of_nat k * 1) 1) = 1%nat).
  { intros k Hk. change 1%Z with (Z.of_nat 1). rewrite gather_batch_slice.
    unfold slice. rewrite length_firstn, length_skipn. lia. }
  clear - Hall. revert Hall. generalize (length all_data) as n.
  intros n Hall. 
  assert (Hgen : forall m, (m <= n)%nat ->
            map (fun x => length (gather_batch all_data (Z.of_nat x * 1) 1)) (seq 0 m)
            = repeat 1%nat m).
  { induction m as [|m IH]; intros Hm; [reflexivity|].
    rewrite seq_S, map_app, IH by lia. cbn [map Nat.add].
    rewrite Hall by lia. cbn [repeat]. rewrite repeat_cons. reflexivity. }
  apply Hgen. lia.
Qed.

End Serving.

Lemma example_reader_each_image (fg : Q) : reader_yields_each_image (Example.backend fg).
Proof.
  intros imgs all_data. cbn. unfold Example.ex_reader. intros [= <-].
  cbn [default]. apply length_map.
Qed.

Lemma serving_rejects_undecodable_witness :
  let w := Example.the_world ∅ [] in
  @serving_method (Example.backend 1) ExampleService.codec (_set_config w) w
    (["aaaa"; "bb"] ++ "" :: ["cc"]) no_kwargs
  = ([], Raise ValueError).
Proof.
  intros w.
  apply (@serving_rejects_undecodable (Example.backend 1) ExampleService.codec).
  - repeat constructor; eexists; reflexivity.
  - reflexivity.
Defined.

Lemma serving_one_entry_per_image_witness :
  let w := Example.the_world ∅ [] in
  exists log out,
    @serving_method (Example.backend 1) ExampleService.codec (_set_config w) w
      ["aaaa"; "bb"; "c"] no_kwargs = (log, Ok out) /\
    length out = 3%nat /\ batch_sizes log = [1; 1; 1]%nat.
Proof.
  intros w.
  eassert (Hrun : @serving_method (Example.backend 1) ExampleService.codec (_set_config w) w
                    ["aaaa"; "bb"; "c"] no_kwargs = (_, Ok _))
    by (vm_compute; reflexivity).
  destruct (@serving_one_entry_per_image (Example.backend 1) ExampleService.codec
              _ _ _ _ _ (example_reader_each_image 1) Hrun) as [Hlen Hsizes].
  eexists. eexists. split; [exact Hrun|]. split; [exact Hlen | exact Hsizes].
Defined.

Lemma video_segment_releases_iff_returns_witness :
  let w := Example.the_world ∅ [Example.frame 0; Example.frame 7] in
  In (ERelease "cap_video")
     (fst (@video_segment (Example.backend 1) (_set_config w) w (Some "v.avi") false "out")).
Proof.
  intros w.
  apply (proj2 (@video_segment_releases_iff_returns (Example.backend 1) (_set_config w) w
                  (Some "v.avi") false "out")).
  reflexivity.
Defined.

Lemma video_segment_dispatch_witness :
  let w := Example.the_world ∅ [Example.frame 0; Example.frame 7] in
  Forall (fun ev => file_event ev = false)
         (fst (@video_segment (Example.backend 1) (_set_config w) w None false "out")) /\
  Forall (fun ev => screen_event ev = false)
         (fst (@video_segment (Example.backend 1) (_set_config w) w (Some "") false "out")).
Proof.
  intros w. split.
  - apply (proj1 (proj2 (@video_segment_dispatch (Example.backend 1) (_set_config w) w
                           None false "out"))).
    reflexivity.
  - apply (proj2 (proj2 (@video_segment_dispatch (Example.backend 1) (_set_config w) w
                           (Some "") false "out"))).
    discriminate.
Defined.
